(** * Reinforced-concrete beam and column engine: model and checked properties

    A shallow embedding of the numeric engine of the application:
    - [BeamSolver]    the finite-element beam solver ([solveLinear], [solveBeam]);
    - [Calculations]  the design engine ([getRhoMin], [calculateBeam] with its
                      inner [calculateReinforcement], [calculateColumn] with its
                      inner [calcSecondOrder] and [getOmega]);
    - [BeamEditor]    the scale and the drag arithmetic of the beam editor.

    Representation choices.
    - A JavaScript [number] is modelled by a real number.  The source computes
      with IEEE doubles; the model agrees with it up to rounding wherever no
      division by zero, square root of a negative number or overflow occurs.
      Statements that depend on a quotient carry the hypotheses that keep the
      divisor away from zero.
    - [Math.sqrt], [Math.PI], [Math.sin] and [Math.cos] are their real
      counterparts, and [Math.pow(x, 2 / 3)] is [Rpower], which is the same
      power for a positive [x].
    - Results of [Math.ceil], [Math.floor] and [Math.round] are integers ([Z]).
    - A template literal is kept as the list of its pieces: literal text,
      interpolated numbers ([Num], the runtime's [ToString]) and numbers
      printed by [toFixed] ([Fixed]).
    - Arrays are lists; [memory] and [messages], the two arrays the inner
      helpers push to, are threaded explicitly. *)

From Stdlib Require Import Reals Lra Lia ZArith List String Bool Sorted.
Import ListNotations.

Open Scope R_scope.

(** ** JavaScript values *)

Module Js.

(** Comparisons of numbers, as booleans. *)
Definition ltb (x y : R) : bool := if Rlt_dec x y then true else false.
Definition leb (x y : R) : bool := if Rle_dec x y then true else false.
Definition gtb (x y : R) : bool := ltb y x.
Definition geb (x y : R) : bool := leb y x.
Definition eqb (x y : R) : bool := if Req_dec_T x y then true else false.

(** [Math.ceil], [Math.floor], [Math.round] (halves go up). *)
Definition ceil (x : R) : Z := Zceil x.
Definition floor (x : R) : Z := Zfloor x.
Definition round (x : R) : Z := Zfloor (x + / 2).

(** [Math.pow(x, 2)]. *)
Definition sq (x : R) : R := x * x.

(** Pieces of a template literal. *)
Inductive piece : Type :=
| Lit (s : string)
| Num (x : R)
| Fixed (x : R) (digits : nat).

Definition text : Type := list piece.

(** The line feed of the source's ["\n"]. *)
Definition nl : piece := Lit (String (Ascii.ascii_of_nat 10) EmptyString).

(** Arrays of numbers: read, update and accumulate at an index. *)
Definition get (v : list R) (i : nat) : R := nth i v 0.

Fixpoint upd {A : Type} (v : list A) (i : nat) (f : A -> A) : list A :=
  match v, i with
  | [], _ => []
  | a :: t, O => f a :: t
  | a :: t, S j => a :: upd t j f
  end.

Definition vadd (v : list R) (i : nat) (x : R) : list R :=
  upd v i (fun a => a + x).

Definition vsub (v : list R) (i : nat) (x : R) : list R :=
  upd v i (fun a => a - x).

Definition mget (M : list (list R)) (r c : nat) : R := get (nth r M []) c.

Definition madd (M : list (list R)) (r c : nat) (x : R) : list (list R) :=
  upd M r (fun row => vadd row c x).

(** [Array.prototype.findIndex]; [None] is the source's [-1]. *)
Fixpoint findIndexFrom {A : Type} (p : A -> bool) (l : list A) (i : nat)
  : option nat :=
  match l with
  | [] => None
  | a :: t => if p a then Some i else findIndexFrom p t (S i)
  end.

Definition findIndex {A : Type} (p : A -> bool) (l : list A) : option nat :=
  findIndexFrom p l 0.

End Js.

Import Js.

(** ** The data model ([types.ts]) *)

Inductive SteelType : Type := CA25 | CA50 | CA60.

Definition steelName (s : SteelType) : string :=
  match s with
  | CA25 => "CA-25"
  | CA50 => "CA-50"
  | CA60 => "CA-60"
  end.

Inductive SupportCondition : Type :=
| PINNED_PINNED | FIXED_FREE | FIXED_PINNED | FIXED_FIXED.

Definition conditionName (c : SupportCondition) : string :=
  match c with
  | PINNED_PINNED => "Bi-articulado"
  | FIXED_FREE => "Engastado-Livre"
  | FIXED_PINNED => "Engastado-Articulado"
  | FIXED_FIXED => "Bi-engastado"
  end.

Inductive SupportType : Type := roller | pin | fixed.

Definition isFixed (t : SupportType) : bool :=
  match t with fixed => true | _ => false end.

Definition BAR_DIAMETERS : list R := [6.3; 8.0; 10.0; 12.5; 16.0; 20.0; 25.0].

Record PointLoad : Type := mkPointLoad {
  pl_id : string;
  pl_position : R;
  pl_magnitude : R
}.

Record DistributedLoad : Type := mkDistributedLoad {
  dl_id : string;
  dl_start : R;
  dl_end : R;
  dl_magnitude : R;
  dl_startMagnitude : R;
  dl_endMagnitude : R
}.

Record Support : Type := mkSupport {
  sup_id : string;
  sup_position : R;
  sup_type : SupportType
}.

Inductive HookAngle : Type := Hook90 | Hook135.

Record BeamInput : Type := mkBeamInput {
  span : R;
  supports : list Support;
  pointLoads : list PointLoad;
  distributedLoads : list DistributedLoad;
  width : R;
  height : R;
  fck : R;
  steelType : SteelType;
  fyk : R;
  concreteCover : R;
  longitudinalBarDiameter : R;
  topBarDiameter : R;
  stirrupDiameter : R;
  stirrupSpacing : R;
  stirrupHookAngle : HookAngle;
  layers : Z
}.

Record ColumnInput : Type := mkColumnInput {
  c_height : R;
  c_axialLoad : R;
  c_widthX : R;
  c_widthY : R;
  c_fck : R;
  c_steelType : SteelType;
  c_fyk : R;
  c_supportCondition : SupportCondition;
  c_longitudinalBarDiameter : R;
  c_stirrupDiameter : R;
  c_stirrupSpacing : R
}.

Record CrossSectionDetails : Type := mkCrossSection {
  cs_width : R;
  cs_height : R;
  cs_cover : R;
  cs_stirrupDiameter : R;
  cs_stirrupSpacing : R;
  cs_stirrupHookAngle : HookAngle;
  cs_bottomBarDiameter : R;
  cs_topBarDiameter : R;
  cs_bottomLayers : list R;
  cs_topLayers : list R;
  cs_leftLayers : option (list R);
  cs_rightLayers : option (list R);
  cs_stirrupLegs : R
}.

Record ReinforcementOption : Type := mkOption {
  ro_diameter : R;
  ro_count : Z;
  ro_area : R;
  ro_layers : Z;
  ro_valid : bool
}.

Record Metric : Type := mkMetric {
  m_label : string;
  m_value : piece;
  m_unit : string;
  m_description : option text
}.

(** One sample of a diagram: abscissa and ordinate as the source stores them. *)
Record Sample : Type := mkSample {
  sm_x : piece;
  sm_y : piece
}.

Record CalculationResult : Type := mkResult {
  isValid : bool;
  messages : list text;
  calculationMemory : list text;
  metrics : list Metric;
  chartDataMoment : option (list Sample);
  chartDataNormal : option (list Sample);
  chartDataBuckling : option (list Sample);
  chartDataShear : option (list Sample);
  chartDataDeflection : option (list Sample);
  crossSection : option CrossSectionDetails;
  alternativeReinforcement : option (list ReinforcementOption)
}.

(** ** The finite-element beam solver ([beamSolver.ts]) *)

Module BeamSolver.

Definition createMatrix (rows cols : nat) : list (list R) :=
  repeat (repeat 0 cols) rows.

Definition createVector (size : nat) : list R := repeat 0 size.

Definition msub (M : list (list R)) (r c : nat) (x : R) : list (list R) :=
  upd M r (fun row => vsub row c x).

(** [[a[i], a[j]] = [a[j], a[i]]]. *)
Definition swap {A : Type} (d : A) (l : list A) (i j : nat) : list A :=
  let ai := nth i l d in
  let aj := nth j l d in
  upd (upd l i (fun _ => aj)) j (fun _ => ai).

(** *** Gaussian elimination with partial pivoting *)

Definition pivotRow (M : list (list R)) (n i : nat) : nat :=
  fold_left
    (fun maxRow k =>
       if gtb (Rabs (mget M k i)) (Rabs (mget M maxRow i)) then k else maxRow)
    (seq (S i) (n - S i)) i.

Definition eliminate (n i : nat) (st : list (list R) * list R)
  : list (list R) * list R :=
  fold_left
    (fun (st : list (list R) * list R) k =>
       let (M, x) := st in
       let factor := mget M k i / mget M i i in
       let x := vsub x k (factor * get x i) in
       let M :=
         fold_left (fun M j => msub M k j (factor * mget M i j))
                   (seq i (n - i)) M in
       (M, x))
    (seq (S i) (n - S i)) st.

Definition forwardStep (n : nat) (st : list (list R) * list R) (i : nat)
  : list (list R) * list R :=
  let (M, x) := st in
  let maxRow := pivotRow M n i in
  let M := swap [] M i maxRow in
  let x := swap 0 x i maxRow in
  if ltb (Rabs (mget M i i)) 1e-10 then (M, x) else eliminate n i (M, x).

Definition backSubstitute (n : nat) (M : list (list R)) (x : list R)
  : list R :=
  fold_left
    (fun res i =>
       let sum :=
         fold_left (fun sum j => sum + mget M i j * get res j)
                   (seq (S i) (n - S i)) 0 in
       if gtb (Rabs (mget M i i)) 1e-10
       then upd res i (fun _ => (get x i - sum) / mget M i i)
       else res)
    (rev (seq 0 n)) (createVector n).

Definition solveLinear (A : list (list R)) (b : list R) : list R :=
  let n := List.length A in
  let (M, x) := fold_left (forwardStep n) (seq 0 n) (A, b) in
  backSubstitute n M x.

(** *** Discretisation *)

(** [Set.prototype.add]: insertion order, no repeats. *)
Definition setAdd (s : list R) (x : R) : list R :=
  if existsb (eqb x) s then s else s ++ [x].

Fixpoint insertSorted (x : R) (l : list R) : list R :=
  match l with
  | [] => [x]
  | y :: t => if leb x y then x :: l else y :: insertSorted x t
  end.

(** [sort((a, b) => a - b)]. *)
Definition sortAscending (l : list R) : list R := fold_right insertSorted [] l.

Definition buildNodes (span : R) (supports : list Support) : list R :=
  let rawNodes := setAdd (setAdd [] 0) span in
  let rawNodes := fold_left (fun s sp => setAdd s (sup_position sp)) supports rawNodes in
  sortAscending rawNodes.

(** *** Stiffness assembly (step 3) *)

Definition assembleStiffness (EI : R) (nodes : list R) (K : list (list R))
  : list (list R) :=
  fold_left
    (fun K i =>
       let x1 := get nodes i in
       let x2 := get nodes (i + 1) in
       let L := x2 - x1 in
       if ltb L 1e-5 then K else
       let k := EI / (L * L * L) in
       let k11 := 12 * k in
       let k12 := 6 * L * k in
       let k22 := 4 * L * L * k in
       let k22_far := 2 * L * L * k in
       let idx := [i * 2; i * 2 + 1; (i + 1) * 2; (i + 1) * 2 + 1]%nat in
       let Ke := [ [k11; k12; - k11; k12];
                   [k12; k22; - k12; k22_far];
                   [- k11; - k12; k11; - k12];
                   [k12; k22_far; - k12; k22] ] in
       fold_left
         (fun K r =>
            fold_left
              (fun K c => madd K (nth r idx O) (nth c idx O) (mget Ke r c))
              (seq 0 4) K)
         (seq 0 4) K)
    (seq 0 (List.length nodes - 1)) K.

(** *** Load vector (step 4): fixed-end actions are subtracted from [F] *)

(** 4.1: one distributed load, over every element. *)
Definition assembleDistributed (nodes : list R) (F : list R) (d : DistributedLoad)
  : list R :=
  fold_left
    (fun F i =>
       let x1 := get nodes i in
       let x2 := get nodes (i + 1) in
       let L := x2 - x1 in
       let start := Rmax x1 (dl_start d) in
       let end_ := Rmin x2 (dl_end d) in
       if gtb end_ start then
         let totalLen := dl_end d - dl_start d in
         let slope := (dl_endMagnitude d - dl_startMagnitude d)
                      / (if eqb totalLen 0 then 1 else totalLen) in
         let q1 := dl_startMagnitude d + slope * (start - dl_start d) in
         let q2 := dl_startMagnitude d + slope * (end_ - dl_start d) in
         let nSegs := 5 in
         let dx := (end_ - start) / nSegs in
         fold_left
           (fun F k =>
              let px := start + dx * INR k + dx / 2 in
              let qx := q1 + (q2 - q1) * (INR k + 0.5) / nSegs in
              let P := qx * dx in
              let a := px - x1 in
              let b := x2 - px in
              let R1 := (P * b * b * (3 * a + b)) / (L * L * L) in
              let R2 := (P * a * a * (a + 3 * b)) / (L * L * L) in
              let M1 := (P * a * b * b) / (L * L) in
              let M2 := - (P * a * a * b) / (L * L) in
              let idx1 := (i * 2)%nat in
              let idx2 := ((i + 1) * 2)%nat in
              let F := vsub F idx1 R1 in
              let F := vsub F (idx1 + 1) M1 in
              let F := vsub F idx2 R2 in
              vsub F (idx2 + 1) M2)
           (seq 0 5) F
       else F)
    (seq 0 (List.length nodes - 1)) F.

(** 4.2: one point load; the loop over the elements stops at the first
    element that takes the load ([break]) and passes over an element
    shorter than [1e-5] ([continue]). *)
Fixpoint assemblePointFrom (nodes : list R) (p : PointLoad) (F : list R)
         (elements : list nat) : list R :=
  match elements with
  | [] => F
  | i :: rest =>
      let x1 := get nodes i in
      let x2 := get nodes (i + 1) in
      if geb (pl_position p) x1 && leb (pl_position p) x2 then
        let L := x2 - x1 in
        let a := pl_position p - x1 in
        let b := x2 - pl_position p in
        if ltb L 1e-5 then assemblePointFrom nodes p F rest else
        let P := pl_magnitude p in
        let R1 := (P * b * b * (3 * a + b)) / (L * L * L) in
        let R2 := (P * a * a * (a + 3 * b)) / (L * L * L) in
        let M1 := (P * a * b * b) / (L * L) in
        let M2 := - (P * a * a * b) / (L * L) in
        let idx1 := (i * 2)%nat in
        let idx2 := ((i + 1) * 2)%nat in
        let F := vsub F idx1 R1 in
        let F := vsub F (idx1 + 1) M1 in
        let F := vsub F idx2 R2 in
        vsub F (idx2 + 1) M2
      else assemblePointFrom nodes p F rest
  end.

Definition assemblePoint (nodes : list R) (F : list R) (p : PointLoad) : list R :=
  assemblePointFrom nodes p F (seq 0 (List.length nodes - 1)).

Definition assembleLoads (nodes : list R) (dls : list DistributedLoad)
           (pls : list PointLoad) (F : list R) : list R :=
  let F := fold_left (assembleDistributed nodes) dls F in
  fold_left (assemblePoint nodes) pls F.

(** *** Boundary conditions (step 5) *)

Definition penalty : R := 1e20.

Definition applySupport (nodes : list R) (K : list (list R)) (s : Support)
  : list (list R) :=
  match findIndex (fun n => ltb (Rabs (n - sup_position s)) 0.001) nodes with
  | Some idx =>
      let vIndex := (idx * 2)%nat in
      let tIndex := (idx * 2 + 1)%nat in
      let K := madd K vIndex vIndex penalty in
      if isFixed (sup_type s) then madd K tIndex tIndex penalty else K
  | None => K
  end.

(** *** Member end forces (step 7) *)

Record MemberForce : Type := mkMemberForce {
  nodeLeftIdx : nat;
  nodeRightIdx : nat;
  Fy_L : R;
  M_L : R;
  Fy_R : R;
  M_R : R
}.

(** The fixed-end actions of element [[x1, x2]] are computed again here,
    into the array [fea]. *)
Definition recoverDistributed (x1 x2 L : R) (fea : list R) (d : DistributedLoad)
  : list R :=
  let start := Rmax x1 (dl_start d) in
  let end_ := Rmin x2 (dl_end d) in
  if gtb end_ start then
    let totalLen := dl_end d - dl_start d in
    let slope := (dl_endMagnitude d - dl_startMagnitude d)
                 / (if eqb totalLen 0 then 1 else totalLen) in
    let q1 := dl_startMagnitude d + slope * (start - dl_start d) in
    let q2 := dl_startMagnitude d + slope * (end_ - dl_start d) in
    let nSegs := 5 in
    let dx := (end_ - start) / nSegs in
    fold_left
      (fun fea k =>
         let px := start + dx * INR k + dx / 2 in
         let qx := q1 + (q2 - q1) * (INR k + 0.5) / nSegs in
         let P := qx * dx in
         let a := px - x1 in
         let b := x2 - px in
         let fea := vadd fea 0 ((P * b * b * (3 * a + b)) / (L * L * L)) in
         let fea := vadd fea 1 ((P * a * b * b) / (L * L)) in
         let fea := vadd fea 2 ((P * a * a * (a + 3 * b)) / (L * L * L)) in
         vsub fea 3 ((P * a * a * b) / (L * L)))
      (seq 0 5) fea
  else fea.

Definition recoverPoint (x1 x2 L : R) (fea : list R) (p : PointLoad) : list R :=
  if geb (pl_position p) x1 && leb (pl_position p) x2 then
    let a := pl_position p - x1 in
    let b := x2 - pl_position p in
    if gtb (Rabs (x2 - x1)) 1e-5 && gtb (Rmin a b) 1e-5 then
      let P := pl_magnitude p in
      let fea := vadd fea 0 ((P * b * b * (3 * a + b)) / (L * L * L)) in
      let fea := vadd fea 1 ((P * a * b * b) / (L * L)) in
      let fea := vadd fea 2 ((P * a * a * (a + 3 * b)) / (L * L * L)) in
      vsub fea 3 ((P * a * a * b) / (L * L))
    else fea
  else fea.

Definition recoverFEA (nodes : list R) (dls : list DistributedLoad)
           (pls : list PointLoad) (i : nat) : list R :=
  let x1 := get nodes i in
  let x2 := get nodes (i + 1) in
  let L := x2 - x1 in
  let fea := [0; 0; 0; 0] in
  let fea := fold_left (recoverDistributed x1 x2 L) dls fea in
  fold_left (recoverPoint x1 x2 L) pls fea.

Definition memberForce (EI : R) (nodes d : list R) (dls : list DistributedLoad)
           (pls : list PointLoad) (i : nat) : MemberForce :=
  let x1 := get nodes i in
  let x2 := get nodes (i + 1) in
  let L := x2 - x1 in
  let k := EI / (L * L * L) in
  let u := [get d (i * 2); get d (i * 2 + 1);
            get d ((i + 1) * 2); get d ((i + 1) * 2 + 1)] in
  let u0 := get u 0 in
  let u1 := get u 1 in
  let u2 := get u 2 in
  let u3 := get u 3 in
  let f_stiff :=
    [ (12 * k) * u0 + (6 * L * k) * u1 + (- 12 * k) * u2 + (6 * L * k) * u3;
      (6 * L * k) * u0 + (4 * L * L * k) * u1 + (- 6 * L * k) * u2 + (2 * L * L * k) * u3;
      (- 12 * k) * u0 + (- 6 * L * k) * u1 + (12 * k) * u2 + (- 6 * L * k) * u3;
      (6 * L * k) * u0 + (2 * L * L * k) * u1 + (- 6 * L * k) * u2 + (4 * L * L * k) * u3 ] in
  let fea := recoverFEA nodes dls pls i in
  {| nodeLeftIdx := i;
     nodeRightIdx := i + 1;
     Fy_L := get f_stiff 0 + get fea 0;
     M_L := get f_stiff 1 + get fea 1;
     Fy_R := get f_stiff 2 + get fea 2;
     M_R := get f_stiff 3 + get fea 3 |}.

Definition memberForces (EI : R) (nodes d : list R) (dls : list DistributedLoad)
           (pls : list PointLoad) : list MemberForce :=
  map (memberForce EI nodes d dls pls) (seq 0 (List.length nodes - 1)).

(** *** Reactions at the nodes (step 8) *)

Record Reaction : Type := mkReaction { Ry : R; Mz : R }.

(** [Map<number, Reaction>]: [set] replaces the value of a key already there. *)
Fixpoint mapSet (m : list (R * Reaction)) (key : R) (v : Reaction)
  : list (R * Reaction) :=
  match m with
  | [] => [(key, v)]
  | (k0, v0) :: t => if eqb k0 key then (k0, v) :: t else (k0, v0) :: mapSet t key v
  end.

Fixpoint mapGet (m : list (R * Reaction)) (key : R) : option Reaction :=
  match m with
  | [] => None
  | (k0, v0) :: t => if eqb k0 key then Some v0 else mapGet t key
  end.

Definition noForce : MemberForce := mkMemberForce 0 0 0 0 0 0.

Definition nodeReaction (nodes : list R) (mf : list MemberForce)
           (pls : list PointLoad) (i : nat) : Reaction :=
  let x := get nodes i in
  let nNodes := List.length nodes in
  let Ry0 := 0 in
  let Mz0 := 0 in
  let (Ry1, Mz1) :=
    if (i <? nNodes - 1)%nat
    then (Ry0 + Fy_L (nth i mf noForce), Mz0 + M_L (nth i mf noForce))
    else (Ry0, Mz0) in
  let (Ry2, Mz2) :=
    if (0 <? i)%nat
    then (Ry1 + Fy_R (nth (i - 1) mf noForce), Mz1 + M_R (nth (i - 1) mf noForce))
    else (Ry1, Mz1) in
  let Ry3 :=
    fold_left
      (fun Ry p =>
         if ltb (Rabs (pl_position p - x)) 0.001 then Ry - pl_magnitude p else Ry)
      pls Ry2 in
  mkReaction Ry3 Mz2.

Definition buildReactionMap (nodes : list R) (mf : list MemberForce)
           (pls : list PointLoad) : list (R * Reaction) :=
  fold_left
    (fun m i => mapSet m (get nodes i) (nodeReaction nodes mf pls i))
    (seq 0 (List.length nodes)) [].

(** *** Diagrams by walking the beam (step 9)

    The source walks the beam twice.  The first loop only updates [V] and
    [M], which are set back to zero straight after it, and reads the
    reaction map without using what it reads; the diagrams come from the
    second loop, modelled here.  Inside it, the moment and centroid of a
    load slice ([dM_dist], [cent], [distCentroidToX]) are computed and
    never used. *)

Record Walk : Type := mkWalk {
  w_V : R;
  w_M : R;
  w_chartDataMoment : list Sample;
  w_chartDataShear : list Sample;
  w_chartDataDeflection : list Sample;
  w_maxMomentPos : R;
  w_maxMomentNeg : R;
  w_maxShear : R;
  w_maxDeflection : R
}.

Definition distributedShear (x_prev x : R) (dls : list DistributedLoad) : R :=
  fold_left
    (fun dV_dist d =>
       let s := Rmax x_prev (dl_start d) in
       let e := Rmin x (dl_end d) in
       if gtb e s then
         let len := e - s in
         let slope := (dl_endMagnitude d - dl_startMagnitude d)
                      / (dl_end d - dl_start d) in
         let q_s := dl_startMagnitude d + slope * (s - dl_start d) in
         let q_e := dl_startMagnitude d + slope * (e - dl_start d) in
         let force := len * (q_s + q_e) / 2 in
         dV_dist + force
       else dV_dist)
    dls 0.

Definition deflectionAt (nodes d : list R) (x : R) : R :=
  match findIndex (fun n => geb n (x - 1e-5)) nodes with
  | Some nodeIdx =>
      if (nodeIdx <? List.length nodes)%nat then
        if ltb (Rabs (get nodes nodeIdx - x)) 1e-4 then get d (nodeIdx * 2)
        else if (0 <? nodeIdx)%nat then
          let n1 := (nodeIdx - 1)%nat in
          let n2 := nodeIdx in
          let x1 := get nodes n1 in
          let x2 := get nodes n2 in
          let L := x2 - x1 in
          let localX := x - x1 in
          let xi := localX / L in
          let v1 := get d (n1 * 2) in
          let t1 := get d (n1 * 2 + 1) in
          let v2 := get d (n2 * 2) in
          let t2 := get d (n2 * 2 + 1) in
          let N1 := 1 - 3 * xi * xi + 2 * xi * xi * xi in
          let N2 := L * (xi - 2 * xi * xi + xi * xi * xi) in
          let N3 := 3 * xi * xi - 2 * xi * xi * xi in
          let N4 := L * (- xi * xi + xi * xi * xi) in
          N1 * v1 + N2 * t1 + N3 * v2 + N4 * t2
        else 0
      else 0
  | None => 0
  end.

Definition walkStep (inp : BeamInput) (nodes d : list R)
           (reactionMap : list (R * Reaction)) (dx : R) (w : Walk) (i : nat)
  : Walk :=
  let x := INR i * dx in
  let (V, M) :=
    match i with
    | O => (w_V w, w_M w)
    | S i' =>
        let x_prev := INR i' * dx in
        let segLen := x - x_prev in
        let dV_dist := distributedShear x_prev x (distributedLoads inp) in
        let V_prev := w_V w in
        let V := w_V w - dV_dist in
        let V_after_dist := V in
        let M := w_M w + (V_prev + V_after_dist) / 2 * segLen in
        let VM :=
          fold_left
            (fun (VM : R * R) s =>
               if gtb (sup_position s) (x_prev + 1e-9)
                  && leb (sup_position s) (x + 1e-9)
               then match mapGet reactionMap (sup_position s) with
                    | Some r => (fst VM + Ry r, snd VM - Mz r)
                    | None => VM
                    end
               else VM)
            (supports inp) (V, M) in
        let V :=
          fold_left
            (fun V p =>
               if gtb (pl_position p) (x_prev + 1e-9)
                  && leb (pl_position p) (x + 1e-9)
               then V - pl_magnitude p
               else V)
            (pointLoads inp) (fst VM) in
        (V, snd VM)
    end in
  let y_def := deflectionAt nodes d x in
  let y_cm := y_def * 100 in
  {| w_V := V;
     w_M := M;
     w_chartDataMoment := w_chartDataMoment w ++ [mkSample (Fixed x 2) (Fixed M 2)];
     w_chartDataShear := w_chartDataShear w ++ [mkSample (Fixed x 2) (Fixed V 2)];
     w_chartDataDeflection :=
       w_chartDataDeflection w ++ [mkSample (Fixed x 2) (Fixed y_cm 3)];
     w_maxMomentPos := if gtb M (w_maxMomentPos w) then M else w_maxMomentPos w;
     w_maxMomentNeg := if ltb M (w_maxMomentNeg w) then M else w_maxMomentNeg w;
     w_maxShear := if gtb (Rabs V) (w_maxShear w) then Rabs V else w_maxShear w;
     w_maxDeflection :=
       if gtb (Rabs y_cm) (Rabs (w_maxDeflection w)) then y_cm
       else w_maxDeflection w |}.

(** *** The solver *)

Record SolverResult : Type := mkSolverResult {
  sr_chartDataMoment : list Sample;
  sr_chartDataShear : list Sample;
  sr_chartDataDeflection : list Sample;
  sr_maxMomentPos : R;
  sr_maxMomentNeg : R;
  sr_maxShear : R;
  sr_maxDeflection : R;
  sr_R1 : R;
  sr_R2 : R
}.

Definition stiffnessEI (inp : BeamInput) : R :=
  let Eci := 5600 * sqrt (fck inp) in
  let E := 0.85 * Eci * 1000 in
  let b := width inp / 100 in
  let h := height inp / 100 in
  let I := (b * (h * h * h)) / 12 in
  E * I.

(** The load vector [F] as it stands after step 4. *)
Definition loadVector (inp : BeamInput) : list R :=
  let nodes := buildNodes (span inp) (supports inp) in
  let nDof := (List.length nodes * 2)%nat in
  assembleLoads nodes (distributedLoads inp) (pointLoads inp) (createVector nDof).

Definition solveBeam (inp : BeamInput) : SolverResult :=
  let EI := stiffnessEI inp in
  let nodes := buildNodes (span inp) (supports inp) in
  let nNodes := List.length nodes in
  let nDof := (nNodes * 2)%nat in
  let K := createMatrix nDof nDof in
  let K := assembleStiffness EI nodes K in
  let F := loadVector inp in
  let K := fold_left (applySupport nodes) (supports inp) K in
  let d := solveLinear K F in
  let mf := memberForces EI nodes d (distributedLoads inp) (pointLoads inp) in
  let reactionMap := buildReactionMap nodes mf (pointLoads inp) in
  let nPoints := 200%nat in
  let dx := span inp / INR nPoints in
  let (V, M) :=
    match mapGet reactionMap 0 with
    | Some r => (0 + Ry r, 0 - Mz r)
    | None => (0, 0)
    end in
  let w0 := mkWalk V M [] [] [] 0 0 0 0 in
  let w := fold_left (walkStep inp nodes d reactionMap dx) (seq 0 (S nPoints)) w0 in
  {| sr_chartDataMoment := w_chartDataMoment w;
     sr_chartDataShear := w_chartDataShear w;
     sr_chartDataDeflection := w_chartDataDeflection w;
     sr_maxMomentPos := w_maxMomentPos w;
     sr_maxMomentNeg := w_maxMomentNeg w;
     sr_maxShear := w_maxShear w;
     sr_maxDeflection := w_maxDeflection w;
     sr_R1 := 0;
     sr_R2 := 0 |}.

End BeamSolver.

(** ** The design engine ([calculations.ts]) *)

Module Calculations.

Import BeamSolver.

(** Safety factors NBR 6118. *)
Definition GAMMA_C : R := 1.4.
Definition GAMMA_S : R := 1.15.
Definition GAMMA_F : R := 1.4.

(** Table 17.3 NBR 6118: minimum flexural reinforcement ratio (%). *)
Definition getRhoMin (fck : R) : R :=
  if leb fck 20 then 0.150
  else if leb fck 25 then 0.150
  else if leb fck 30 then 0.150
  else if leb fck 35 then 0.164
  else if leb fck 40 then 0.179
  else if leb fck 45 then 0.194
  else if leb fck 50 then 0.208
  else 0.208.

(** [array.push(x)]. *)
Definition push {A : Type} (l : list A) (x : A) : list A := l ++ [x].

(** The two arrays of [calculateBeam] that [calculateReinforcement] pushes to. *)
Record Log : Type := mkLog {
  lg_memory : list text;
  lg_messages : list text
}.

Inductive Face : Type := bottom | top.

Record FaceResult : Type := mkFaceResult {
  as_req : R;
  as_provided : R;
  count : Z;
  fr_layers : list Z;
  valid : bool
}.

(** *** Quantities of [calculateBeam] shared by its inner helper *)

Definition fcd_kN_cm2 (inp : BeamInput) : R := (fck inp / GAMMA_C) / 10.
Definition fyd_kN_cm2 (inp : BeamInput) : R := (fyk inp / GAMMA_S) / 10.

(** *** [calculateReinforcement]: flexure of one face *)

Definition d_face (inp : BeamInput) (barDia : R) : R :=
  height inp - concreteCover inp - (stirrupDiameter inp / 10) - (barDia / 20).

Definition Kmd (inp : BeamInput) (MomentD_kNm barDia : R) : R :=
  let Md_kNcm := MomentD_kNm * 100 in
  Md_kNcm / (width inp * sq (d_face inp barDia) * fcd_kN_cm2 inp).

Definition KmdLimit : R := 0.45.

Definition beta_x (Kmd : R) : R := 1.25 * (1 - sqrt (1 - 2 * Kmd)).
Definition beta_z (Kmd : R) : R := 1 - 0.4 * beta_x Kmd.

Definition As_calc (inp : BeamInput) (MomentD_kNm barDia : R) : R :=
  let Md_kNcm := MomentD_kNm * 100 in
  Md_kNcm / ((beta_z (Kmd inp MomentD_kNm barDia) * d_face inp barDia)
             * fyd_kN_cm2 inp).

Definition sectionMessage (face : Face) : text :=
  [Lit "Seção insuficiente para Momento ";
   Lit (match face with bottom => "Positivo" | top => "Negativo" end);
   Lit " (Kmd > 0.45)."].

(** Section 3 of the memory up to [As,calc]: the steel area [as], the flag
    [valid] and the two arrays after it. *)
Definition flexure (inp : BeamInput) (log : Log) (MomentD_kNm barDia : R)
           (face : Face) : R * bool * Log :=
  let memory := lg_memory log in
  let messages := lg_messages log in
  let memory := push memory
    [nl; Lit "**3 - DETALHAMENTO DE CÁLCULO E ÁREA DE AÇO (";
     Lit (match face with bottom => "VÃO/POSITIVO" | top => "APOIO/NEGATIVO" end);
     Lit ")**"] in
  let Md_kNcm := MomentD_kNm * 100 in
  let memory := push memory
    [Lit "   Momento de Cálculo (Md): "; Fixed MomentD_kNm 2; Lit " kN.m = ";
     Fixed Md_kNcm 0; Lit " kN.cm"] in
  let d_face := d_face inp barDia in
  let memory := push memory
    [Lit "   Altura útil considerada (d): "; Fixed d_face 2; Lit " cm"] in
  let Kmd := Kmd inp MomentD_kNm barDia in
  let memory := push memory [Lit "   Cálculo de Kc (via Kmd adimensional):"] in
  let memory := push memory [Lit "     Kmd = Md / (bw * d² * fcd)"] in
  let memory := push memory
    [Lit "     Kmd = "; Fixed Md_kNcm 0; Lit " / ("; Num (width inp); Lit " * ";
     Fixed d_face 2; Lit "² * "; Fixed (fcd_kN_cm2 inp) 4; Lit ")"] in
  let memory := push memory [Lit "     Kmd = "; Fixed Kmd 4] in
  let as_ := 0 in
  let valid := true in
  if gtb Kmd KmdLimit then
    let valid := false in
    let messages := push messages (sectionMessage face) in
    let memory := push memory
      [Lit "     ALERTA: Kmd ("; Fixed Kmd 4;
       Lit ") > 0.45. Domínio 4 (Ruptura frágil). Aumente a seção."] in
    (as_, valid, mkLog memory messages)
  else
    let beta_x := beta_x Kmd in
    let memory := push memory [Lit "   Posição da Linha Neutra (βx):"] in
    let memory := push memory [Lit "     βx = 1.25 * (1 - √(1 - 2 * Kmd))"] in
    let memory := push memory
      [Lit "     βx = "; Fixed beta_x 4; Lit "  (x = "; Fixed (beta_x * d_face) 2;
       Lit " cm)"] in
    let beta_z := beta_z Kmd in
    let memory := push memory [Lit "   Braço de Alavanca (βz):"] in
    let memory := push memory [Lit "     βz = 1 - 0.4 * βx"] in
    let memory := push memory
      [Lit "     βz = "; Fixed beta_z 4; Lit "  (z = "; Fixed (beta_z * d_face) 2;
       Lit " cm)"] in
    let As_calc := As_calc inp MomentD_kNm barDia in
    let as_ := As_calc in
    let memory := push memory [Lit "   Cálculo da Área de Aço (As) - (Equivalente Ks):"] in
    let memory := push memory [Lit "     As = Md / (βz * d * fyd)"] in
    let memory := push memory
      [Lit "     As = "; Fixed Md_kNcm 0; Lit " / ("; Fixed beta_z 4; Lit " * ";
       Fixed d_face 2; Lit " * "; Fixed (fyd_kN_cm2 inp) 4; Lit ")"] in
    let memory := push memory [Lit "     As,calc = "; Fixed As_calc 2; Lit " cm²"] in
    (as_, valid, mkLog memory messages).

(** Minimum reinforcement (NBR 6118) and the constructive case. *)
Definition As_min (inp : BeamInput) : R :=
  (getRhoMin (fck inp) / 100) * width inp * height inp.

Definition isConstructive (MomentD_kNm : R) : bool := ltb MomentD_kNm 0.5.

Definition adoptedSteel (inp : BeamInput) (memory : list text)
           (MomentD_kNm as_ : R) : R * list text :=
  let rho_min_percent := getRhoMin (fck inp) in
  let As_min := As_min inp in
  let memory := push memory [Lit "   Verificação de Armadura Mínima:"] in
  let memory := push memory
    [Lit "     ρ_min (Tabela 17.3) = "; Num rho_min_percent; Lit "%"] in
  let memory := push memory
    [Lit "     As,min = "; Num (rho_min_percent / 100); Lit " * "; Num (width inp);
     Lit " * "; Num (height inp); Lit " = "; Fixed As_min 2; Lit " cm²"] in
  let (as_, memory) :=
    if isConstructive MomentD_kNm
    then (0, push memory
               [Lit "   OBS: Momento fletor muito baixo. Adotando armadura construtiva/mínima."])
    else (as_, memory) in
  if ltb as_ As_min
  then (As_min, push memory
          [Lit "   CONCLUSÃO AÇO: As,calc < As,min. Adota-se As = "; Fixed As_min 2;
           Lit " cm²"])
  else (as_, push memory
          [Lit "   CONCLUSÃO AÇO: As,calc ≥ As,min. Adota-se As = "; Fixed as_ 2;
           Lit " cm²"]).

Definition barArea (barDia : R) : R := PI * sq (barDia / 20).

Definition numberOfBars (inp : BeamInput) (MomentD_kNm as_ barDia : R) : Z :=
  let barArea := barArea barDia in
  if isConstructive MomentD_kNm then
    let numberOfBars := 2%Z in
    if gtb (As_min inp) (2 * barArea) then
      let numberOfBars := ceil (As_min inp / barArea) in
      if (numberOfBars <? 2)%Z then 2%Z else numberOfBars
    else numberOfBars
  else
    let numberOfBars := ceil (as_ / barArea) in
    if (numberOfBars <? 2)%Z then 2%Z else numberOfBars.

(** Fit check. *)
Definition maxBarsPerLayer (inp : BeamInput) (barDia : R) : Z :=
  let availableWidth :=
    width inp - (2 * concreteCover inp) - (2 * stirrupDiameter inp / 10) in
  let minSpace := Rmax 2 (Rmax (barDia / 10) (1.2 * 1.9)) in
  floor ((availableWidth + minSpace) / ((barDia / 10) + minSpace)).

Definition fitMessage (inp : BeamInput) (face : Face) : text :=
  [Lit "Erro: Barras na face ";
   Lit (match face with bottom => "inferior" | top => "superior" end);
   Lit " não cabem em "; Num (IZR (layers inp)); Lit " camadas."].

(** The [while (remainingBars > 0)] loop.  [free] is [layers - currentLayer],
    the number of layers still allowed, so that [currentLayer >= layers] is
    [free = 0]; [currentLayer] itself is the length of [layerCounts].  In
    the overflow branch the source adds the rest to the entry at index
    [currentLayer - 1]; with no layer placed yet that index is [-1] and no
    entry of the array changes. *)
Fixpoint placeBars (inp : BeamInput) (face : Face) (perLayer : Z) (free : nat)
         (remainingBars : Z) (layerCounts : list Z) (valid : bool)
         (messages : list text) : list Z * bool * list text :=
  if (0 <? remainingBars)%Z then
    match free with
    | O =>
        let valid := false in
        let messages := push messages (fitMessage inp face) in
        let layerCounts :=
          upd layerCounts (List.length layerCounts - 1)
              (fun c => (c + remainingBars)%Z) in
        (layerCounts, valid, messages)
    | S free' =>
        let count := Z.min remainingBars perLayer in
        placeBars inp face perLayer free' (remainingBars - count)%Z
                  (push layerCounts count) valid messages
    end
  else (layerCounts, valid, messages).

Definition calculateReinforcement (inp : BeamInput) (log : Log)
           (MomentD_kNm barDia : R) (face : Face) : FaceResult * Log :=
  let '(as_, valid, log) := flexure inp log MomentD_kNm barDia face in
  let (as_, memory) := adoptedSteel inp (lg_memory log) MomentD_kNm as_ in
  let barArea := barArea barDia in
  let numberOfBars := numberOfBars inp MomentD_kNm as_ barDia in
  let as_provided := IZR numberOfBars * barArea in
  let memory := push memory
    [Lit "   Detalhamento Escolhido: "; Num (IZR numberOfBars); Lit " barras de ø";
     Num barDia; Lit "mm (As,ef = "; Fixed as_provided 2; Lit " cm²)"] in
  let '(layerCounts, valid, messages) :=
    placeBars inp face (maxBarsPerLayer inp barDia) (Z.to_nat (layers inp))
              numberOfBars [] valid (lg_messages log) in
  ({| as_req := as_;
      as_provided := as_provided;
      count := numberOfBars;
      fr_layers := layerCounts;
      valid := valid |},
   mkLog memory messages).


(** *** [calculateBeam] *)

Definition isCantilever (inp : BeamInput) : bool :=
  (List.length (supports inp) =? 1)%nat
  && match supports inp with
     | s :: _ => isFixed (sup_type s)
     | [] => false
     end.

Definition isStable (inp : BeamInput) : bool :=
  (2 <=? List.length (supports inp))%nat || isCantilever inp.

Definition instabilityMessage : text :=
  [Lit "Erro: Estrutura instável (Hipostática). Adicione pelo menos 2 apoios ou 1 engaste para garantir estabilidade estática."].

Definition unstableResult : CalculationResult :=
  {| isValid := false;
     messages := [instabilityMessage];
     calculationMemory :=
       [[Lit "**Cálculo Interrompido**"]; [Lit "A estrutura configurada é instável."]];
     metrics := [];
     chartDataMoment := Some [];
     chartDataNormal := None;
     chartDataBuckling := None;
     chartDataShear := Some [];
     chartDataDeflection := Some [];
     crossSection := None;
     alternativeReinforcement := Some [] |}.

(** Sections 1 and 2 of the memory. *)
Definition memoryHeader (inp : BeamInput) : list text :=
  let fcd_MPa := fck inp / GAMMA_C in
  let fyd_MPa := fyk inp / GAMMA_S in
  let d_calc := height inp - concreteCover inp - (stirrupDiameter inp / 10)
                - (longitudinalBarDiameter inp / 20) in
  [ [Lit "**1- DIMENSÕES ESCOLHIDAS:**"];
    [Lit "   Largura (bw): "; Fixed (width inp) 1; Lit " cm"];
    [Lit "   Altura (h): "; Fixed (height inp) 1; Lit " cm"];
    [Lit "   Cobrimento (c): "; Fixed (concreteCover inp) 1; Lit " cm"];
    [Lit "   Estribo adotado: ø"; Fixed (stirrupDiameter inp) 1; Lit " mm"];
    [Lit "   Barra longitudinal adotada (estimada): ø";
     Fixed (longitudinalBarDiameter inp) 1; Lit " mm"];
    [Lit "   Altura útil (d): h - c - øest - ølong/2"];
    [Lit "   d = "; Num (height inp); Lit " - "; Num (concreteCover inp); Lit " - ";
     Num (stirrupDiameter inp / 10); Lit " - ";
     Fixed (longitudinalBarDiameter inp / 20) 2; Lit " = "; Fixed d_calc 2; Lit " cm"];
    [nl; Lit "**2 - VALORES ADOTADOS PARA OS COEFICIENTES:**"];
    [Lit "   γc (Coef. Pond. Concreto) = "; Num GAMMA_C;
     Lit " (NBR 6118 Tab. 12.1 - Normal)"];
    [Lit "   γs (Coef. Pond. Aço) = "; Num GAMMA_S;
     Lit " (NBR 6118 Tab. 12.1 - Normal)"];
    [Lit "   γf (Coef. Pond. Ações) = "; Num GAMMA_F; Lit " (Combinação Normal)"];
    [Lit "   αc (Alpha c) = 0.85 (Para fck ≤ 50MPa, Item 17.2.2)"];
    [Lit "   λ (Lambda) = 0.80 (Profundidade do bloco retangular, Item 17.2.2)"];
    [Lit "   fcd (Resist. Cálculo Concreto) = fck / γc"];
    [Lit "   fcd = "; Num (fck inp); Lit " / "; Num GAMMA_C; Lit " = ";
     Fixed fcd_MPa 2; Lit " MPa = "; Fixed (fcd_kN_cm2 inp) 4; Lit " kN/cm²"];
    [Lit "   fyd (Resist. Cálculo Aço) = fyk / γs"];
    [Lit "   fyd = "; Num (fyk inp); Lit " / "; Num GAMMA_S; Lit " = ";
     Fixed fyd_MPa 2; Lit " MPa = "; Fixed (fyd_kN_cm2 inp) 4; Lit " kN/cm²"];
    [Lit "   σsd (Tensão Cálculo Aço) = fyd (Regime elástico linear até escoamento)"] ].

(** Serviceability (ELS) check. *)
Definition limitDivisor (inp : BeamInput) : R :=
  if isCantilever inp then 125 else 250.

Definition allowableDeflection (inp : BeamInput) : R :=
  let spanCm := span inp * 100 in
  spanCm / limitDivisor inp.

Definition deflectionMessage (inp : BeamInput) (absMaxDeflection : R) : text :=
  [Lit "Alerta ELS: Flecha calculada ("; Fixed absMaxDeflection 2;
   Lit "cm) excede o limite L/"; Num (limitDivisor inp); Lit " (";
   Fixed (allowableDeflection inp) 2; Lit "cm)."].

(** Minimum stirrup ratio (NBR 6118 17.4.1.1) and the ratio provided. *)
Definition fctm (inp : BeamInput) : R := 0.3 * Rpower (fck inp) (2 / 3).

Definition rho_sw_min (inp : BeamInput) : R :=
  let fywk := 500 in
  0.2 * (fctm inp / fywk).

Definition Asw_total (inp : BeamInput) : R :=
  let Asw_leg := PI * sq (stirrupDiameter inp / 20) in
  2 * Asw_leg.

Definition rho_sw_provided (inp : BeamInput) : R :=
  let s_cm := stirrupSpacing inp in
  let bw_cm := width inp in
  Asw_total inp / (s_cm * bw_cm).

Definition stirrupMessage : text :=
  [Lit "Erro: Taxa de estribos insuficiente. Aumente o diâmetro ou reduza o espaçamento."].

(** Alternatives: one candidate per commercial diameter. *)
Definition alternativeFor (inp : BeamInput) (M_critical : R)
           (alternatives : list ReinforcementOption) (dia : R)
  : list ReinforcementOption :=
  if ltb dia 6.3 then alternatives else
  let h := height inp / 100 in
  let fyd := (fyk inp * 1000) / GAMMA_S in
  let availableWidth :=
    width inp - (2 * concreteCover inp) - (2 * stirrupDiameter inp / 10) in
  let minSpace := Rmax 2 (Rmax (dia / 10) (1.2 * 1.9)) in
  let maxBarsPerLayer := floor ((availableWidth + minSpace) / ((dia / 10) + minSpace)) in
  let d_est := h - 0.05 in
  let z_est := 0.9 * d_est in
  let As_est := M_critical / (z_est * fyd) * 10000 in
  let rho_min_percent := getRhoMin (fck inp) in
  let As_min_alt := (rho_min_percent / 100) * width inp * height inp in
  let As_target := Rmax As_est As_min_alt in
  let areaOne := PI * sq (dia / 20) in
  let count := ceil (As_target / areaOne) in
  let count := if (count <? 2)%Z then 2%Z else count in
  let totalArea := IZR count * areaOne in
  let (layersAlt, validAlt) :=
    if (count <=? maxBarsPerLayer)%Z then (1%Z, true)
    else if (count <=? maxBarsPerLayer * 2)%Z then (2%Z, true)
    else if (count <=? maxBarsPerLayer * 3)%Z then (3%Z, true)
    else (1%Z, false) in
  if validAlt && (count <=? 16)%Z
  then push alternatives
         {| ro_diameter := dia; ro_count := count; ro_area := totalArea;
            ro_layers := layersAlt; ro_valid := true |}
  else alternatives.

(** Design moments of the two faces, and the bar diameter of the top face
    ([topBarDiameter || longitudinalBarDiameter]). *)
Definition M_d_pos (solverResult : SolverResult) : R :=
  Rmax 0 (sr_maxMomentPos solverResult) * GAMMA_F.

Definition M_d_neg (solverResult : SolverResult) : R :=
  Rabs (Rmin 0 (sr_maxMomentNeg solverResult)) * GAMMA_F.

Definition topBarDia (inp : BeamInput) : R :=
  if eqb (topBarDiameter inp) 0 then longitudinalBarDiameter inp
  else topBarDiameter inp.

(** Everything [calculateBeam] does once the solver has answered. *)
Definition designBeam (inp : BeamInput) (solverResult : SolverResult)
  : CalculationResult :=
  let maxShear := sr_maxShear solverResult in
  let maxDeflection := sr_maxDeflection solverResult in
  let V_d := maxShear * GAMMA_F in
  let memory := memoryHeader inp in
  let messages := [] in
  let isValid := true in
  (* ELS check *)
  let absMaxDeflection := Rabs maxDeflection in
  let messages :=
    if gtb absMaxDeflection (allowableDeflection inp)
    then push messages (deflectionMessage inp absMaxDeflection)
    else messages in
  let log := mkLog memory messages in
  (* bottom face, positive moment *)
  let M_d_pos := M_d_pos solverResult in
  let (bottomResult, log) :=
    calculateReinforcement inp log M_d_pos (longitudinalBarDiameter inp) bottom in
  (* top face, negative moment *)
  let M_d_neg := M_d_neg solverResult in
  let topBarDia := topBarDia inp in
  let (topResult, log) := calculateReinforcement inp log M_d_neg topBarDia top in
  let memory := lg_memory log in
  let messages := lg_messages log in
  let isValid :=
    if negb (valid bottomResult) || negb (valid topResult) then false else isValid in
  let memory := push memory
    [nl; Lit "**4 - CÁLCULO DETALHADO RESTANTE (CISALHAMENTO E ELS)**"] in
  let memory := push memory [Lit "   Verificação ao Cisalhamento:"] in
  let memory := push memory
    [Lit "     Cortante de Cálculo (Vd) = Vk * γf = "; Fixed maxShear 2; Lit " * ";
     Num GAMMA_F; Lit " = "; Fixed V_d 2; Lit " kN"] in
  let memory := push memory [Lit "   Armadura Transversal Mínima:"] in
  let memory := push memory
    [Lit "     fctm = 0.3 * "; Num (fck inp); Lit "^(2/3) = "; Fixed (fctm inp) 2;
     Lit " MPa"] in
  let memory := push memory
    [Lit "     ρ_sw,min = 0.2 * (fctm / fywk) = "; Fixed (rho_sw_min inp * 100) 3;
     Lit "%"] in
  let memory := push memory [Lit "   Armadura Transversal Fornecida:"] in
  let memory := push memory
    [Lit "     Estribos: ø"; Num (stirrupDiameter inp); Lit "mm (2 ramos) c/";
     Num (stirrupSpacing inp); Lit "cm"] in
  let memory := push memory
    [Lit "     Asw = 2 * 3.14 * ("; Fixed (stirrupDiameter inp / 20) 2; Lit ")² = ";
     Fixed (Asw_total inp) 3; Lit " cm²"] in
  let memory := push memory
    [Lit "     ρ_sw,prov = Asw / (s * bw) = "; Fixed (Asw_total inp) 3; Lit " / (";
     Num (stirrupSpacing inp); Lit " * "; Num (width inp); Lit ") = ";
     Fixed (rho_sw_provided inp * 100) 3; Lit "%"] in
  let '(isValid, messages, memory) :=
    if ltb (rho_sw_provided inp) (rho_sw_min inp)
    then (false, push messages stirrupMessage,
          push memory [Lit "     STATUS CISALHAMENTO: REPROVADO (ρ_sw,prov < ρ_sw,min)."])
    else (isValid, messages,
          push memory [Lit "     STATUS CISALHAMENTO: OK (Atende armadura mínima)."]) in
  let memory := push memory [Lit "   Verificação de Flecha (ELS):"] in
  let memory := push memory
    [Lit "     Flecha Elástica Imediata: "; Fixed absMaxDeflection 3; Lit " cm"] in
  let memory := push memory
    [Lit "     Limite Adotado (L/"; Num (limitDivisor inp); Lit "): ";
     Fixed (allowableDeflection inp) 2; Lit " cm"] in
  let memory :=
    if gtb absMaxDeflection (allowableDeflection inp)
    then push memory [Lit "     STATUS ELS: NÃO CONFORME. Flecha excessiva."]
    else push memory [Lit "     STATUS ELS: OK."] in
  let M_critical := Rmax M_d_pos M_d_neg in
  let alternatives := fold_left (alternativeFor inp M_critical) BAR_DIAMETERS [] in
  {| isValid := isValid;
     messages := messages;
     calculationMemory := memory;
     metrics :=
       [ mkMetric "Momento Pos. (Md+)" (Fixed M_d_pos 2) "kN.m" (Some [Lit "Inferior"]);
         mkMetric "Momento Neg. (Md-)" (Fixed M_d_neg 2) "kN.m" (Some [Lit "Superior"]);
         mkMetric "Cortante (Vd)" (Fixed V_d 2) "kN" None;
         mkMetric "Flecha (ELS)" (Fixed (Rabs maxDeflection) 2) "cm"
           (Some [Lit "Limite L/"; Num (limitDivisor inp); Lit ": ";
                  Fixed (allowableDeflection inp) 2; Lit "cm"]);
         mkMetric "As Inf. Efetivo" (Fixed (as_provided bottomResult) 2) "cm²"
           (Some [Num (IZR (count bottomResult)); Lit " ø";
                  Num (longitudinalBarDiameter inp); Lit "mm"]);
         mkMetric "As Sup. Efetivo" (Fixed (as_provided topResult) 2) "cm²"
           (Some [Num (IZR (count topResult)); Lit " ø"; Num topBarDia; Lit "mm"]) ];
     chartDataMoment := Some (sr_chartDataMoment solverResult);
     chartDataNormal := None;
     chartDataBuckling := None;
     chartDataShear := Some (sr_chartDataShear solverResult);
     chartDataDeflection := Some (sr_chartDataDeflection solverResult);
     crossSection :=
       Some {| cs_width := width inp;
               cs_height := height inp;
               cs_cover := concreteCover inp;
               cs_stirrupDiameter := stirrupDiameter inp;
               cs_stirrupSpacing := stirrupSpacing inp;
               cs_stirrupHookAngle := stirrupHookAngle inp;
               cs_bottomBarDiameter := longitudinalBarDiameter inp;
               cs_topBarDiameter := topBarDia;
               cs_bottomLayers := map IZR (fr_layers bottomResult);
               cs_topLayers := map IZR (fr_layers topResult);
               cs_leftLayers := None;
               cs_rightLayers := None;
               cs_stirrupLegs := 2 |};
     alternativeReinforcement := Some alternatives |}.

Definition calculateBeam (inp : BeamInput) : CalculationResult :=
  if negb (isStable inp) then unstableResult
  else designBeam inp (solveBeam inp).


(** *** [calculateColumn] *)

Definition Nd (inp : ColumnInput) : R := c_axialLoad inp * GAMMA_F.
Definition c_fcd (inp : ColumnInput) : R := (c_fck inp * 1000) / GAMMA_C.
Definition c_fyd (inp : ColumnInput) : R := (c_fyk inp * 1000) / GAMMA_S.
Definition hx (inp : ColumnInput) : R := c_widthX inp / 100.
Definition hy (inp : ColumnInput) : R := c_widthY inp / 100.
Definition Ac (inp : ColumnInput) : R := hx inp * hy inp.

(** Effective-length factor of the end-restraint case. *)
Definition kFactor (supportCondition : SupportCondition) : R :=
  match supportCondition with
  | PINNED_PINNED => 1.0
  | FIXED_FREE => 2.0
  | FIXED_PINNED => 0.7
  | FIXED_FIXED => 0.5
  end.

Definition le (inp : ColumnInput) : R :=
  kFactor (c_supportCondition inp) * c_height inp.

Definition lambdaX (inp : ColumnInput) : R := (le inp * 3.46) / hx inp.
Definition lambdaY (inp : ColumnInput) : R := (le inp * 3.46) / hy inp.
Definition maxLambda (inp : ColumnInput) : R := Rmax (lambdaX inp) (lambdaY inp).

Definition columnHeader (inp : ColumnInput) : list text :=
  [ [Lit "**1. Dados de Entrada e Materiais**"];
    [Lit "   Carga Axial (Nk): "; Num (c_axialLoad inp); Lit " kN"];
    [Lit "   Carga de Cálculo (Nd): "; Fixed (Nd inp) 2; Lit " kN"];
    [Lit "   Seção: "; Num (c_widthX inp); Lit "x"; Num (c_widthY inp); Lit " cm"];
    [Lit "   Concreto C"; Num (c_fck inp); Lit ", Aço "; Lit (steelName (c_steelType inp))];
    [Lit "   Altura Pilar: "; Num (c_height inp); Lit "m, Vinculação: ";
     Lit (conditionName (c_supportCondition inp)); Lit " (k=";
     Num (kFactor (c_supportCondition inp)); Lit ")"];
    [nl; Lit "**2. Esbeltez**"];
    [Lit "   Comprimento de Flambagem (le): "; Fixed (le inp) 2; Lit " m"];
    [Lit "   λx = "; Fixed (lambdaX inp) 2];
    [Lit "   λy = "; Fixed (lambdaY inp) 2] ].

Definition slendernessMessage (inp : ColumnInput) : text :=
  [Lit "Esbeltez excessiva (λ="; Fixed (maxLambda inp) 1;
   Lit " > 140). Aumente a seção."].

Definition slenderResult (inp : ColumnInput) : CalculationResult :=
  {| isValid := false;
     messages := [slendernessMessage inp];
     calculationMemory := columnHeader inp;
     metrics := [];
     chartDataMoment := None;
     chartDataNormal := None;
     chartDataBuckling := None;
     chartDataShear := None;
     chartDataDeflection := None;
     crossSection := None;
     alternativeReinforcement := Some [] |}.

(** Minimum first-order moments. *)
Definition e_min_x (inp : ColumnInput) : R := 0.015 + 0.03 * hx inp.
Definition e_min_y (inp : ColumnInput) : R := 0.015 + 0.03 * hy inp.
Definition M1d_min_x (inp : ColumnInput) : R := Nd inp * e_min_x inp.
Definition M1d_min_y (inp : ColumnInput) : R := Nd inp * e_min_y inp.

(** Second-order effects (simplified local method). *)
Definition lambda_1 : R := 35.

Record SecondOrder : Type := mkSecondOrder { Mtot : R; e2 : R }.

Definition calcSecondOrder (inp : ColumnInput) (lambda h_side M1d : R)
  : SecondOrder :=
  if leb lambda lambda_1 then mkSecondOrder M1d 0 else
  let nu := Nd inp / (Ac inp * c_fcd inp) in
  let curvature := 0.005 / (h_side * (nu + 0.5)) in
  let curvature :=
    if ltb curvature (0.005 / h_side) then 0.005 / h_side else curvature in
  let e2 := (le inp * le inp / 10) * curvature in
  mkSecondOrder (M1d + Nd inp * e2) e2.

Definition secondOrderX (inp : ColumnInput) : SecondOrder :=
  if gtb (lambdaX inp) lambda_1
  then calcSecondOrder inp (lambdaX inp) (hx inp) (M1d_min_x inp)
  else mkSecondOrder (M1d_min_x inp) 0.

Definition secondOrderY (inp : ColumnInput) : SecondOrder :=
  if gtb (lambdaY inp) lambda_1
  then calcSecondOrder inp (lambdaY inp) (hy inp) (M1d_min_y inp)
  else mkSecondOrder (M1d_min_y inp) 0.

Definition M_tot_x (inp : ColumnInput) : R := Mtot (secondOrderX inp).
Definition M_tot_y (inp : ColumnInput) : R := Mtot (secondOrderY inp).

(** Dimensioning. *)
Definition nu (inp : ColumnInput) : R := Nd inp / (Ac inp * c_fcd inp).

Definition mu_x (inp : ColumnInput) : R :=
  M_tot_x inp / (hy inp * hx inp * hx inp * c_fcd inp).

Definition mu_y (inp : ColumnInput) : R :=
  M_tot_y inp / (hx inp * hy inp * hy inp * c_fcd inp).

Definition getOmega (nu mu : R) : R :=
  if gtb nu 1.0 then 999 else
  let w := (nu - 0.6) + 3.0 * mu in
  if ltb w 0 then 0 else w.

Definition c_As_calc (inp : ColumnInput) : R :=
  let omega_x := getOmega (nu inp) (mu_x inp) in
  let omega_y := getOmega (nu inp) (mu_y inp) in
  let omega_req := Rmax omega_x omega_y in
  (omega_req * Ac inp * c_fcd inp) / c_fyd inp * 10000.

Definition c_As_min (inp : ColumnInput) : R :=
  let fyd_kN_cm2 := (c_fyk inp / 1.15) / 10 in
  let As_min_load := 0.15 * Nd inp / fyd_kN_cm2 in
  let As_min_geo := 0.004 * Ac inp * 10000 in
  Rmax As_min_load As_min_geo.

Definition As_final (inp : ColumnInput) : R := Rmax (c_As_calc inp) (c_As_min inp).
Definition As_max (inp : ColumnInput) : R := 0.04 * Ac inp * 10000.

Definition crushingMessage : text :=
  [Lit "Seção de concreto insuficiente (Esmagamento). Aumente as dimensões ou fck."].

Definition overReinforcedMessage (inp : ColumnInput) : text :=
  [Lit "Armadura necessária ("; Fixed (As_final inp) 2;
   Lit "cm²) excede o limite máximo de 4% da seção ("; Fixed (As_max inp) 2;
   Lit "cm²)."].

(** Detailing: four corner bars, the rest along the perimeter. *)
Record BarLayout : Type := mkBarLayout {
  numBars : Z;
  sideBarsVert : R;
  sideBarsHoriz : R
}.

Definition c_barArea (inp : ColumnInput) : R :=
  PI * sq (c_longitudinalBarDiameter inp / 20).

Definition barLayout (inp : ColumnInput) : BarLayout :=
  let numBars := ceil (As_final inp / c_barArea inp) in
  let numBars := if (numBars <? 4)%Z then 4%Z else numBars in
  let remBars := (numBars - 4)%Z in
  if (0 <? remBars)%Z then
    let perimeterRatio := c_widthY inp / (c_widthX inp + c_widthY inp) in
    let nVertTotal := round (IZR remBars * perimeterRatio) in
    let nVertTotal := if Z.odd nVertTotal then (nVertTotal - 1)%Z else nVertTotal in
    let nVertTotal := if (nVertTotal <? 0)%Z then 0%Z else nVertTotal in
    let nHorizTotal := (remBars - nVertTotal)%Z in
    let (nHorizTotal, numBars) :=
      if Z.odd nHorizTotal then ((nHorizTotal + 1)%Z, (numBars + 1)%Z)
      else (nHorizTotal, numBars) in
    mkBarLayout numBars (IZR nVertTotal / 2) (IZR nHorizTotal / 2)
  else mkBarLayout numBars 0 0.

(** Stirrup rules. *)
Definition minStirrupDiaRule (inp : ColumnInput) : R :=
  Rmax 5.0 (c_longitudinalBarDiameter inp / 4).

Definition maxSpacingRule (inp : ColumnInput) : R :=
  let minDim := Rmin (c_widthX inp) (c_widthY inp) in
  Rmin 20 (Rmin minDim (12 * (c_longitudinalBarDiameter inp / 10))).

Definition stirrupDiaWarning (inp : ColumnInput) : text :=
  [Lit "Aviso: Diâmetro estribo (ø"; Num (c_stirrupDiameter inp);
   Lit ") menor que o mínimo (ø"; Num (c_longitudinalBarDiameter inp); Lit "/4 = ";
   Fixed (minStirrupDiaRule inp) 1; Lit ")."].

Definition stirrupSpacingWarning (inp : ColumnInput) : text :=
  [Lit "Aviso: Espaçamento (c/"; Num (c_stirrupSpacing inp);
   Lit ") excede o máximo ("; Fixed (maxSpacingRule inp) 1; Lit "cm)."].

(** The two stirrup checks: [stirrupStatus] ([None] while it is still the
    string ["OK"]) and the messages after them. *)
Definition stirrupChecks (inp : ColumnInput) (messages : list text)
  : option text * list text :=
  let stirrupStatus := None in
  let (stirrupStatus, messages) :=
    if ltb (c_stirrupDiameter inp) (minStirrupDiaRule inp)
    then (Some (stirrupDiaWarning inp), push messages (stirrupDiaWarning inp))
    else (stirrupStatus, messages) in
  if gtb (c_stirrupSpacing inp) (maxSpacingRule inp)
  then (Some (stirrupSpacingWarning inp), push messages (stirrupSpacingWarning inp))
  else (stirrupStatus, messages).

(** Validity and messages of the section checks (crushing, 4% limit). *)
Definition sectionChecks (inp : ColumnInput) : bool * list text :=
  let isValid := true in
  let messages := [] in
  let (isValid, messages) :=
    if gtb (nu inp) 1.0 then (false, push messages crushingMessage)
    else (isValid, messages) in
  if gtb (As_final inp) (As_max inp)
  then (false, push messages (overReinforcedMessage inp))
  else (isValid, messages).

Definition shapeFactor (supportCondition : SupportCondition) (xi : R) : R :=
  match supportCondition with
  | PINNED_PINNED => sin (PI * xi)
  | FIXED_FREE => 1 - cos (PI * xi / 2)
  | FIXED_FIXED => 0.5 * (1 - cos (2 * PI * xi))
  | FIXED_PINNED => (xi * xi) * (1 - xi) * 2.5
  end.

Definition chartDataBucklingOf (inp : ColumnInput) (e_tot : R) : list Sample :=
  let nPoints := 20%nat in
  map
    (fun i =>
       let x := (INR i / INR nPoints) * c_height inp in
       let xi := x / c_height inp in
       let shapeFactor := shapeFactor (c_supportCondition inp) xi in
       mkSample (Num x) (Fixed (e_tot * shapeFactor * 100) 3))
    (seq 0 (S nPoints)).

Definition calculateColumn (inp : ColumnInput) : CalculationResult :=
  let memory := columnHeader inp in
  if gtb (maxLambda inp) 140 then slenderResult inp else
  let memory := push memory [nl; Lit "**3. Momentos Mínimos (1ª Ordem)**"] in
  let memory := push memory
    [Lit "   e_min,x = "; Fixed (e_min_x inp * 100) 2; Lit " cm => M1d,min,x = ";
     Fixed (M1d_min_x inp) 2; Lit " kN.m"] in
  let memory := push memory
    [Lit "   e_min,y = "; Fixed (e_min_y inp * 100) 2; Lit " cm => M1d,min,y = ";
     Fixed (M1d_min_y inp) 2; Lit " kN.m"] in
  let M_tot_x := M_tot_x inp in
  let M_tot_y := M_tot_y inp in
  let memory :=
    if gtb (lambdaX inp) lambda_1
    then push memory
           [Lit "   λx > "; Num lambda_1;
            Lit ": Considerado efeitos de 2ª ordem -> M_tot,x = "; Fixed M_tot_x 2;
            Lit " kN.m"]
    else memory in
  let memory :=
    if gtb (lambdaY inp) lambda_1
    then push memory
           [Lit "   λy > "; Num lambda_1;
            Lit ": Considerado efeitos de 2ª ordem -> M_tot,y = "; Fixed M_tot_y 2;
            Lit " kN.m"]
    else memory in
  let memory := push memory [nl; Lit "**4. Dimensionamento da Armadura**"] in
  let memory := push memory [Lit "   Força Normal Reduzida (ν): "; Fixed (nu inp) 3] in
  let memory := push memory [Lit "   Momento Reduzido X (μx): "; Fixed (mu_x inp) 3] in
  let memory := push memory [Lit "   Momento Reduzido Y (μy): "; Fixed (mu_y inp) 3] in
  let memory := push memory
    [Lit "   As,calc (estimado): "; Fixed (c_As_calc inp) 2; Lit " cm²"] in
  let memory := push memory [Lit "   As,min: "; Fixed (c_As_min inp) 2; Lit " cm²"] in
  let (isValid, messages) := sectionChecks inp in
  let layout := barLayout inp in
  let numBars := numBars layout in
  let sideBarsVert := sideBarsVert layout in
  let sideBarsHoriz := sideBarsHoriz layout in
  let As_provided := IZR numBars * c_barArea inp in
  let memory := push memory [nl; Lit "**5. Detalhamento**"] in
  let memory := push memory
    [Lit "   Adotado: "; Num (IZR numBars); Lit " barras de ø";
     Num (c_longitudinalBarDiameter inp); Lit "mm"] in
  let memory := push memory
    [Lit "   Distribuição: 4 cantos + "; Num (sideBarsHoriz * 2); Lit " nas faces X + ";
     Num (sideBarsVert * 2); Lit " nas faces Y"] in
  let memory := push memory [Lit "   As,efetivo: "; Fixed As_provided 2; Lit " cm²"] in
  let cover := 3.0 in
  let (stirrupStatus, messages) := stirrupChecks inp messages in
  let memory := push memory
    ([Lit "   Estribos: ø"; Num (c_stirrupDiameter inp); Lit " c/";
      Num (c_stirrupSpacing inp); Lit " - "]
     ++ match stirrupStatus with
        | None => [Lit "Verificado OK"]
        | Some status => status
        end) in
  let topRowBars := 2 + sideBarsHoriz in
  let bottomRowBars := 2 + sideBarsHoriz in
  let leftColBars := sideBarsVert in
  let rightColBars := sideBarsVert in
  let chartDataNormal :=
    [ mkSample (Num 0) (Fixed (Nd inp) 2);
      mkSample (Num (c_height inp)) (Fixed (Nd inp) 2) ] in
  let chartDataMoment :=
    [ mkSample (Num 0) (Fixed (Rmax M_tot_x M_tot_y) 2);
      mkSample (Num (c_height inp / 2)) (Fixed (Rmax M_tot_x M_tot_y * 0.6) 2);
      mkSample (Num (c_height inp)) (Fixed (Rmax M_tot_x M_tot_y) 2) ] in
  let M_design := Rmax M_tot_x M_tot_y in
  let e_tot := M_design / Nd inp in
  {| isValid := isValid;
     messages := messages;
     calculationMemory := memory;
     metrics :=
       [ mkMetric "Carga de Cálculo (Nd)" (Fixed (Nd inp) 2) "kN" None;
         mkMetric "Momento Total X" (Fixed M_tot_x 2) "kN.m" None;
         mkMetric "Momento Total Y" (Fixed M_tot_y 2) "kN.m" None;
         mkMetric "As Longitudinal" (Fixed As_provided 2) "cm²"
           (Some [Num (IZR numBars); Lit " ø"; Num (c_longitudinalBarDiameter inp);
                  Lit "mm"]);
         mkMetric "Taxa de Armadura"
           (Fixed ((As_provided / (Ac inp * 10000)) * 100) 2) "%" None ];
     chartDataMoment := Some chartDataMoment;
     chartDataNormal := Some chartDataNormal;
     chartDataBuckling := Some (chartDataBucklingOf inp e_tot);
     chartDataShear := None;
     chartDataDeflection := None;
     crossSection :=
       Some {| cs_width := c_widthX inp;
               cs_height := c_widthY inp;
               cs_cover := cover;
               cs_stirrupDiameter := c_stirrupDiameter inp;
               cs_stirrupSpacing := c_stirrupSpacing inp;
               cs_stirrupHookAngle := Hook90;
               cs_bottomBarDiameter := c_longitudinalBarDiameter inp;
               cs_topBarDiameter := c_longitudinalBarDiameter inp;
               cs_bottomLayers := [bottomRowBars];
               cs_topLayers := [topRowBars];
               cs_leftLayers := Some [leftColBars];
               cs_rightLayers := Some [rightColBars];
               cs_stirrupLegs := 2 |};
     alternativeReinforcement := None |}.

End Calculations.

(** ** The beam editor: positions on the drawing *)

Module BeamEditor.

(** Scale logic of the editor. *)
Definition paddingX : R := 40.
Definition width : R := 600.

Definition pxPerMeter (span : R) : R := (width - 2 * paddingX) / span.

Definition meterToPx (span m : R) : R := paddingX + m * pxPerMeter span.

Definition pxToMeter (span px : R) : R :=
  Rmax 0 (Rmin span ((px - paddingX) / pxPerMeter span)).

(** [Math.round(pos * 10) / 10]: positions snap to the decimetre. *)
Definition snap (pos : R) : R := IZR (round (pos * 10)) / 10.

(** The position a dragged element is given, from the mouse abscissa. *)
Definition snappedPos (span mouseX dragOffset : R) : R :=
  let newPosRaw := pxToMeter span (mouseX - dragOffset) in
  snap newPosRaw.

(** Dragging a distributed load: its start is dragged, its length kept. *)
Definition dragDistributed (span : R) (target : DistributedLoad) (snappedPos : R)
  : R * R :=
  let len := dl_end target - dl_start target in
  let newStart := snappedPos in
  let newEnd := newStart + len in
  let (newStart, newEnd) :=
    if gtb newEnd span then (span - len, span) else (newStart, newEnd) in
  let newStart := if ltb newStart 0 then 0 else newStart in
  (newStart, newEnd).

End BeamEditor.

(** ** Sample inputs, and notions used to state the properties *)

Module Samples.

Import BeamSolver Calculations.

(** A 20 cm x 40 cm column, 3 m high, pinned at both ends. *)
Definition column20x40 : ColumnInput :=
  {| c_height := 3;
     c_axialLoad := 500;
     c_widthX := 20;
     c_widthY := 40;
     c_fck := 25;
     c_steelType := CA50;
     c_fyk := 500;
     c_supportCondition := PINNED_PINNED;
     c_longitudinalBarDiameter := 10;
     c_stirrupDiameter := 5;
     c_stirrupSpacing := 10 |}.

(** The same section, 1 m high and fixed at both ends. *)
Definition stockyColumn : ColumnInput :=
  {| c_height := 1;
     c_axialLoad := 500;
     c_widthX := 20;
     c_widthY := 40;
     c_fck := 25;
     c_steelType := CA50;
     c_fyk := 500;
     c_supportCondition := FIXED_FIXED;
     c_longitudinalBarDiameter := 10;
     c_stirrupDiameter := 5;
     c_stirrupSpacing := 10 |}.

(** A 10 cm x 10 cm cantilever column 5 m high, with stirrups too thin
    (4 mm) and too far apart (30 cm). *)
Definition slenderColumn : ColumnInput :=
  {| c_height := 5;
     c_axialLoad := 100;
     c_widthX := 10;
     c_widthY := 10;
     c_fck := 25;
     c_steelType := CA50;
     c_fyk := 500;
     c_supportCondition := FIXED_FREE;
     c_longitudinalBarDiameter := 10;
     c_stirrupDiameter := 4;
     c_stirrupSpacing := 30 |}.

(** The default beam of the application: 5 m, 20 cm x 40 cm, C25, CA-50. *)
Definition beamWith (sup : list Support) (pls : list PointLoad) : BeamInput :=
  {| span := 5;
     supports := sup;
     pointLoads := pls;
     distributedLoads := [];
     width := 20;
     height := 40;
     fck := 25;
     steelType := CA50;
     fyk := 500;
     concreteCover := 2.5;
     longitudinalBarDiameter := 10;
     topBarDiameter := 8;
     stirrupDiameter := 5;
     stirrupSpacing := 15;
     stirrupHookAngle := Hook90;
     layers := 1 |}.

Definition simplySupported : BeamInput :=
  beamWith [mkSupport "s1" 0 pin; mkSupport "s2" 5 pin] [].

Definition cantilever : BeamInput := beamWith [mkSupport "s1" 0 fixed] [].

Definition onePin : BeamInput := beamWith [mkSupport "s1" 0 pin] [].

(** A point load of 10 kN standing exactly on the right-hand end node. *)
Definition loadOnNode : BeamInput :=
  beamWith [mkSupport "s1" 0 pin; mkSupport "s2" 5 pin] [mkPointLoad "p1" 5 10].

(** An input with some of its fields replaced. *)
Definition withAxialLoad (inp : ColumnInput) (axialLoad : R) : ColumnInput :=
  {| c_height := c_height inp;
     c_axialLoad := axialLoad;
     c_widthX := c_widthX inp;
     c_widthY := c_widthY inp;
     c_fck := c_fck inp;
     c_steelType := c_steelType inp;
     c_fyk := c_fyk inp;
     c_supportCondition := c_supportCondition inp;
     c_longitudinalBarDiameter := c_longitudinalBarDiameter inp;
     c_stirrupDiameter := c_stirrupDiameter inp;
     c_stirrupSpacing := c_stirrupSpacing inp |}.

Definition withStirrups (inp : ColumnInput) (diameter spacing : R) : ColumnInput :=
  {| c_height := c_height inp;
     c_axialLoad := c_axialLoad inp;
     c_widthX := c_widthX inp;
     c_widthY := c_widthY inp;
     c_fck := c_fck inp;
     c_steelType := c_steelType inp;
     c_fyk := c_fyk inp;
     c_supportCondition := c_supportCondition inp;
     c_longitudinalBarDiameter := c_longitudinalBarDiameter inp;
     c_stirrupDiameter := diameter;
     c_stirrupSpacing := spacing |}.

(** The 1 m column with the stirrups of [slenderColumn]. *)
Definition looseStirrupColumn : ColumnInput := withStirrups stockyColumn 4 30.

Definition withDeflection (sr : SolverResult) (maxDeflection : R) : SolverResult :=
  {| sr_chartDataMoment := sr_chartDataMoment sr;
     sr_chartDataShear := sr_chartDataShear sr;
     sr_chartDataDeflection := sr_chartDataDeflection sr;
     sr_maxMomentPos := sr_maxMomentPos sr;
     sr_maxMomentNeg := sr_maxMomentNeg sr;
     sr_maxShear := sr_maxShear sr;
     sr_maxDeflection := maxDeflection;
     sr_R1 := sr_R1 sr;
     sr_R2 := sr_R2 sr |}.

(** The steel area a face adopts from the area [a] its flexure block leaves:
    nothing of [a] below a design moment of 0.5 kN.m, and never less than
    the minimum. *)
Definition adopted (inp : BeamInput) (M a : R) : R :=
  let a := if isConstructive M then 0 else a in
  if ltb a (As_min inp) then As_min inp else a.

(** The result of one face; what was logged before does not bear on it. *)
Definition faceResult (inp : BeamInput) (M barDia : R) (face : Face) : FaceResult :=
  fst (calculateReinforcement inp (mkLog [] []) M barDia face).

(** The messages of [designBeam] before the two faces are designed. *)
Definition firstMessages (inp : BeamInput) (sr : SolverResult) : list text :=
  if gtb (Rabs (sr_maxDeflection sr)) (allowableDeflection inp)
  then push [] (deflectionMessage inp (Rabs (sr_maxDeflection sr)))
  else [].

(** What a solver could answer: only the peaks matter to the design. *)
Definition peaks (maxMomentPos maxMomentNeg maxShear maxDeflection : R)
  : SolverResult :=
  mkSolverResult [] [] [] maxMomentPos maxMomentNeg maxShear maxDeflection 0 0.



(** What every alternative offered for a beam satisfies, [ds] being the
    diameters it is drawn from. *)
Definition soundAlternative (inp : BeamInput) (ds : list R) (a : ReinforcementOption)
  : Prop :=
  In (ro_diameter a) ds
  /\ 6.3 <= ro_diameter a
  /\ (2 <= ro_count a <= 16)%Z
  /\ (1 <= ro_layers a <= 3)%Z
  /\ (ro_count a <= maxBarsPerLayer inp (ro_diameter a) * ro_layers a)%Z
  /\ ro_area a = IZR (ro_count a) * barArea (ro_diameter a)
  /\ As_min inp <= ro_area a
  /\ ro_valid a = true.

(** The messages that make a column result invalid. *)
Definition columnError (inp : ColumnInput) (m : text) : Prop :=
  m = slendernessMessage inp \/ m = crushingMessage
  \/ m = overReinforcedMessage inp.

(** The messages that make a beam result invalid. *)
Definition beamError (inp : BeamInput) (m : text) : Prop :=
  m = sectionMessage bottom \/ m = sectionMessage top
  \/ m = fitMessage inp bottom \/ m = fitMessage inp top
  \/ m = stirrupMessage.

(** The number of bars in a list of layers. *)
Definition total (l : list Z) : Z := fold_right Z.add 0%Z l.

(** The abscissas of the diagram grid: [i * dx] printed with two digits. *)
Definition gridOf (dx : R) (steps : list nat) : list piece :=
  map (fun i => Fixed (INR i * dx) 2) steps.

(** Sums over a list of indices, the product of a row with a vector, and
    the system left by the elimination pass: the vocabulary for what the
    linear solver returns. *)
Definition sumOver (f : nat -> R) (l : list nat) : R :=
  fold_left (fun sum j => sum + f j) l 0.

Definition rowTimes (n : nat) (M : list (list R)) (i : nat) (v : list R) : R :=
  sumOver (fun j => mget M i j * get v j) (seq 0 n).

Definition isSquare (n : nat) (M : list (list R)) : Prop :=
  List.length M = n /\ forall r, (r < n)%nat -> List.length (nth r M []) = n.

Definition eliminated (A : list (list R)) (b : list R)
  : list (list R) * list R :=
  fold_left (forwardStep (List.length A)) (seq 0 (List.length A)) (A, b).

Definition solves (n : nat) (M : list (list R)) (x v : list R) : Prop :=
  forall k, (k < n)%nat -> rowTimes n M k v = get x k.

(** The stiffness matrix [solveBeam] hands to the linear solver: the
    element matrices assembled, then the penalty of each support. *)
Definition stiffness (inp : BeamInput) : list (list R) :=
  let nodes := buildNodes (span inp) (supports inp) in
  let nDof := (List.length nodes * 2)%nat in
  fold_left (applySupport nodes) (supports inp)
    (assembleStiffness (stiffnessEI inp) nodes (createMatrix nDof nDof)).

Definition symmetric (M : list (list R)) : Prop :=
  forall a b, mget M a b = mget M b a.

(** A run of [K[r][c] += v], and what it adds to the entry [(a, b)]. *)
Definition accumulate (ops : list (nat * nat * R)) (K : list (list R))
  : list (list R) :=
  fold_left (fun K op => madd K (fst (fst op)) (snd (fst op)) (snd op)) ops K.

Definition added (ops : list (nat * nat * R)) (a b : nat) : R :=
  fold_right
    (fun op acc =>
       (if (fst (fst op) =? a)%nat && (snd (fst op) =? b)%nat
        then snd op else 0) + acc)
    0 ops.

(** Two small systems: one regular, one whose rows are proportional. *)
Definition twoByTwo : list (list R) := [[1; 2]; [3; 4]].
Definition rhs : list R := [5; 6].
Definition singular : list (list R) := [[1; 2]; [2; 4]].

(** Where index [k] is read from once entries [i] and [j] are exchanged. *)
Definition exchange (i j k : nat) : nat :=
  if Nat.eq_dec k j then i else if Nat.eq_dec k i then j else k.

(** Rows [r > c] are zero in every column [c < s]. *)
Definition zeroBelow (n s : nat) (M : list (list R)) : Prop :=
  forall c r, (c < s)%nat -> (c < r < n)%nat -> mget M r c = 0.

End Samples.

(** ** Facts about the JavaScript operations *)

Module JsFacts.

Lemma ltb_true (x y : R) : ltb x y = true <-> x < y.
Proof. unfold ltb. destruct (Rlt_dec x y); split; intros; try easy; lra. Qed.

Lemma ltb_false (x y : R) : ltb x y = false <-> y <= x.
Proof. unfold ltb. destruct (Rlt_dec x y); split; intros; try easy; lra. Qed.

Lemma leb_true (x y : R) : leb x y = true <-> x <= y.
Proof. unfold leb. destruct (Rle_dec x y); split; intros; try easy; lra. Qed.

Lemma leb_false (x y : R) : leb x y = false <-> y < x.
Proof. unfold leb. destruct (Rle_dec x y); split; intros; try easy; lra. Qed.

Lemma gtb_true (x y : R) : gtb x y = true <-> y < x.
Proof. apply ltb_true. Qed.

Lemma gtb_false (x y : R) : gtb x y = false <-> x <= y.
Proof. apply ltb_false. Qed.

Lemma geb_true (x y : R) : geb x y = true <-> y <= x.
Proof. apply leb_true. Qed.

Lemma eqb_true (x y : R) : eqb x y = true <-> x = y.
Proof. unfold eqb. destruct (Req_dec_T x y); split; intros; try easy. Qed.

(** [Math.ceil(x / a) * a] is not below [x] when [a] is positive. *)
Lemma ceil_cover (x a : R) : 0 < a -> x <= IZR (ceil (x / a)) * a.
Proof.
  intros Ha. unfold ceil.
  destruct (Zceil_bound (x / a)) as [_ Hub].
  apply (Rmult_le_compat_r a) in Hub; [| lra].
  replace (x / a * a) with x in Hub by (field; lra).
  exact Hub.
Qed.

Lemma push_In {A : Type} (l : list A) (x : A) : In x (Calculations.push l x).
Proof. unfold Calculations.push. apply in_or_app. right. now left. Qed.

Lemma push_keeps {A : Type} (l : list A) (x y : A) :
  In y l -> In y (Calculations.push l x).
Proof. unfold Calculations.push. intros H. apply in_or_app. now left. Qed.

End JsFacts.

(** Resolve the comparisons of concrete numbers left by unfolding, innermost
    first: a comparison is settled once [lra] can tell which way it goes. *)
Ltac settle_lt a b :=
  let H := fresh in
  first
    [ assert (H : a < b) by lra;
      destruct (Rlt_dec a b); [clear H | contradiction]
    | assert (H : ~ a < b) by lra;
      destruct (Rlt_dec a b); [contradiction | clear H] ].

Ltac settle_le a b :=
  let H := fresh in
  first
    [ assert (H : a <= b) by lra;
      destruct (Rle_dec a b); [clear H | contradiction]
    | assert (H : ~ a <= b) by lra;
      destruct (Rle_dec a b); [contradiction | clear H] ].

Ltac settle_eq a b :=
  let H := fresh in
  first
    [ assert (H : a = b) by lra;
      destruct (Req_dec_T a b); [clear H | contradiction]
    | assert (H : a <> b) by lra;
      destruct (Req_dec_T a b); [contradiction | clear H] ].

Ltac settle_numbers :=
  repeat match goal with
         | |- context [Rlt_dec ?a ?b] => settle_lt a b
         | |- context [Rle_dec ?a ?b] => settle_le a b
         | |- context [Req_dec_T ?a ?b] => settle_eq a b
         end.

Ltac decide_numbers := settle_numbers; try lra.

(** Run a definition on concrete numbers. *)
Ltac unfold_js :=
  try unfold eqb; try unfold geb; try unfold gtb; try unfold leb; try unfold ltb;
  try unfold Rmax; try unfold Rmin;
  try unfold vsub; try unfold vadd; try unfold get.

Ltac run_numbers := repeat (progress (simpl; unfold_js; settle_numbers)).

(** ** The engine on sample inputs *)

Module Examples.

Import BeamSolver Calculations Samples JsFacts.

Example getRhoMin_C25 : getRhoMin 25 = 0.150.
Proof. unfold getRhoMin. run_numbers. reflexivity. Qed.

Example getRhoMin_C40 : getRhoMin 40 = 0.179.
Proof. unfold getRhoMin. run_numbers. reflexivity. Qed.

Example stability_of_samples :
  isStable simplySupported = true
  /\ isStable cantilever = true
  /\ isStable onePin = false
  /\ isCantilever cantilever = true
  /\ isCantilever simplySupported = false.
Proof. repeat split; reflexivity. Qed.

(** Four 10 mm bars fit in one layer of the 20 cm beam:
    [floor ((14 + 2.28) / (1 + 2.28))]. *)
Example maxBarsPerLayer_sample : maxBarsPerLayer simplySupported 10 = 4%Z.
Proof.
  unfold maxBarsPerLayer, floor. simpl. unfold Rmax. settle_numbers.
  apply Zfloor_eq. split.
  - apply (Rmult_le_reg_r (10 / 10 + 1.2 * 1.9)); [lra |].
    unfold Rdiv at 2. rewrite Rmult_assoc, Rinv_l by lra. lra.
  - apply (Rmult_lt_reg_r (10 / 10 + 1.2 * 1.9)); [lra |].
    unfold Rdiv at 1. rewrite Rmult_assoc, Rinv_l by lra. lra.
Qed.

(** Six bars, four to a layer, one layer allowed: the first layer takes
    four, the two that are left go to that same layer, and the face is
    marked as not fitting. *)
Example placeBars_overflow :
  placeBars simplySupported bottom 4 1 6 [] true []
  = ([6%Z], false, [fitMessage simplySupported bottom]).
Proof. reflexivity. Qed.

(** With no layer allowed at all, no entry of the array is there to take
    the bars. *)
Example placeBars_no_layer :
  placeBars simplySupported bottom 4 0 6 [] true []
  = ([], false, [fitMessage simplySupported bottom]).
Proof. reflexivity. Qed.

Example placeBars_two_layers :
  placeBars simplySupported bottom 4 2 6 [] true [] = ([4%Z; 2%Z], true, []).
Proof. reflexivity. Qed.

(** The nodes of a beam on three supports, given out of order. *)
Example buildNodes_sample :
  buildNodes 6 [mkSupport "b" 3 pin; mkSupport "c" 6 pin; mkSupport "a" 0 pin]
  = [0; 3; 6].
Proof. unfold buildNodes, setAdd, sortAscending. run_numbers. reflexivity. Qed.

End Examples.

(** ** Properties of [calculateColumn] *)

Module ColumnProperties.

Import Calculations Samples JsFacts.

Lemma calculateColumn_slender (inp : ColumnInput) :
  140 < maxLambda inp -> calculateColumn inp = slenderResult inp.
Proof.
  intros H. unfold calculateColumn.
  now rewrite (proj2 (gtb_true (maxLambda inp) 140) H).
Qed.

Lemma calculateColumn_isValid (inp : ColumnInput) :
  maxLambda inp <= 140 ->
  isValid (calculateColumn inp) = fst (sectionChecks inp).
Proof.
  intros H. unfold calculateColumn.
  rewrite (proj2 (gtb_false (maxLambda inp) 140) H).
  destruct (sectionChecks inp) as [v m].
  destruct (stirrupChecks inp m) as [st m']. reflexivity.
Qed.

Lemma calculateColumn_messages (inp : ColumnInput) :
  maxLambda inp <= 140 ->
  messages (calculateColumn inp)
  = snd (stirrupChecks inp (snd (sectionChecks inp))).
Proof.
  intros H. unfold calculateColumn.
  rewrite (proj2 (gtb_false (maxLambda inp) 140) H).
  destruct (sectionChecks inp) as [v m]. simpl.
  destruct (stirrupChecks inp m) as [st m']. reflexivity.
Qed.

Lemma calculateColumn_metrics (inp : ColumnInput) :
  maxLambda inp <= 140 ->
  nth_error (metrics (calculateColumn inp)) 1
  = Some (mkMetric "Momento Total X" (Fixed (M_tot_x inp) 2) "kN.m" None)
  /\ nth_error (metrics (calculateColumn inp)) 2
     = Some (mkMetric "Momento Total Y" (Fixed (M_tot_y inp) 2) "kN.m" None).
Proof.
  intros H. unfold calculateColumn.
  rewrite (proj2 (gtb_false (maxLambda inp) 140) H).
  destruct (sectionChecks inp) as [v m].
  destruct (stirrupChecks inp m) as [st m']. split; reflexivity.
Qed.

Lemma stirrupChecks_diameter (inp : ColumnInput) (msgs : list text) :
  c_stirrupDiameter inp < minStirrupDiaRule inp ->
  In (stirrupDiaWarning inp) (snd (stirrupChecks inp msgs)).
Proof.
  intros H. unfold stirrupChecks.
  rewrite (proj2 (ltb_true _ _) H).
  destruct (gtb (c_stirrupSpacing inp) (maxSpacingRule inp)); simpl.
  - apply push_keeps, push_In.
  - apply push_In.
Qed.

Lemma stirrupChecks_spacing (inp : ColumnInput) (msgs : list text) :
  maxSpacingRule inp < c_stirrupSpacing inp ->
  In (stirrupSpacingWarning inp) (snd (stirrupChecks inp msgs)).
Proof.
  intros H. unfold stirrupChecks.
  rewrite (proj2 (gtb_true _ _) H).
  destruct (ltb (c_stirrupDiameter inp) (minStirrupDiaRule inp)); simpl;
    apply push_In.
Qed.


(** C3.  Each axis on its own: with a slenderness of at most 35 the total
    design moment of the axis is the minimum first-order moment
    [Nd * e_min] and nothing else (the second-order eccentricity is 0),
    whatever the slenderness of the other axis; above 35 the term
    [Nd * e2] of the curvature method is added.  [calcSecondOrder] itself
    returns the first-order moment unchanged up to 35, and the moments
    are the ones reported in the metrics of a column that is not rejected
    for slenderness. *)
Theorem second_order_gate (inp : ColumnInput) :
  (forall lambda h_side M1d,
      lambda <= 35 ->
      calcSecondOrder inp lambda h_side M1d = mkSecondOrder M1d 0)
  /\ (lambdaX inp <= 35 ->
      M_tot_x inp = Nd inp * e_min_x inp /\ e2 (secondOrderX inp) = 0)
  /\ (lambdaY inp <= 35 ->
      M_tot_y inp = Nd inp * e_min_y inp /\ e2 (secondOrderY inp) = 0)
  /\ (35 < lambdaX inp ->
      M_tot_x inp = Nd inp * e_min_x inp + Nd inp * e2 (secondOrderX inp)
      /\ e2 (secondOrderX inp)
         = (le inp * le inp / 10)
           * Rmax (0.005 / hx inp) (0.005 / (hx inp * (nu inp + 0.5))))
  /\ (35 < lambdaY inp ->
      M_tot_y inp = Nd inp * e_min_y inp + Nd inp * e2 (secondOrderY inp)
      /\ e2 (secondOrderY inp)
         = (le inp * le inp / 10)
           * Rmax (0.005 / hy inp) (0.005 / (hy inp * (nu inp + 0.5))))
  /\ (maxLambda inp <= 140 ->
      nth_error (metrics (calculateColumn inp)) 1
      = Some (mkMetric "Momento Total X" (Fixed (M_tot_x inp) 2) "kN.m" None)
      /\ nth_error (metrics (calculateColumn inp)) 2
         = Some (mkMetric "Momento Total Y" (Fixed (M_tot_y inp) 2) "kN.m" None)).
Proof.
  assert (curv : forall h c : R,
             (if ltb c (0.005 / h) then 0.005 / h else c) = Rmax (0.005 / h) c).
  { intros h c. unfold ltb, Rmax.
    destruct (Rlt_dec c (0.005 / h)), (Rle_dec (0.005 / h) c); lra. }
  repeat split.
  - intros lambda h_side M1d H. unfold calcSecondOrder, lambda_1.
    now rewrite (proj2 (leb_true lambda 35) H).
  - unfold M_tot_x, secondOrderX, lambda_1.
    now rewrite (proj2 (gtb_false (lambdaX inp) 35) H).
  - unfold secondOrderX, lambda_1.
    now rewrite (proj2 (gtb_false (lambdaX inp) 35) H).
  - unfold M_tot_y, secondOrderY, lambda_1.
    now rewrite (proj2 (gtb_false (lambdaY inp) 35) H).
  - unfold secondOrderY, lambda_1.
    now rewrite (proj2 (gtb_false (lambdaY inp) 35) H).
  - unfold M_tot_x, secondOrderX, calcSecondOrder, lambda_1.
    rewrite (proj2 (gtb_true (lambdaX inp) 35) H).
    rewrite (proj2 (leb_false (lambdaX inp) 35) H). reflexivity.
  - unfold secondOrderX, calcSecondOrder, lambda_1.
    rewrite (proj2 (gtb_true (lambdaX inp) 35) H).
    rewrite (proj2 (leb_false (lambdaX inp) 35) H). simpl.
    now rewrite curv.
  - unfold M_tot_y, secondOrderY, calcSecondOrder, lambda_1.
    rewrite (proj2 (gtb_true (lambdaY inp) 35) H).
    rewrite (proj2 (leb_false (lambdaY inp) 35) H). reflexivity.
  - unfold secondOrderY, calcSecondOrder, lambda_1.
    rewrite (proj2 (gtb_true (lambdaY inp) 35) H).
    rewrite (proj2 (leb_false (lambdaY inp) 35) H). simpl.
    now rewrite curv.
  - now apply calculateColumn_metrics.
  - now apply calculateColumn_metrics.
Qed.

Lemma column20x40_lambdaX : lambdaX column20x40 = 51.9.
Proof. unfold lambdaX, le, hx, kFactor. simpl. lra. Qed.

Lemma column20x40_lambdaY : lambdaY column20x40 = 25.95.
Proof. unfold lambdaY, le, hy, kFactor. simpl. lra. Qed.

Lemma column20x40_maxLambda : maxLambda column20x40 = 51.9.
Proof.
  unfold maxLambda. rewrite column20x40_lambdaX, column20x40_lambdaY.
  unfold Rmax. decide_numbers.
Qed.

(** On the 20 x 40 column 3 m high the two axes fall on the two sides of
    the threshold: [lambdaX = 51.9], [lambdaY = 25.95]. *)
Lemma second_order_gate_witness :
  M_tot_y column20x40 = Nd column20x40 * e_min_y column20x40
  /\ M_tot_x column20x40
     = Nd column20x40 * e_min_x column20x40
       + Nd column20x40 * e2 (secondOrderX column20x40)
  /\ nth_error (metrics (calculateColumn column20x40)) 2
     = Some (mkMetric "Momento Total Y"
                      (Fixed (Nd column20x40 * e_min_y column20x40) 2) "kN.m" None).
Proof.
  pose proof (second_order_gate column20x40) as (_ & _ & HY & HX & _ & HM).
  assert (Hy : lambdaY column20x40 <= 35)
    by (rewrite column20x40_lambdaY; lra).
  assert (Hx : 35 < lambdaX column20x40)
    by (rewrite column20x40_lambdaX; lra).
  assert (Hm : maxLambda column20x40 <= 140)
    by (rewrite column20x40_maxLambda; lra).
  split; [exact (proj1 (HY Hy)) |].
  split; [exact (proj1 (HX Hx)) |].
  rewrite <- (proj1 (HY Hy)). exact (proj2 (HM Hm)).
Defined.

(** C4, as the engine computes it.  The slenderness of each side is
    [(k * height * 3.46) / side], with [k] the effective-length factor of
    the end-restraint case, the side in metres and the constant 3.46 in
    the place of the square root of 12; when the larger of the two
    exceeds 140, the result is invalid, carries the excessive-slenderness
    message alone and has no metrics, whatever the axial load. *)
Theorem slenderness_gate (inp : ColumnInput) :
  lambdaX inp
  = (kFactor (c_supportCondition inp) * c_height inp * 3.46) / (c_widthX inp / 100)
  /\ lambdaY inp
     = (kFactor (c_supportCondition inp) * c_height inp * 3.46) / (c_widthY inp / 100)
  /\ kFactor PINNED_PINNED = 1 /\ kFactor FIXED_FREE = 2
  /\ kFactor FIXED_PINNED = 0.7 /\ kFactor FIXED_FIXED = 0.5
  /\ (140 < Rmax (lambdaX inp) (lambdaY inp) ->
      forall axialLoad : R,
        let r := calculateColumn (withAxialLoad inp axialLoad) in
        isValid r = false
        /\ messages r = [slendernessMessage inp]
        /\ metrics r = []).
Proof.
  repeat split; try reflexivity; try (unfold kFactor; lra);
    rewrite (calculateColumn_slender (withAxialLoad inp axialLoad) H);
    reflexivity.
Qed.

Lemma slenderColumn_lambda :
  lambdaX slenderColumn = 346 /\ lambdaY slenderColumn = 346.
Proof. unfold lambdaX, lambdaY, le, hx, hy, kFactor. simpl. split; lra. Qed.

Lemma slenderColumn_maxLambda : maxLambda slenderColumn = 346.
Proof.
  unfold maxLambda. destruct slenderColumn_lambda as [-> ->].
  unfold Rmax. decide_numbers.
Qed.

(** The 10 x 10 cantilever column 5 m high has a slenderness of 346, and
    is rejected under an axial load of 1 kN as under 100 000 kN. *)
Lemma slenderness_gate_witness :
  isValid (calculateColumn (withAxialLoad slenderColumn 1)) = false
  /\ isValid (calculateColumn (withAxialLoad slenderColumn 100000)) = false
  /\ metrics (calculateColumn (withAxialLoad slenderColumn 100000)) = [].
Proof.
  pose proof (slenderness_gate slenderColumn) as (_ & _ & _ & _ & _ & _ & H).
  assert (Hs : 140 < Rmax (lambdaX slenderColumn) (lambdaY slenderColumn))
    by (fold (maxLambda slenderColumn); rewrite slenderColumn_maxLambda; lra).
  split; [exact (proj1 (H Hs 1)) |].
  split; [exact (proj1 (H Hs 100000)) | exact (proj2 (proj2 (H Hs 100000)))].
Defined.

(** C4 as it was stated does not hold: on the 20 x 40 column 3 m high the
    slenderness about X is 51.9, which is not [k * height * sqrt 12 / side],
    with the side in metres or in centimetres. *)
Lemma slenderness_is_not_sqrt12 :
  lambdaX column20x40
  <> (kFactor (c_supportCondition column20x40) * c_height column20x40 * sqrt 12)
     / hx column20x40
  /\ lambdaX column20x40
     <> (kFactor (c_supportCondition column20x40) * c_height column20x40 * sqrt 12)
        / c_widthX column20x40.
Proof.
  assert (H12 : sqrt 12 * sqrt 12 = 12) by (apply sqrt_sqrt; lra).
  rewrite column20x40_lambdaX. unfold hx, kFactor. simpl.
  split; intros H.
  - assert (E : sqrt 12 = 3.46) by lra. rewrite E in H12. lra.
  - assert (E : sqrt 12 = 346) by lra. rewrite E in H12. lra.
Qed.


Lemma maxLambda_withStirrups (inp : ColumnInput) (diameter spacing : R) :
  maxLambda (withStirrups inp diameter spacing) = maxLambda inp.
Proof. reflexivity. Qed.

Lemma sectionChecks_withStirrups (inp : ColumnInput) (diameter spacing : R) :
  sectionChecks (withStirrups inp diameter spacing) = sectionChecks inp.
Proof. reflexivity. Qed.

(** C9, as the engine computes it.  The stirrup diameter is checked
    against [max(5, longitudinalBarDiameter / 4)] (mm) and the spacing
    against [min(20, smaller side, 12 * longitudinalBarDiameter / 10)]
    (cm).  For a column that is not rejected for excessive slenderness,
    a diameter below the first or a spacing above the second appends its
    warning to the messages.  In no case do the stirrups bear on the
    validity flag: replacing the stirrup diameter and spacing by any
    others leaves [isValid] as it was. *)
Theorem stirrup_warnings (inp : ColumnInput) :
  minStirrupDiaRule inp = Rmax 5 (c_longitudinalBarDiameter inp / 4)
  /\ maxSpacingRule inp
     = Rmin 20 (Rmin (Rmin (c_widthX inp) (c_widthY inp))
                     (12 * (c_longitudinalBarDiameter inp / 10)))
  /\ (maxLambda inp <= 140 ->
      (c_stirrupDiameter inp < minStirrupDiaRule inp ->
       In (stirrupDiaWarning inp) (messages (calculateColumn inp)))
      /\ (maxSpacingRule inp < c_stirrupSpacing inp ->
          In (stirrupSpacingWarning inp) (messages (calculateColumn inp))))
  /\ (forall diameter spacing : R,
        isValid (calculateColumn (withStirrups inp diameter spacing))
        = isValid (calculateColumn inp)).
Proof.
  split; [unfold minStirrupDiaRule; f_equal; lra |].
  split; [reflexivity |]. split.
  - intros Hl. rewrite (calculateColumn_messages inp Hl). split; intros H.
    + now apply stirrupChecks_diameter.
    + now apply stirrupChecks_spacing.
  - intros diameter spacing.
    destruct (Rle_dec (maxLambda inp) 140) as [Hl | Hl].
    + rewrite (calculateColumn_isValid inp Hl).
      rewrite (calculateColumn_isValid (withStirrups inp diameter spacing)).
      * now rewrite sectionChecks_withStirrups.
      * now rewrite maxLambda_withStirrups.
    + rewrite (calculateColumn_slender inp) by lra.
      rewrite (calculateColumn_slender (withStirrups inp diameter spacing)).
      * reflexivity.
      * rewrite maxLambda_withStirrups. lra.
Qed.

Lemma looseStirrupColumn_maxLambda : maxLambda looseStirrupColumn <= 140.
Proof.
  unfold maxLambda, lambdaX, lambdaY, le, hx, hy, kFactor, Rmax. simpl.
  decide_numbers.
Qed.

Lemma looseStirrupColumn_rules :
  minStirrupDiaRule looseStirrupColumn = 5
  /\ maxSpacingRule looseStirrupColumn = 12.
Proof.
  unfold minStirrupDiaRule, maxSpacingRule, Rmax, Rmin. simpl.
  split; decide_numbers.
Qed.

(** The stocky column with 4 mm stirrups every 30 cm breaks both rules
    (5 mm and 12 cm): both warnings are among its messages, and its
    validity is that of the same column with 5 mm stirrups every 10 cm. *)
Lemma stirrup_warnings_witness :
  In (stirrupDiaWarning looseStirrupColumn)
     (messages (calculateColumn looseStirrupColumn))
  /\ In (stirrupSpacingWarning looseStirrupColumn)
        (messages (calculateColumn looseStirrupColumn))
  /\ isValid (calculateColumn (withStirrups looseStirrupColumn 5 10))
     = isValid (calculateColumn looseStirrupColumn).
Proof.
  pose proof (stirrup_warnings looseStirrupColumn) as (_ & _ & Hw & Hv).
  destruct (Hw looseStirrupColumn_maxLambda) as [Hd Hs].
  destruct looseStirrupColumn_rules as [Ed Es].
  split; [apply Hd; rewrite Ed; simpl; lra |].
  split; [apply Hs; rewrite Es; simpl; lra |].
  exact (Hv 5 10).
Defined.

Lemma slenderColumn_rules :
  minStirrupDiaRule slenderColumn = 5 /\ maxSpacingRule slenderColumn = 10.
Proof.
  unfold minStirrupDiaRule, maxSpacingRule, Rmax, Rmin. simpl.
  split; decide_numbers.
Qed.

(** C9 as it was stated does not hold for every input: the 10 x 10
    cantilever column breaks both stirrup rules (4 mm against 5 mm, 30 cm
    against 10 cm), but it is rejected for its slenderness before the
    stirrups are looked at, and its only message is the slenderness one. *)
Lemma slender_column_has_no_stirrup_warning :
  c_stirrupDiameter slenderColumn < minStirrupDiaRule slenderColumn
  /\ maxSpacingRule slenderColumn < c_stirrupSpacing slenderColumn
  /\ messages (calculateColumn slenderColumn) = [slendernessMessage slenderColumn]
  /\ ~ In (stirrupDiaWarning slenderColumn) (messages (calculateColumn slenderColumn))
  /\ ~ In (stirrupSpacingWarning slenderColumn)
         (messages (calculateColumn slenderColumn)).
Proof.
  destruct slenderColumn_rules as [Ed Es].
  assert (Hs : 140 < maxLambda slenderColumn)
    by (rewrite slenderColumn_maxLambda; lra).
  rewrite (calculateColumn_slender slenderColumn Hs).
  split; [rewrite Ed; simpl; lra |].
  split; [rewrite Es; simpl; lra |].
  split; [reflexivity |].
  split; intros [H | []]; discriminate H.
Qed.

End ColumnProperties.

(** ** Properties of [calculateBeam] *)

Module BeamProperties.

Import BeamSolver Calculations Samples JsFacts.

(** *** The layer loop *)

Lemma placeBars_keeps_invalid inp face perLayer free remaining layerCounts msgs :
  snd (fst (placeBars inp face perLayer free remaining layerCounts false msgs))
  = false.
Proof.
  revert remaining layerCounts.
  induction free as [| free IH]; intros remaining layerCounts; simpl;
    destruct (0 <? remaining)%Z; try reflexivity.
  apply IH.
Qed.

Lemma placeBars_log_irrelevant inp face perLayer free remaining layerCounts v
      msgs msgs' :
  fst (placeBars inp face perLayer free remaining layerCounts v msgs)
  = fst (placeBars inp face perLayer free remaining layerCounts v msgs').
Proof.
  revert remaining layerCounts.
  induction free as [| free IH]; intros remaining layerCounts; simpl;
    destruct (0 <? remaining)%Z; try reflexivity.
  apply IH.
Qed.

Lemma placeBars_keeps_messages inp face perLayer free remaining layerCounts v
      msgs m :
  In m msgs ->
  In m (snd (placeBars inp face perLayer free remaining layerCounts v msgs)).
Proof.
  intros Hm. revert remaining layerCounts.
  induction free as [| free IH]; intros remaining layerCounts; simpl;
    destruct (0 <? remaining)%Z; simpl; try assumption.
  - now apply push_keeps.
  - apply IH.
Qed.

(** *** The flexure block *)

Lemma flexure_insufficient inp log M barDia face :
  KmdLimit < Kmd inp M barDia ->
  fst (flexure inp log M barDia face) = (0, false)
  /\ lg_messages (snd (flexure inp log M barDia face))
     = push (lg_messages log) (sectionMessage face).
Proof.
  intros H. unfold flexure.
  rewrite (proj2 (gtb_true _ _) H). split; reflexivity.
Qed.

Lemma flexure_sufficient inp log M barDia face :
  Kmd inp M barDia <= KmdLimit ->
  fst (flexure inp log M barDia face) = (As_calc inp M barDia, true)
  /\ lg_messages (snd (flexure inp log M barDia face)) = lg_messages log.
Proof.
  intros H. unfold flexure.
  rewrite (proj2 (gtb_false _ _) H). split; reflexivity.
Qed.

Lemma flexure_log_irrelevant inp log log' M barDia face :
  fst (flexure inp log M barDia face) = fst (flexure inp log' M barDia face).
Proof.
  unfold flexure. destruct (gtb (Kmd inp M barDia) KmdLimit); reflexivity.
Qed.

Lemma flexure_keeps_messages inp log M barDia face m :
  In m (lg_messages log) ->
  In m (lg_messages (snd (flexure inp log M barDia face))).
Proof.
  intros Hm. unfold flexure.
  destruct (gtb (Kmd inp M barDia) KmdLimit); simpl; [now apply push_keeps | easy].
Qed.

(** *** Minimum steel *)

Lemma adoptedSteel_value inp memory M a :
  fst (adoptedSteel inp memory M a) = adopted inp M a.
Proof.
  unfold adoptedSteel, adopted.
  destruct (isConstructive M); simpl; destruct (ltb _ (As_min inp)); reflexivity.
Qed.

(** *** The face as a whole *)

Lemma calculateReinforcement_fields inp log M barDia face :
  let r := fst (calculateReinforcement inp log M barDia face) in
  let f := flexure inp log M barDia face in
  as_req r = adopted inp M (fst (fst f))
  /\ count r = numberOfBars inp M (as_req r) barDia
  /\ as_provided r = IZR (count r) * barArea barDia
  /\ (snd (fst f) = false -> valid r = false).
Proof.
  unfold calculateReinforcement.
  destruct (flexure inp log M barDia face) as [[a v] l] eqn:Ef. simpl.
  pose proof (adoptedSteel_value inp (lg_memory l) M a) as Ea.
  destruct (adoptedSteel inp (lg_memory l) M a) as [a' memory]. simpl in Ea.
  destruct (placeBars inp face (maxBarsPerLayer inp barDia) (Z.to_nat (layers inp))
                      (numberOfBars inp M a' barDia) [] v (lg_messages l))
    as [[lc v'] ms] eqn:Ep.
  simpl. repeat split; try assumption.
  intros ->.
  pose proof (placeBars_keeps_invalid inp face (maxBarsPerLayer inp barDia)
                (Z.to_nat (layers inp)) (numberOfBars inp M a' barDia) []
                (lg_messages l)) as Hk.
  now rewrite Ep in Hk.
Qed.

Lemma calculateReinforcement_log_irrelevant inp log log' M barDia face :
  fst (calculateReinforcement inp log M barDia face)
  = fst (calculateReinforcement inp log' M barDia face).
Proof.
  unfold calculateReinforcement.
  pose proof (flexure_log_irrelevant inp log log' M barDia face) as Ef.
  destruct (flexure inp log M barDia face) as [[a v] l].
  destruct (flexure inp log' M barDia face) as [[a0 v0] l0].
  simpl in Ef. injection Ef as -> ->.
  pose proof (adoptedSteel_value inp (lg_memory l) M a0) as Ea.
  pose proof (adoptedSteel_value inp (lg_memory l0) M a0) as Ea0.
  destruct (adoptedSteel inp (lg_memory l) M a0) as [a' memory].
  destruct (adoptedSteel inp (lg_memory l0) M a0) as [a0' memory0].
  simpl in Ea, Ea0. subst a' a0'.
  pose proof (placeBars_log_irrelevant inp face (maxBarsPerLayer inp barDia)
                (Z.to_nat (layers inp))
                (numberOfBars inp M (adopted inp M a0) barDia) [] v0
                (lg_messages l) (lg_messages l0)) as Ep.
  destruct (placeBars inp face (maxBarsPerLayer inp barDia) (Z.to_nat (layers inp))
              (numberOfBars inp M (adopted inp M a0) barDia) [] v0 (lg_messages l))
    as [[lc v'] ms].
  destruct (placeBars inp face (maxBarsPerLayer inp barDia) (Z.to_nat (layers inp))
              (numberOfBars inp M (adopted inp M a0) barDia) [] v0 (lg_messages l0))
    as [[lc0 v0'] ms0].
  simpl in Ep. injection Ep as -> ->. reflexivity.
Qed.

Lemma calculateReinforcement_keeps_messages inp log M barDia face m :
  In m (lg_messages log) ->
  In m (lg_messages (snd (calculateReinforcement inp log M barDia face))).
Proof.
  intros Hm. unfold calculateReinforcement.
  pose proof (flexure_keeps_messages inp log M barDia face m Hm) as Hf.
  destruct (flexure inp log M barDia face) as [[a v] l]. simpl in Hf.
  destruct (adoptedSteel inp (lg_memory l) M a) as [a' memory].
  pose proof (placeBars_keeps_messages inp face (maxBarsPerLayer inp barDia)
                (Z.to_nat (layers inp)) (numberOfBars inp M a' barDia) [] v
                (lg_messages l) m Hf) as Hp.
  destruct (placeBars inp face (maxBarsPerLayer inp barDia) (Z.to_nat (layers inp))
              (numberOfBars inp M a' barDia) [] v (lg_messages l))
    as [[lc v'] ms].
  exact Hp.
Qed.


Lemma calculateReinforcement_emits inp log M barDia face :
  KmdLimit < Kmd inp M barDia ->
  In (sectionMessage face)
     (lg_messages (snd (calculateReinforcement inp log M barDia face))).
Proof.
  intros Hk. unfold calculateReinforcement.
  destruct (flexure_insufficient inp log M barDia face Hk) as [_ Hf].
  destruct (flexure inp log M barDia face) as [[a v] l]. simpl in Hf.
  destruct (adoptedSteel inp (lg_memory l) M a) as [a' memory].
  assert (Hin : In (sectionMessage face) (lg_messages l))
    by (rewrite Hf; apply push_In).
  pose proof (placeBars_keeps_messages inp face (maxBarsPerLayer inp barDia)
                (Z.to_nat (layers inp)) (numberOfBars inp M a' barDia) [] v
                (lg_messages l) _ Hin) as Hp.
  destruct (placeBars inp face (maxBarsPerLayer inp barDia) (Z.to_nat (layers inp))
              (numberOfBars inp M a' barDia) [] v (lg_messages l))
    as [[lc v'] ms].
  exact Hp.
Qed.

Lemma faceResult_eq inp log M barDia face :
  fst (calculateReinforcement inp log M barDia face) = faceResult inp M barDia face.
Proof. apply calculateReinforcement_log_irrelevant. Qed.

Lemma face_insufficient inp M barDia face :
  KmdLimit < Kmd inp M barDia -> valid (faceResult inp M barDia face) = false.
Proof.
  intros Hk. unfold faceResult.
  apply (calculateReinforcement_fields inp (mkLog [] []) M barDia face).
  now rewrite (proj1 (flexure_insufficient inp (mkLog [] []) M barDia face Hk)).
Qed.

(** *** [designBeam] *)

Lemma designBeam_isValid inp sr :
  isValid (designBeam inp sr)
  = valid (faceResult inp (M_d_pos sr) (longitudinalBarDiameter inp) bottom)
    && valid (faceResult inp (M_d_neg sr) (topBarDia inp) top)
    && negb (ltb (rho_sw_provided inp) (rho_sw_min inp)).
Proof.
  unfold designBeam. fold (firstMessages inp sr).
  rewrite <- (faceResult_eq inp (mkLog (memoryHeader inp) (firstMessages inp sr))).
  destruct (calculateReinforcement inp (mkLog (memoryHeader inp) (firstMessages inp sr))
              (M_d_pos sr) (longitudinalBarDiameter inp) bottom) as [b l1].
  rewrite <- (faceResult_eq inp l1).
  destruct (calculateReinforcement inp l1 (M_d_neg sr) (topBarDia inp) top) as [t l2].
  simpl.
  destruct (ltb (rho_sw_provided inp) (rho_sw_min inp)); simpl;
    destruct (valid b), (valid t); reflexivity.
Qed.

Lemma designBeam_messages inp sr m :
  (In m (firstMessages inp sr)
   \/ In m (lg_messages
              (snd (calculateReinforcement
                      inp (mkLog (memoryHeader inp) (firstMessages inp sr))
                      (M_d_pos sr) (longitudinalBarDiameter inp) bottom)))
   \/ (forall log,
         In m (lg_messages
                 (snd (calculateReinforcement inp log (M_d_neg sr) (topBarDia inp)
                                              top))))) ->
  In m (messages (designBeam inp sr)).
Proof.
  intros H. unfold designBeam. fold (firstMessages inp sr).
  assert (H1 : In m (lg_messages
              (snd (calculateReinforcement
                      inp (mkLog (memoryHeader inp) (firstMessages inp sr))
                      (M_d_pos sr) (longitudinalBarDiameter inp) bottom)))
               \/ (forall log,
                     In m (lg_messages
                             (snd (calculateReinforcement inp log (M_d_neg sr)
                                     (topBarDia inp) top))))).
  { destruct H as [H | H]; [left | exact H].
    now apply calculateReinforcement_keeps_messages. }
  clear H.
  destruct (calculateReinforcement inp (mkLog (memoryHeader inp) (firstMessages inp sr))
              (M_d_pos sr) (longitudinalBarDiameter inp) bottom) as [b l1].
  simpl in H1.
  assert (H2 : In m (lg_messages
                       (snd (calculateReinforcement inp l1 (M_d_neg sr)
                               (topBarDia inp) top)))).
  { destruct H1 as [H1 | H1]; [| apply H1].
    now apply calculateReinforcement_keeps_messages. }
  clear H1.
  destruct (calculateReinforcement inp l1 (M_d_neg sr) (topBarDia inp) top) as [t l2].
  simpl in H2. simpl.
  destruct (ltb (rho_sw_provided inp) (rho_sw_min inp)); simpl;
    [now apply push_keeps | assumption].
Qed.

Lemma designBeam_has_section inp sr : crossSection (designBeam inp sr) <> None.
Proof.
  unfold designBeam.
  destruct (calculateReinforcement inp _ (M_d_pos sr) _ bottom) as [b l1].
  destruct (calculateReinforcement inp l1 (M_d_neg sr) (topBarDia inp) top) as [t l2].
  destruct (ltb (rho_sw_provided inp) (rho_sw_min inp)); discriminate.
Qed.


(** *** Stability *)

Lemma isStable_true (inp : BeamInput) :
  isStable inp = true
  <-> (2 <= List.length (supports inp))%nat
      \/ exists s, supports inp = [s] /\ sup_type s = fixed.
Proof.
  unfold isStable, isCantilever.
  destruct (supports inp) as [| s [| s' rest]]; simpl.
  - split; [discriminate |]. intros [H | (s & H & _)]; [lia | discriminate].
  - destruct (sup_type s) eqn:Es; simpl.
    + split; [discriminate |].
      intros [H | (s0 & H & Hf)]; [lia |]. injection H as <-. congruence.
    + split; [discriminate |].
      intros [H | (s0 & H & Hf)]; [lia |]. injection H as <-. congruence.
    + split; [| reflexivity]. intros _. right. now exists s.
  - split; [| reflexivity]. intros _. left. lia.
Qed.

(** C2.  An input with fewer than two supports that is not exactly one
    fixed support gets the fixed instability result: invalid, with the
    instability message, and with the three diagram sequences (shear,
    moment, deflection) empty; this result does not depend on the input, so
    nothing was assembled, solved or designed for it.  An input with at
    least two supports, or with exactly one support that is fixed, goes on
    to the solver and the design, and its result is not the instability
    one. *)
Theorem instability_gate (inp : BeamInput) :
  ((List.length (supports inp) < 2)%nat ->
   ~ (exists s, supports inp = [s] /\ sup_type s = fixed) ->
   calculateBeam inp = unstableResult
   /\ isValid (calculateBeam inp) = false
   /\ In instabilityMessage (messages (calculateBeam inp))
   /\ chartDataShear (calculateBeam inp) = Some []
   /\ chartDataMoment (calculateBeam inp) = Some []
   /\ chartDataDeflection (calculateBeam inp) = Some [])
  /\ ((2 <= List.length (supports inp))%nat
      \/ (exists s, supports inp = [s] /\ sup_type s = fixed) ->
      calculateBeam inp = designBeam inp (solveBeam inp)
      /\ calculateBeam inp <> unstableResult).
Proof.
  split.
  - intros Hlt Hnf.
    assert (Hs : isStable inp = false).
    { destruct (isStable inp) eqn:E; [| reflexivity].
      apply isStable_true in E. destruct E as [E | E]; [lia | contradiction]. }
    unfold calculateBeam. rewrite Hs. simpl.
    repeat split; try reflexivity. now left.
  - intros H. apply isStable_true in H.
    unfold calculateBeam. rewrite H. simpl. split; [reflexivity |].
    intros E. apply (designBeam_has_section inp (solveBeam inp)).
    now rewrite E.
Qed.

(** A single pin is unstable; two pins, or one fixed support, are not. *)
Lemma instability_gate_witness :
  calculateBeam onePin = unstableResult
  /\ calculateBeam simplySupported = designBeam simplySupported (solveBeam simplySupported)
  /\ calculateBeam cantilever <> unstableResult.
Proof.
  split.
  - apply (proj1 (instability_gate onePin)).
    + simpl. lia.
    + intros (s & H & Hf). injection H as <-. discriminate Hf.
  - split.
    + apply (proj2 (instability_gate simplySupported)). left. simpl. lia.
    + apply (proj2 (instability_gate cantilever)). right.
      exists (mkSupport "s1" 0 fixed). split; reflexivity.
Defined.

(** *** Serviceability *)

(** C8.  The allowable deflection, in centimetres, is the span over 250, or
    over 125 for a cantilever (exactly one support, fixed).  When the peak
    absolute deflection the solver reports exceeds it, the warning is among
    the messages of the result; and the validity flag does not look at the
    deflection at all: with any other peak deflection in its place the flag
    is the same.  For a stable input [calculateBeam] is this design applied
    to what the solver answers. *)
Theorem deflection_is_a_warning (inp : BeamInput) (sr : SolverResult) :
  allowableDeflection inp
  = (span inp * 100) / (if isCantilever inp then 125 else 250)
  /\ (isCantilever inp = true
      <-> exists s, supports inp = [s] /\ sup_type s = fixed)
  /\ (allowableDeflection inp < Rabs (sr_maxDeflection sr) ->
      In (deflectionMessage inp (Rabs (sr_maxDeflection sr)))
         (messages (designBeam inp sr)))
  /\ (forall maxDeflection : R,
        isValid (designBeam inp (withDeflection sr maxDeflection))
        = isValid (designBeam inp sr))
  /\ (isStable inp = true -> calculateBeam inp = designBeam inp (solveBeam inp)).
Proof.
  split; [reflexivity |]. split; [| split; [| split]].
  - unfold isCantilever.
    destruct (supports inp) as [| s [| s' rest]]; simpl.
    + split; [discriminate |]. intros (s & H & _). discriminate.
    + destruct (sup_type s) eqn:Es; simpl.
      * split; [discriminate |]. intros (s0 & H & Hf). injection H as <-. congruence.
      * split; [discriminate |]. intros (s0 & H & Hf). injection H as <-. congruence.
      * split; [| reflexivity]. intros _. now exists s.
    + split; [discriminate |]. intros (s0 & H & _). discriminate.
  - intros H. apply designBeam_messages. left.
    unfold firstMessages. rewrite (proj2 (gtb_true _ _) H). apply push_In.
  - intros maxDeflection. now rewrite !designBeam_isValid.
  - intros H. unfold calculateBeam. now rewrite H.
Qed.

(** The simply supported 5 m beam may deflect 2 cm, the 5 m cantilever 4 cm;
    a peak of 5 cm is reported for both and leaves the flag as a peak of 0
    does. *)
Lemma deflection_is_a_warning_witness :
  allowableDeflection simplySupported = 2
  /\ allowableDeflection cantilever = 4
  /\ In (deflectionMessage simplySupported (Rabs 5))
        (messages (designBeam simplySupported (peaks 50 0 40 5)))
  /\ isValid (designBeam simplySupported (peaks 50 0 40 5))
     = isValid (designBeam simplySupported (peaks 50 0 40 0))
  /\ calculateBeam cantilever = designBeam cantilever (solveBeam cantilever).
Proof.
  pose proof (deflection_is_a_warning simplySupported (peaks 50 0 40 0))
    as (Ea & _ & _ & Hv & _).
  pose proof (deflection_is_a_warning simplySupported (peaks 50 0 40 5))
    as (_ & _ & Hm & _ & _).
  pose proof (deflection_is_a_warning cantilever (peaks 50 0 40 5))
    as (Ec & _ & _ & _ & Hs).
  split; [rewrite Ea; simpl; lra |].
  split; [rewrite Ec; simpl; lra |].
  split.
  - apply Hm. rewrite Ea. simpl. rewrite Rabs_pos_eq; lra.
  - split; [exact (Hv 5) | apply Hs; reflexivity].
Defined.


(** *** Flexural design of a face *)

(** C1.  For a face with design moment [M] (kN.m) and bar diameter
    [barDia] (mm), [Kmd = Md / (b * d^2 * fcd)] with [Md] in kN.cm and
    [d = h - cover - stirrupDiameter / 10 - barDia / 20] in cm.
    - Above 0.45 the flexure block computes no steel area ([as] keeps its
      initial 0, so that the face asks for the minimum area only, whatever
      the moment), the section message is pushed, the face is not valid,
      and the result of the beam is invalid and carries the message.
    - Up to 0.45, 0.45 included (and with [b], [d] and [fck] not zero, so
      that the quotient is one), the block returns
      [As = Md / (beta_z * d * fyd)], pushes no message and leaves the face
      valid at that point. *)
Theorem kmd_gate (inp : BeamInput) (log : Log) (M barDia : R) (face : Face) :
  Kmd inp M barDia
  = (M * 100) / (width inp * (d_face inp barDia * d_face inp barDia)
                 * (fck inp / 1.4 / 10))
  /\ d_face inp barDia
     = height inp - concreteCover inp - stirrupDiameter inp / 10 - barDia / 20
  /\ (0.45 < Kmd inp M barDia ->
      fst (flexure inp log M barDia face) = (0, false)
      /\ as_req (fst (calculateReinforcement inp log M barDia face))
         = Rmax 0 (As_min inp)
      /\ valid (fst (calculateReinforcement inp log M barDia face)) = false
      /\ In (sectionMessage face)
            (lg_messages (snd (calculateReinforcement inp log M barDia face))))
  /\ (width inp * (d_face inp barDia * d_face inp barDia) * fck inp <> 0 ->
      Kmd inp M barDia <= 0.45 ->
      fst (flexure inp log M barDia face)
      = ((M * 100) / ((beta_z (Kmd inp M barDia) * d_face inp barDia)
                      * (fyk inp / 1.15 / 10)), true)
      /\ lg_messages (snd (flexure inp log M barDia face)) = lg_messages log)
  /\ (forall sr : SolverResult,
        0.45 < Kmd inp (M_d_pos sr) (longitudinalBarDiameter inp) ->
        isValid (designBeam inp sr) = false
        /\ In (sectionMessage bottom) (messages (designBeam inp sr)))
  /\ (forall sr : SolverResult,
        0.45 < Kmd inp (M_d_neg sr) (topBarDia inp) ->
        isValid (designBeam inp sr) = false
        /\ In (sectionMessage top) (messages (designBeam inp sr))).
Proof.
  split; [reflexivity |]. split; [reflexivity |].
  split; [| split; [| split]].
  - intros Hk.
    destruct (flexure_insufficient inp log M barDia face Hk) as [Ef _].
    pose proof (calculateReinforcement_fields inp log M barDia face)
      as (Ha & _ & _ & Hv).
    cbv zeta in Ha, Hv. rewrite Ef in Ha, Hv. simpl in Ha, Hv.
    split; [exact Ef |]. split; [| split].
    + rewrite Ha. unfold adopted.
      assert (E0 : (if isConstructive M then 0 else 0) = 0)
        by (destruct (isConstructive M); reflexivity).
      rewrite E0. unfold ltb, Rmax.
      destruct (Rlt_dec 0 (As_min inp)), (Rle_dec 0 (As_min inp)); lra.
    + now apply Hv.
    + now apply calculateReinforcement_emits.
  - intros _ Hk. exact (flexure_sufficient inp log M barDia face Hk).
  - intros sr Hk. split.
    + rewrite designBeam_isValid.
      now rewrite (face_insufficient inp _ _ bottom Hk).
    + apply designBeam_messages. right. left.
      now apply calculateReinforcement_emits.
  - intros sr Hk. split.
    + rewrite designBeam_isValid.
      rewrite (face_insufficient inp _ _ top Hk).
      now rewrite andb_false_r.
    + apply designBeam_messages. right. right. intros log0.
      now apply calculateReinforcement_emits.
Qed.

Lemma simplySupported_Kmd (M : R) :
  Kmd simplySupported M 10 = M * 100 / (20 * (36.5 * 36.5) * (25 / 1.4 / 10)).
Proof.
  unfold Kmd, d_face, fcd_kN_cm2, GAMMA_C, sq. simpl. f_equal.
  replace (40 - 2.5 - 5 / 10 - 10 / 20) with 36.5 by lra. reflexivity.
Qed.

(** On the 20 x 40 beam ([d = 36.5] cm): a design moment of 280 kN.m gives
    [Kmd] about 0.59 and an invalid result; the moment for which [Kmd] is
    0.45 exactly still gets its steel area. *)
Lemma kmd_gate_witness :
  isValid (designBeam simplySupported (peaks 200 0 40 0)) = false
  /\ fst (flexure simplySupported (mkLog [] [])
                  (0.45 * (20 * (36.5 * 36.5) * (25 / 1.4 / 10)) / 100) 10 bottom)
     = (As_calc simplySupported
                (0.45 * (20 * (36.5 * 36.5) * (25 / 1.4 / 10)) / 100) 10, true).
Proof.
  split.
  - pose proof (kmd_gate simplySupported (mkLog [] []) 0 10 bottom)
      as (_ & _ & _ & _ & Hb & _).
    apply (Hb (peaks 200 0 40 0)).
    change (longitudinalBarDiameter simplySupported) with 10.
    rewrite simplySupported_Kmd. unfold M_d_pos, GAMMA_F, Rmax. simpl.
    decide_numbers.
  - pose proof (kmd_gate simplySupported (mkLog [] [])
                  (0.45 * (20 * (36.5 * 36.5) * (25 / 1.4 / 10)) / 100) 10 bottom)
      as (_ & _ & _ & Hs & _).
    apply Hs.
    + unfold d_face. simpl. lra.
    + rewrite simplySupported_Kmd. lra.
Defined.

(** *** Bars of a face *)

Lemma barArea_pos (barDia : R) : barDia <> 0 -> 0 < barArea barDia.
Proof.
  intros H. unfold barArea, sq.
  apply Rmult_lt_0_compat; [apply PI_RGT_0 |].
  assert (Hd : barDia / 20 <> 0) by lra. nra.
Qed.

Lemma numberOfBars_ge_2 inp M a barDia : (2 <= numberOfBars inp M a barDia)%Z.
Proof.
  unfold numberOfBars.
  destruct (isConstructive M).
  - destruct (gtb (As_min inp) (2 * barArea barDia)); [| lia].
    destruct (ceil (As_min inp / barArea barDia) <? 2)%Z eqn:E; [lia |].
    apply Z.ltb_ge in E. exact E.
  - destruct (ceil (a / barArea barDia) <? 2)%Z eqn:E; [lia |].
    apply Z.ltb_ge in E. exact E.
Qed.

Lemma at_least_ceil (x a : R) (n : Z) :
  0 < a -> (ceil (x / a) <= n)%Z -> x <= IZR n * a.
Proof.
  intros Ha Hn. apply Rle_trans with (IZR (ceil (x / a)) * a).
  - now apply ceil_cover.
  - apply Rmult_le_compat_r; [lra | now apply IZR_le].
Qed.

Lemma numberOfBars_covers inp M a barDia :
  barDia <> 0 ->
  adopted inp M a <= IZR (numberOfBars inp M (adopted inp M a) barDia) * barArea barDia.
Proof.
  intros Hd. pose proof (barArea_pos barDia Hd) as Hpos.
  unfold numberOfBars, adopted.
  destruct (isConstructive M).
  - destruct (gtb (As_min inp) (2 * barArea barDia)) eqn:Eg.
    + apply gtb_true in Eg.
      rewrite (proj2 (ltb_true 0 (As_min inp))) by lra.
      apply at_least_ceil; [assumption |].
      destruct (ceil (As_min inp / barArea barDia) <? 2)%Z eqn:E; [| lia].
      apply Z.ltb_lt in E. lia.
    + apply gtb_false in Eg.
      destruct (ltb 0 (As_min inp)); simpl; lra.
  - apply at_least_ceil; [assumption |].
    match goal with
    | |- context [(?c <? 2)%Z] => destruct (c <? 2)%Z eqn:E
    end; [apply Z.ltb_lt in E; lia | lia].
Qed.

(** C10.  Whatever branch a face goes through (flexural area, minimum
    area, constructive reinforcement, insufficient section), the provided
    area it returns is its bar count times the area of one bar of the
    chosen diameter, [PI * (barDia / 20)^2], and the count is at least 2;
    for a bar diameter that is not zero the provided area is not below the
    required area it returns.  The two faces of [designBeam] are such
    faces. *)
Theorem provided_covers_required (inp : BeamInput) (log : Log) (M barDia : R)
        (face : Face) :
  let r := fst (calculateReinforcement inp log M barDia face) in
  as_provided r = IZR (count r) * (PI * (barDia / 20 * (barDia / 20)))
  /\ (2 <= count r)%Z
  /\ (barDia <> 0 -> as_req r <= as_provided r).
Proof.
  pose proof (calculateReinforcement_fields inp log M barDia face)
    as (Ha & Hc & Hp & _).
  cbv zeta in *.
  split; [exact Hp |]. split.
  - rewrite Hc. apply numberOfBars_ge_2.
  - intros Hd. rewrite Hp, Hc, Ha. now apply numberOfBars_covers.
Qed.

(** The bottom face of the 20 x 40 beam under 70 kN.m with 10 mm bars, and
    under no moment at all (constructive reinforcement). *)
Lemma provided_covers_required_witness :
  as_req (fst (calculateReinforcement simplySupported (mkLog [] []) 70 10 bottom))
  <= as_provided (fst (calculateReinforcement simplySupported (mkLog [] []) 70 10 bottom))
  /\ as_req (fst (calculateReinforcement simplySupported (mkLog [] []) 0 10 bottom))
     <= as_provided (fst (calculateReinforcement simplySupported (mkLog [] []) 0 10 bottom)).
Proof.
  split.
  - apply (provided_covers_required simplySupported (mkLog [] []) 70 10 bottom). lra.
  - apply (provided_covers_required simplySupported (mkLog [] []) 0 10 bottom). lra.
Defined.

End BeamProperties.

(** ** Properties of [solveBeam] *)

Module SolverProperties.

Import BeamSolver Calculations Samples JsFacts.

Lemma loadOnNode_nodes : buildNodes (span loadOnNode) (supports loadOnNode) = [0; 5].
Proof.
  unfold buildNodes, setAdd, sortAscending. run_numbers. reflexivity.
Qed.





(** *** Where the two copies of the fixed-end actions agree

    On a beam of one element [[x1, x2]]: a distributed load, and a point
    load more than [1e-5] away from both ends, are subtracted from [F] in
    step 4 as they are added to [fea] in step 7. *)

Lemma distributed_load_agrees (x1 x2 : R) (d : DistributedLoad) :
  assembleDistributed [x1; x2] [0; 0; 0; 0] d
  = map Ropp (recoverDistributed x1 x2 (x2 - x1) [0; 0; 0; 0] d).
Proof.
  unfold assembleDistributed, recoverDistributed. simpl. unfold get. simpl.
  destruct (gtb (Rmin x2 (dl_end d)) (Rmax x1 (dl_start d))).
  - simpl. unfold vsub, vadd. simpl.
    repeat (apply (f_equal2 (@cons R)); [first [ring | lra] |]). reflexivity.
  - simpl. repeat (apply (f_equal2 (@cons R)); [first [ring | lra] |]). reflexivity.
Qed.

Lemma interior_point_load_agrees (x1 x2 : R) (p : PointLoad) :
  x1 + 1e-5 < pl_position p ->
  pl_position p < x2 - 1e-5 ->
  assemblePoint [x1; x2] [0; 0; 0; 0] p
  = map Ropp (recoverPoint x1 x2 (x2 - x1) [0; 0; 0; 0] p).
Proof.
  intros H1 H2.
  unfold assemblePoint, recoverPoint. simpl. unfold get. simpl.
  rewrite (proj2 (geb_true (pl_position p) x1)) by lra.
  rewrite (proj2 (leb_true (pl_position p) x2)) by lra.
  rewrite (proj2 (ltb_false (x2 - x1) 1e-5)) by lra.
  rewrite (proj2 (gtb_true (Rabs (x2 - x1)) 1e-5))
    by (rewrite Rabs_pos_eq; lra).
  assert (Hmin : 1e-5 < Rmin (pl_position p - x1) (x2 - pl_position p))
    by (unfold Rmin; destruct (Rle_dec _ _); lra).
  rewrite (proj2 (gtb_true _ _) Hmin).
  simpl. unfold vsub, vadd. simpl.
  repeat (apply (f_equal2 (@cons R)); [first [ring | lra] |]). reflexivity.
Qed.

(** *** A point load on a node

    On a beam of one element [[x1, x2]], a point load standing on the
    right-hand node goes into [F] with its whole magnitude in step 4, and
    is left out of [fea] in step 7. *)

Lemma end_node_load_is_assembled (x1 x2 P : R) (id : string) :
  1e-5 <= x2 - x1 ->
  assemblePoint [x1; x2] [0; 0; 0; 0] (mkPointLoad id x2 P) = [0; 0; - P; 0].
Proof.
  intros HL.
  unfold assemblePoint. simpl. unfold get. simpl.
  rewrite (proj2 (geb_true x2 x1)) by lra.
  rewrite (proj2 (leb_true x2 x2)) by lra.
  rewrite (proj2 (ltb_false (x2 - x1) 1e-5)) by lra.
  simpl. unfold vsub. simpl.
  repeat (apply (f_equal2 (@cons R)); [field; lra |]). reflexivity.
Qed.

Lemma end_node_load_is_left_out (x1 x2 P : R) (id : string) (fea : list R) :
  recoverPoint x1 x2 (x2 - x1) fea (mkPointLoad id x2 P) = fea.
Proof.
  unfold recoverPoint. simpl.
  destruct (geb x2 x1 && leb x2 x2); [| reflexivity].
  assert (Hmin : Rmin (x2 - x1) (x2 - x2) <= 1e-5)
    by (unfold Rmin; destruct (Rle_dec _ _); lra).
  rewrite (proj2 (gtb_false _ _) Hmin).
  now rewrite andb_false_r.
Qed.



End SolverProperties.

(** ** Determinism *)

Module Determinism.

Import BeamSolver Calculations Samples.



End Determinism.

(** ** Invariants of the solver's model *)

Module SolverInvariants.

Import BeamSolver Calculations Samples JsFacts.

(** *** The node set *)

Lemma setAdd_In (s : list R) (x y : R) : In y (setAdd s x) <-> In y s \/ y = x.
Proof.
  unfold setAdd. destruct (existsb (eqb x) s) eqn:E.
  - split; [now left |]. intros [H | ->]; [assumption |].
    apply existsb_exists in E. destruct E as (z & Hz & Ez).
    apply eqb_true in Ez. now subst z.
  - rewrite in_app_iff. simpl. split.
    + intros [H | [H | []]]; [now left | now right].
    + intros [H | ->]; [now left | right; now left].
Qed.

Lemma setAdd_NoDup (s : list R) (x : R) : NoDup s -> NoDup (setAdd s x).
Proof.
  intros Hs. unfold setAdd. destruct (existsb (eqb x) s) eqn:E; [assumption |].
  apply NoDup_app; [assumption | repeat constructor; intros [] | ].
  intros y Hy [<- | []].
  assert (Hex : existsb (eqb x) s = true).
  { apply existsb_exists. exists x. split; [assumption | now apply eqb_true]. }
  congruence.
Qed.

Lemma insertSorted_In (x y : R) (l : list R) :
  In y (insertSorted x l) <-> y = x \/ In y l.
Proof.
  induction l as [| z t IH]; simpl.
  - split; [intros [H | []]; now left | intros [H | []]; now left].
  - destruct (leb x z); simpl.
    + split; intros H; intuition.
    + rewrite IH. split; intros H; intuition.
Qed.

Lemma insertSorted_ascending (x : R) (l : list R) :
  StronglySorted Rlt l -> ~ In x l -> StronglySorted Rlt (insertSorted x l).
Proof.
  induction 1 as [| z t Ht IH Hz]; intros Hx; simpl.
  - repeat constructor.
  - destruct (leb x z) eqn:E.
    + apply leb_true in E.
      assert (Hlt : x < z) by (destruct E as [E | E]; [assumption | exfalso; apply Hx; now left]).
      constructor; [now constructor |].
      constructor; [assumption |].
      rewrite Forall_forall in Hz |- *. intros w Hw. specialize (Hz w Hw). lra.
    + apply leb_false in E.
      constructor.
      * apply IH. intros H. apply Hx. now right.
      * rewrite Forall_forall in Hz |- *. intros w Hw.
        apply insertSorted_In in Hw. destruct Hw as [-> | Hw]; [assumption | now apply Hz].
Qed.

Lemma sortAscending_In (l : list R) (y : R) : In y (sortAscending l) <-> In y l.
Proof.
  unfold sortAscending. induction l as [| x t IH]; simpl; [reflexivity |].
  rewrite insertSorted_In, IH. split; intros [H | H]; auto.
Qed.

Lemma sortAscending_ascending (l : list R) :
  NoDup l -> StronglySorted Rlt (sortAscending l).
Proof.
  unfold sortAscending. induction 1 as [| x t Hx Ht IH]; simpl; [constructor |].
  apply insertSorted_ascending; [assumption |].
  intros H. apply Hx. now apply (sortAscending_In t x).
Qed.

Lemma rawNodes_spec (supports : list Support) (s0 : list R) :
  NoDup s0 ->
  NoDup (fold_left (fun s sp => setAdd s (sup_position sp)) supports s0)
  /\ forall y,
       In y (fold_left (fun s sp => setAdd s (sup_position sp)) supports s0)
       <-> In y s0 \/ exists sp, In sp supports /\ sup_position sp = y.
Proof.
  revert s0. induction supports as [| sp t IH]; intros s0 Hs0; simpl.
  - split; [assumption |]. intros y. split; [now left |].
    intros [H | (sp & [] & _)]. assumption.
  - destruct (IH (setAdd s0 (sup_position sp)) (setAdd_NoDup _ _ Hs0)) as [Hn Hi].
    split; [assumption |]. intros y. rewrite Hi, setAdd_In. split.
    + intros [[H | ->] | (sp' & Hsp & E)].
      * now left.
      * right. exists sp. split; [now left | reflexivity].
      * right. exists sp'. split; [now right | assumption].
    + intros [H | (sp' & [<- | Hsp] & E)].
      * left. now left.
      * left. now right.
      * right. now exists sp'.
Qed.

(** The nodes are the two ends of the span and the support positions, each
    once, in strictly ascending order. *)
Theorem nodes_are_ends_and_supports (span : R) (supports : list Support) :
  StronglySorted Rlt (buildNodes span supports)
  /\ forall x : R,
       In x (buildNodes span supports)
       <-> x = 0 \/ x = span \/ exists s, In s supports /\ sup_position s = x.
Proof.
  unfold buildNodes.
  assert (H0 : NoDup (setAdd (setAdd [] 0) span))
    by (apply setAdd_NoDup, setAdd_NoDup; constructor).
  destruct (rawNodes_spec supports _ H0) as [Hn Hi].
  split; [now apply sortAscending_ascending |].
  intros x. rewrite sortAscending_In, Hi, !setAdd_In. simpl. tauto.
Qed.


Lemma nodes_NoDup (span : R) (supports : list Support) :
  NoDup (buildNodes span supports).
Proof.
  destruct (nodes_are_ends_and_supports span supports) as [Hs _].
  induction Hs as [| x t Ht IH Hx]; constructor; [| assumption].
  intros Hin. rewrite Forall_forall in Hx. specialize (Hx x Hin). lra.
Qed.

(** *** Supports and their nodes *)

Lemma findIndexFrom_first {A : Type} (p : A -> bool) (d : A) (l : list A) (k : nat) :
  (exists a, In a l /\ p a = true) ->
  exists i, findIndexFrom p l k = Some (k + i)%nat
            /\ (i < List.length l)%nat
            /\ p (nth i l d) = true
            /\ forall j, (j < i)%nat -> p (nth j l d) = false.
Proof.
  revert k. induction l as [| a t IH]; intros k (b & Hb & Hp); [destruct Hb |].
  simpl. destruct (p a) eqn:Ea.
  - exists 0%nat. rewrite Nat.add_0_r. repeat split; try assumption; [simpl; lia |].
    intros j Hj. lia.
  - destruct Hb as [-> | Hb]; [congruence |].
    destruct (IH (S k) (ex_intro _ b (conj Hb Hp))) as (i & Hi & Hlt & Hpi & Hmin).
    exists (S i). replace (k + S i)%nat with (S k + i)%nat by lia.
    repeat split; try assumption; [simpl; lia |].
    intros [| j] Hj; [assumption | apply Hmin; lia].
Qed.

Lemma upd_length {A : Type} (v : list A) (i : nat) (f : A -> A) :
  List.length (upd v i f) = List.length v.
Proof.
  revert i. induction v as [| a t IH]; intros [| i]; simpl; auto.
Qed.

Lemma nth_upd_same {A : Type} (d : A) (v : list A) (i : nat) (f : A -> A) :
  (i < List.length v)%nat -> nth i (upd v i f) d = f (nth i v d).
Proof.
  revert i. induction v as [| a t IH]; intros [| i] H; simpl in *; try lia; auto.
  apply IH. lia.
Qed.

Lemma nth_upd_other {A : Type} (d : A) (v : list A) (i j : nat) (f : A -> A) :
  i <> j -> nth j (upd v i f) d = nth j v d.
Proof.
  revert i j. induction v as [| a t IH]; intros [| i] [| j] H; simpl; auto; try lia.
Qed.

Lemma mget_madd_same (M : list (list R)) (r c : nat) (x : R) :
  (r < List.length M)%nat -> (c < List.length (nth r M []))%nat ->
  mget (madd M r c x) r c = mget M r c + x.
Proof.
  intros Hr Hc. unfold mget, madd, get, vadd.
  rewrite (nth_upd_same [] M r _ Hr). now rewrite (nth_upd_same 0 _ c _ Hc).
Qed.

Lemma mget_madd_other (M : list (list R)) (r c r' c' : nat) (x : R) :
  r <> r' \/ c <> c' -> mget (madd M r c x) r' c' = mget M r' c'.
Proof.
  intros H. unfold mget, madd, get, vadd.
  destruct (Nat.eq_dec r r') as [<- | Hr].
  - destruct (Nat.lt_ge_cases r (List.length M)) as [Hlt | Hge].
    + rewrite (nth_upd_same [] M r _ Hlt). apply nth_upd_other.
      destruct H as [H | H]; [congruence | assumption].
    + assert (E : upd M r (fun row => upd row c (fun a => a + x)) = M).
      { clear H. revert r Hge. induction M as [| a t IH]; intros [| r] Hge;
          simpl in *; try reflexivity; try lia. f_equal. apply IH. lia. }
      now rewrite E.
  - now rewrite (nth_upd_other [] M r r').
Qed.

(** Every support is snapped to a node less than 1 mm away from it, the
    first such node from the left; when no other node is that close it is
    the node at the support itself.  The penalty then goes on the diagonal
    entry of the vertical degree of freedom of that node, and on the
    rotational one for a fixed support only. *)
Theorem every_support_restrains_a_node (span : R) (supports : list Support)
        (s : Support) :
  In s supports ->
  let nodes := buildNodes span supports in
  exists idx : nat,
    findIndex (fun n => ltb (Rabs (n - sup_position s)) 0.001) nodes = Some idx
    /\ (idx < List.length nodes)%nat
    /\ Rabs (get nodes idx - sup_position s) < 0.001
    /\ ((forall n, In n nodes -> n <> sup_position s ->
                   0.001 <= Rabs (n - sup_position s)) ->
        get nodes idx = sup_position s)
    /\ forall K : list (list R),
         (idx * 2 + 1 < List.length K)%nat ->
         (forall r, (r < List.length K)%nat ->
                    (idx * 2 + 1 < List.length (nth r K []))%nat) ->
         mget (applySupport nodes K s) (idx * 2) (idx * 2)
         = mget K (idx * 2) (idx * 2) + 1e20
         /\ mget (applySupport nodes K s) (idx * 2 + 1) (idx * 2 + 1)
            = mget K (idx * 2 + 1) (idx * 2 + 1)
              + (if isFixed (sup_type s) then 1e20 else 0).
Proof.
  intros Hs nodes.
  assert (Hin : In (sup_position s) nodes).
  { apply (nodes_are_ends_and_supports span supports). right. right. now exists s. }
  assert (Hex : exists a, In a nodes
                          /\ (fun n => ltb (Rabs (n - sup_position s)) 0.001) a = true).
  { exists (sup_position s). split; [assumption |].
    apply ltb_true. rewrite Rminus_diag, Rabs_R0. lra. }
  destruct (findIndexFrom_first _ 0 nodes 0 Hex) as (idx & Hf & Hlt & Hp & _).
  simpl in Hf. apply ltb_true in Hp.
  exists idx. fold (get nodes idx) in Hp.
  split; [exact Hf |]. split; [exact Hlt |]. split; [exact Hp |]. split.
  - intros Hfar.
    destruct (Req_dec_T (get nodes idx) (sup_position s)) as [E | E]; [assumption |].
    assert (Hn : In (get nodes idx) nodes) by (apply nth_In; assumption).
    specialize (Hfar _ Hn E). lra.
  - intros K HK Hrows. unfold applySupport, findIndex. rewrite Hf.
    unfold penalty.
    destruct (isFixed (sup_type s)).
    + split.
      * rewrite mget_madd_other by lia.
        apply mget_madd_same; [lia |]. specialize (Hrows (idx * 2)%nat). lia.
      * rewrite mget_madd_same.
        -- rewrite mget_madd_other by lia. reflexivity.
        -- unfold madd. rewrite upd_length. lia.
        -- unfold madd. rewrite nth_upd_other by lia. apply Hrows. lia.
    + split.
      * apply mget_madd_same; [lia |]. specialize (Hrows (idx * 2)%nat). lia.
      * rewrite mget_madd_other by lia. lra.
Qed.

Lemma simplySupported_nodes :
  buildNodes (span simplySupported) (supports simplySupported) = [0; 5].
Proof. exact SolverProperties.loadOnNode_nodes. Qed.

(** The right-hand pin of the simply supported beam. *)
Lemma every_support_restrains_a_node_witness :
  exists idx : nat,
    findIndex (fun n => ltb (Rabs (n - 5)) 0.001)
              (buildNodes (span simplySupported) (supports simplySupported))
    = Some idx.
Proof.
  destruct (every_support_restrains_a_node
              (span simplySupported) (supports simplySupported)
              (mkSupport "s2" 5 pin)) as (idx & Hf & _).
  - right. now left.
  - exists idx. exact Hf.
Defined.


(** *** The diagram walk *)

Lemma walkStep_fields inp nodes d reactionMap dx w i :
  exists V M y : R,
    w_V (walkStep inp nodes d reactionMap dx w i) = V
    /\ w_M (walkStep inp nodes d reactionMap dx w i) = M
    /\ w_chartDataMoment (walkStep inp nodes d reactionMap dx w i)
       = w_chartDataMoment w ++ [mkSample (Fixed (INR i * dx) 2) (Fixed M 2)]
    /\ w_chartDataShear (walkStep inp nodes d reactionMap dx w i)
       = w_chartDataShear w ++ [mkSample (Fixed (INR i * dx) 2) (Fixed V 2)]
    /\ w_chartDataDeflection (walkStep inp nodes d reactionMap dx w i)
       = w_chartDataDeflection w ++ [mkSample (Fixed (INR i * dx) 2) (Fixed y 3)]
    /\ w_maxMomentPos (walkStep inp nodes d reactionMap dx w i)
       = (if gtb M (w_maxMomentPos w) then M else w_maxMomentPos w)
    /\ w_maxMomentNeg (walkStep inp nodes d reactionMap dx w i)
       = (if ltb M (w_maxMomentNeg w) then M else w_maxMomentNeg w)
    /\ w_maxShear (walkStep inp nodes d reactionMap dx w i)
       = (if gtb (Rabs V) (w_maxShear w) then Rabs V else w_maxShear w)
    /\ w_maxDeflection (walkStep inp nodes d reactionMap dx w i)
       = (if gtb (Rabs y) (Rabs (w_maxDeflection w)) then y else w_maxDeflection w).
Proof.
  unfold walkStep. destruct i as [| i']; cbv zeta.
  - eexists _, _, _. cbn [w_V w_M w_chartDataMoment w_chartDataShear
      w_chartDataDeflection w_maxMomentPos w_maxMomentNeg w_maxShear w_maxDeflection].
    repeat split; reflexivity.
  - eexists _, _, _. cbn [w_V w_M w_chartDataMoment w_chartDataShear
      w_chartDataDeflection w_maxMomentPos w_maxMomentNeg w_maxShear w_maxDeflection].
    repeat split; reflexivity.
Qed.

Lemma walk_grid inp nodes d reactionMap dx (steps : list nat) (w : Walk) :
  let w' := fold_left (walkStep inp nodes d reactionMap dx) steps w in
  map sm_x (w_chartDataMoment w')
  = map sm_x (w_chartDataMoment w) ++ gridOf dx steps
  /\ map sm_x (w_chartDataShear w')
     = map sm_x (w_chartDataShear w) ++ gridOf dx steps
  /\ map sm_x (w_chartDataDeflection w')
     = map sm_x (w_chartDataDeflection w) ++ gridOf dx steps.
Proof.
  revert w. induction steps as [| i t IH]; intros w; simpl.
  - now rewrite !app_nil_r.
  - destruct (IH (walkStep inp nodes d reactionMap dx w i)) as (HM & HV & HD).
    destruct (walkStep_fields inp nodes d reactionMap dx w i)
      as (V & M & y & _ & _ & EM & EV & ED & _).
    cbv zeta. rewrite HM, HV, HD, EM, EV, ED, !map_app. simpl.
    now rewrite <- !app_assoc.
Qed.




Lemma solveBeam_is_a_walk (inp : BeamInput) :
  exists (nodes d : list R) (reactionMap : list (R * Reaction)) (V M : R),
    let w := fold_left (walkStep inp nodes d reactionMap (span inp / INR 200))
                       (seq 0 201) (mkWalk V M [] [] [] 0 0 0 0) in
    solveBeam inp
    = mkSolverResult (w_chartDataMoment w) (w_chartDataShear w)
                     (w_chartDataDeflection w) (w_maxMomentPos w)
                     (w_maxMomentNeg w) (w_maxShear w) (w_maxDeflection w) 0 0.
Proof.
  unfold solveBeam. cbv zeta.
  match goal with
  | |- context [mapGet ?m 0] => destruct (mapGet m 0) as [r |]
  end; eexists _, _, _, _, _; reflexivity.
Qed.

Lemma INR_200 : INR 200 = 200.
Proof. rewrite INR_IZR_INZ. reflexivity. Qed.

(** The three diagrams have 201 samples each, on one grid: the abscissa of
    sample [i] is [i * span / 200] printed with two digits, from 0 to the
    span. *)
Theorem diagrams_share_one_grid (inp : BeamInput) :
  map sm_x (sr_chartDataMoment (solveBeam inp)) = gridOf (span inp / 200) (seq 0 201)
  /\ map sm_x (sr_chartDataShear (solveBeam inp)) = gridOf (span inp / 200) (seq 0 201)
  /\ map sm_x (sr_chartDataDeflection (solveBeam inp))
     = gridOf (span inp / 200) (seq 0 201)
  /\ List.length (sr_chartDataMoment (solveBeam inp)) = 201%nat
  /\ List.length (sr_chartDataShear (solveBeam inp)) = 201%nat
  /\ List.length (sr_chartDataDeflection (solveBeam inp)) = 201%nat.
Proof.
  destruct (solveBeam_is_a_walk inp) as (nodes & d & rm & V & M & E).
  cbv zeta in E. rewrite E. clear E. rewrite INR_200.
  destruct (walk_grid inp nodes d rm (span inp / 200) (seq 0 201)
              (mkWalk V M [] [] [] 0 0 0 0)) as (HM & HV & HD).
  cbv zeta in HM, HV, HD.
  cbn [sr_chartDataMoment sr_chartDataShear sr_chartDataDeflection
       w_chartDataMoment w_chartDataShear w_chartDataDeflection map app] in *.
  split; [exact HM |]. split; [exact HV |]. split; [exact HD |].
  rewrite <- !(length_map sm_x), HM, HV, HD.
  unfold gridOf. rewrite length_map, length_seq. repeat split.
Qed.



(** *** The reaction map *)

Lemma mapGet_mapSet (m : list (R * Reaction)) (k k' : R) (v : Reaction) :
  mapGet (mapSet m k v) k' = if eqb k k' then Some v else mapGet m k'.
Proof.
  induction m as [| [k0 v0] t IH]; simpl.
  - reflexivity.
  - destruct (eqb k0 k) eqn:E0; simpl.
    + apply eqb_true in E0. subst k0. destruct (eqb k k'); reflexivity.
    + rewrite IH. destruct (eqb k0 k') eqn:E1, (eqb k k') eqn:E2; try reflexivity.
      apply eqb_true in E1, E2. subst.
      assert (eqb k' k' = true) by now apply eqb_true. congruence.
Qed.

Lemma reactionMap_lookup (nodes : list R) (f : nat -> Reaction) (n i : nat) :
  NoDup nodes -> (n <= List.length nodes)%nat -> (i < n)%nat ->
  mapGet (fold_left (fun m j => mapSet m (get nodes j) (f j)) (seq 0 n) [])
         (get nodes i)
  = Some (f i).
Proof.
  intros Hnd. induction n as [| n IH]; intros Hn Hi; [lia |].
  rewrite seq_S, fold_left_app. simpl. rewrite mapGet_mapSet.
  destruct (eqb (get nodes n) (get nodes i)) eqn:E.
  - apply eqb_true in E. unfold get in E.
    apply (proj1 (NoDup_nth nodes 0) Hnd) in E; [now subst | lia | lia].
  - apply IH; [lia |].
    destruct (Nat.eq_dec i n) as [-> | Hne]; [| lia].
    assert (eqb (get nodes n) (get nodes n) = true) by now apply eqb_true.
    congruence.
Qed.

(** Every node has its entry in the reaction map, and looking a node up
    gives back the reaction computed for that node; the origin is always a
    node, so the walk always starts from a reaction. *)
Theorem every_node_has_its_reaction (span : R) (supports : list Support)
        (mf : list MemberForce) (pls : list PointLoad) (i : nat) :
  let nodes := buildNodes span supports in
  (i < List.length nodes)%nat ->
  mapGet (buildReactionMap nodes mf pls) (get nodes i)
  = Some (nodeReaction nodes mf pls i)
  /\ mapGet (buildReactionMap nodes mf pls) 0 <> None.
Proof.
  intros nodes Hi. unfold buildReactionMap.
  pose proof (nodes_NoDup span supports) as Hnd. fold nodes in Hnd.
  split.
  - now apply (reactionMap_lookup nodes (nodeReaction nodes mf pls)).
  - assert (H0 : In 0 nodes)
      by (apply (nodes_are_ends_and_supports span supports); now left).
    destruct (In_nth nodes 0 0 H0) as (j & Hj & Ej).
    fold (get nodes j) in Ej. rewrite <- Ej.
    rewrite (reactionMap_lookup nodes (nodeReaction nodes mf pls)); try lia;
      [discriminate | assumption].
Qed.

(** The two nodes of the simply supported beam. *)
Lemma every_node_has_its_reaction_witness :
  mapGet (buildReactionMap (buildNodes 5 (supports simplySupported)) [] []) 0 <> None.
Proof.
  apply (every_node_has_its_reaction 5 (supports simplySupported) [] [] 0).
  change 5 with (span simplySupported). rewrite simplySupported_nodes. simpl. lia.
Defined.


(** *** Equilibrium of the fixed-end actions *)

(** On a beam of one element, the fixed-end actions that step 4 takes out
    of the load vector for a point load anywhere on the element, its ends
    included, carry the whole load: the two vertical entries add up to
    minus the load, and the moments balance about the left-hand node. *)
Theorem point_load_actions_balance (x1 x2 : R) (p : PointLoad) :
  1e-5 <= x2 - x1 ->
  x1 <= pl_position p <= x2 ->
  let F := assemblePoint [x1; x2] [0; 0; 0; 0] p in
  get F 0 + get F 2 = - pl_magnitude p
  /\ get F 1 + get F 3 + get F 2 * (x2 - x1)
     = - pl_magnitude p * (pl_position p - x1).
Proof.
  intros HL [H1 H2].
  unfold assemblePoint. simpl. unfold get. simpl.
  rewrite (proj2 (geb_true (pl_position p) x1)) by lra.
  rewrite (proj2 (leb_true (pl_position p) x2)) by lra.
  rewrite (proj2 (ltb_false (x2 - x1) 1e-5)) by lra.
  simpl. unfold vsub. simpl. split; field; lra.
Qed.

(** A load of 10 kN at mid-span of a 5 m element. *)
Lemma point_load_actions_balance_witness :
  get (assemblePoint [0; 5] [0; 0; 0; 0] (mkPointLoad "p" 2.5 10)) 0
  + get (assemblePoint [0; 5] [0; 0; 0; 0] (mkPointLoad "p" 2.5 10)) 2
  = - 10.
Proof.
  apply (point_load_actions_balance 0 5 (mkPointLoad "p" 2.5 10)); simpl; lra.
Defined.

(** On a beam of one element, the five point loads that stand for the part
    of a trapezoidal load lying on the element carry exactly the area of
    that part; a load that does not reach into the element leaves the load
    vector as it is. *)
Theorem distributed_load_actions_balance (x1 x2 : R) (d : DistributedLoad) :
  let start := Rmax x1 (dl_start d) in
  let end_ := Rmin x2 (dl_end d) in
  let totalLen := dl_end d - dl_start d in
  let slope := (dl_endMagnitude d - dl_startMagnitude d)
               / (if eqb totalLen 0 then 1 else totalLen) in
  let q1 := dl_startMagnitude d + slope * (start - dl_start d) in
  let q2 := dl_startMagnitude d + slope * (end_ - dl_start d) in
  let F := assembleDistributed [x1; x2] [0; 0; 0; 0] d in
  (start < end_ -> get F 0 + get F 2 = - ((end_ - start) * (q1 + q2) / 2))
  /\ (end_ <= start -> F = [0; 0; 0; 0]).
Proof.
  cbv zeta. unfold assembleDistributed. simpl. unfold get. simpl. split; intros H.
  - rewrite (proj2 (gtb_true _ _) H).
    assert (HL : x1 < x2).
    { pose proof (Rmax_l x1 (dl_start d)). pose proof (Rmin_l x2 (dl_end d)). lra. }
    set (st := Rmax x1 (dl_start d)) in *.
    set (en := Rmin x2 (dl_end d)) in *.
    set (sl := (dl_endMagnitude d - dl_startMagnitude d)
               / (if eqb (dl_end d - dl_start d) 0 then 1 else dl_end d - dl_start d)).
    clearbody st en sl.
    simpl. unfold vsub. simpl. replace 0.5 with (1 / 2) by lra. field. lra.
  - now rewrite (proj2 (gtb_false _ _) H).
Qed.

(** A uniform load of 15 kN/m over the whole of a 5 m element: 75 kN. *)
Lemma distributed_load_actions_balance_witness :
  get (assembleDistributed [0; 5] [0; 0; 0; 0] (mkDistributedLoad "d" 0 5 15 15 15)) 0
  + get (assembleDistributed [0; 5] [0; 0; 0; 0] (mkDistributedLoad "d" 0 5 15 15 15)) 2
  = - 75.
Proof.
  pose proof (distributed_load_actions_balance 0 5 (mkDistributedLoad "d" 0 5 15 15 15))
    as [H _].
  cbv zeta in H. simpl in H.
  assert (E1 : Rmax 0 0 = 0) by (unfold Rmax; decide_numbers).
  assert (E2 : Rmin 5 5 = 5) by (unfold Rmin; decide_numbers).
  rewrite E1, E2 in H. rewrite H by lra.
  unfold eqb. settle_numbers. lra.
Defined.

End SolverInvariants.

(** ** Invariants of the beam design *)

Module DesignInvariants.

Import BeamSolver Calculations Samples JsFacts BeamProperties.

(** *** Bars and layers *)

Lemma total_push (l : list Z) (c : Z) : total (push l c) = (total l + c)%Z.
Proof.
  unfold push, total. induction l as [| a t IH]; simpl; [lia | rewrite IH; lia].
Qed.

Lemma total_add_last (l : list Z) (r : Z) :
  l <> [] ->
  total (upd l (List.length l - 1) (fun c => (c + r)%Z)) = (total l + r)%Z.
Proof.
  induction l as [| a t IH]; intros H; [congruence |].
  destruct t as [| b t'].
  - simpl. lia.
  - replace (List.length (a :: b :: t') - 1)%nat
      with (S (List.length (b :: t') - 1)) by (simpl; lia).
    specialize (IH ltac:(discriminate)).
    remember (b :: t') as t eqn:Et. cbn [upd].
    unfold total in *. cbn [fold_right]. rewrite IH. lia.
Qed.

Lemma push_not_nil {A : Type} (l : list A) (x : A) : push l x <> [].
Proof. unfold push. destruct l; discriminate. Qed.

Lemma placeBars_total inp face perLayer free remaining layerCounts v msgs :
  (0 < remaining)%Z ->
  layerCounts <> [] \/ (1 <= free)%nat ->
  total (fst (fst (placeBars inp face perLayer free remaining layerCounts v msgs)))
  = (total layerCounts + remaining)%Z.
Proof.
  revert remaining layerCounts.
  induction free as [| free IH]; intros remaining layerCounts Hr Hl; simpl.
  - rewrite (proj2 (Z.ltb_lt 0 remaining) Hr). simpl.
    destruct Hl as [Hl | Hl]; [| lia]. now apply total_add_last.
  - rewrite (proj2 (Z.ltb_lt 0 remaining) Hr).
    destruct (Z.lt_ge_cases 0 (remaining - Z.min remaining perLayer)) as [Hpos | Hz].
    + rewrite IH; [| assumption | left; apply push_not_nil].
      rewrite total_push. lia.
    + destruct free as [| free']; simpl;
        rewrite (proj2 (Z.ltb_ge 0 _) Hz); simpl; rewrite total_push; lia.
Qed.

Lemma placeBars_length inp face perLayer free remaining layerCounts v msgs :
  (List.length (fst (fst (placeBars inp face perLayer free remaining layerCounts v msgs)))
   <= List.length layerCounts + free)%nat.
Proof.
  revert remaining layerCounts.
  induction free as [| free IH]; intros remaining layerCounts; simpl;
    destruct (0 <? remaining)%Z; simpl; try lia.
  - rewrite SolverInvariants.upd_length. lia.
  - etransitivity; [apply IH |]. unfold push. rewrite length_app. simpl. lia.
Qed.


Lemma placeBars_fits inp face perLayer free remaining layerCounts v msgs :
  (1 <= perLayer)%Z ->
  snd (fst (placeBars inp face perLayer free remaining layerCounts v msgs))
  = v && (remaining <=? perLayer * Z.of_nat free)%Z.
Proof.
  intros Hp. revert remaining layerCounts.
  induction free as [| free IH]; intros remaining layerCounts.
  - simpl. destruct (0 <? remaining)%Z eqn:E; simpl.
    + apply Z.ltb_lt in E. rewrite (proj2 (Z.leb_gt _ _)) by lia.
      now rewrite andb_false_r.
    + apply Z.ltb_ge in E. rewrite (proj2 (Z.leb_le _ _)) by lia.
      now rewrite andb_true_r.
  - cbn [placeBars]. destruct (0 <? remaining)%Z eqn:E.
    + apply Z.ltb_lt in E. rewrite IH. f_equal.
      destruct (remaining <=? perLayer * Z.of_nat (S free))%Z eqn:E1.
      * apply Z.leb_le in E1. apply Z.leb_le. lia.
      * apply Z.leb_gt in E1. apply Z.leb_gt. lia.
    + apply Z.ltb_ge in E. cbn [fst snd].
      rewrite (proj2 (Z.leb_le _ _)) by lia. now rewrite andb_true_r.
Qed.

Lemma placeBars_too_narrow inp face perLayer free remaining layerCounts v msgs :
  (perLayer <= 0)%Z -> (0 < remaining)%Z ->
  snd (fst (placeBars inp face perLayer free remaining layerCounts v msgs)) = false.
Proof.
  intros Hp. revert remaining layerCounts.
  induction free as [| free IH]; intros remaining layerCounts Hr; cbn [placeBars];
    rewrite (proj2 (Z.ltb_lt 0 remaining) Hr); [reflexivity |].
  apply IH. lia.
Qed.

Lemma placeBars_layers_fit inp face perLayer free remaining layerCounts v msgs :
  (1 <= perLayer)%Z ->
  (remaining <= perLayer * Z.of_nat free)%Z ->
  Forall (fun c => (1 <= c <= perLayer)%Z) layerCounts ->
  Forall (fun c => (1 <= c <= perLayer)%Z)
         (fst (fst (placeBars inp face perLayer free remaining layerCounts v msgs))).
Proof.
  intros Hp. revert remaining layerCounts.
  induction free as [| free IH]; intros remaining layerCounts Hr Hl; cbn [placeBars];
    destruct (0 <? remaining)%Z eqn:E; cbn [fst]; try assumption.
  - apply Z.ltb_lt in E. lia.
  - apply Z.ltb_lt in E. apply IH; [lia |].
    unfold push. apply Forall_app. split; [assumption |].
    constructor; [lia | constructor].
Qed.

Lemma calculateReinforcement_layout inp log M barDia face :
  let r := fst (calculateReinforcement inp log M barDia face) in
  exists msgs : list text,
    let placed := placeBars inp face (maxBarsPerLayer inp barDia)
                            (Z.to_nat (layers inp)) (count r) []
                            (negb (gtb (Kmd inp M barDia) KmdLimit)) msgs in
    fr_layers r = fst (fst placed) /\ valid r = snd (fst placed).
Proof.
  pose proof (calculateReinforcement_fields inp log M barDia face) as (Ha & Hc & _).
  cbv zeta in *. revert Ha Hc. unfold calculateReinforcement.
  assert (Hv : snd (fst (flexure inp log M barDia face))
               = negb (gtb (Kmd inp M barDia) KmdLimit)).
  { unfold flexure. destruct (gtb (Kmd inp M barDia) KmdLimit); reflexivity. }
  destruct (flexure inp log M barDia face) as [[a v] l]. simpl in Hv. subst v.
  destruct (adoptedSteel inp (lg_memory l) M a) as [a' memory].
  destruct (placeBars inp face (maxBarsPerLayer inp barDia) (Z.to_nat (layers inp))
              (numberOfBars inp M a' barDia) []
              (negb (gtb (Kmd inp M barDia) KmdLimit)) (lg_messages l))
    as [[lc v'] ms] eqn:Ep.
  simpl. intros _ _. exists (lg_messages l). now rewrite Ep.
Qed.

(** With at least one layer allowed, the layers of a face hold all of its
    bars, those that do not fit included (they go to the last layer), and
    there are never more layers than allowed.  With no layer allowed the
    face has no layer at all and is not valid. *)
Theorem layers_hold_every_bar (inp : BeamInput) (log : Log) (M barDia : R)
        (face : Face) :
  let r := fst (calculateReinforcement inp log M barDia face) in
  ((1 <= layers inp)%Z -> total (fr_layers r) = count r)
  /\ (List.length (fr_layers r) <= Z.to_nat (layers inp))%nat
  /\ ((layers inp <= 0)%Z -> fr_layers r = [] /\ valid r = false).
Proof.
  destruct (calculateReinforcement_layout inp log M barDia face) as (msgs & Hl & Hv).
  pose proof (calculateReinforcement_fields inp log M barDia face) as (_ & Hc & _).
  cbv zeta in *.
  set (r := fst (calculateReinforcement inp log M barDia face)) in *.
  assert (Hcount : (2 <= count r)%Z) by (rewrite Hc; apply numberOfBars_ge_2).
  rewrite Hl, Hv. split; [| split].
  - intros H. rewrite placeBars_total; [reflexivity | lia | right; lia].
  - apply (placeBars_length inp face _ (Z.to_nat (layers inp)) (count r) []).
  - intros H. replace (Z.to_nat (layers inp)) with 0%nat by lia.
    cbn [placeBars]. rewrite (proj2 (Z.ltb_lt 0 (count r))) by lia.
    split; reflexivity.
Qed.

(** A face with one layer allowed. *)
Lemma layers_hold_every_bar_witness :
  total (fr_layers (fst (calculateReinforcement simplySupported (mkLog [] []) 70 10 bottom)))
  = count (fst (calculateReinforcement simplySupported (mkLog [] []) 70 10 bottom)).
Proof.
  apply (layers_hold_every_bar simplySupported (mkLog [] []) 70 10 bottom).
  simpl. lia.
Defined.

(** A face is valid exactly when its section is sufficient
    ([Kmd <= 0.45]), at least one bar fits in a layer, and its bars fit in
    the layers allowed; its layers then hold between one bar and the most
    that fit in a layer. *)
Theorem face_is_valid_when_it_fits (inp : BeamInput) (log : Log) (M barDia : R)
        (face : Face) :
  let r := fst (calculateReinforcement inp log M barDia face) in
  let perLayer := maxBarsPerLayer inp barDia in
  valid r
  = negb (gtb (Kmd inp M barDia) 0.45)
    && (1 <=? perLayer)%Z
    && (count r <=? perLayer * Z.max 0 (layers inp))%Z
  /\ (valid r = true ->
      Forall (fun c => (1 <= c <= perLayer)%Z) (fr_layers r)).
Proof.
  destruct (calculateReinforcement_layout inp log M barDia face) as (msgs & Hl & Hv).
  pose proof (calculateReinforcement_fields inp log M barDia face) as (_ & Hc & _).
  cbv zeta in *.
  set (r := fst (calculateReinforcement inp log M barDia face)) in *.
  assert (Hcount : (2 <= count r)%Z) by (rewrite Hc; apply numberOfBars_ge_2).
  assert (Hn : Z.of_nat (Z.to_nat (layers inp)) = Z.max 0 (layers inp)) by lia.
  fold KmdLimit.
  destruct (1 <=? maxBarsPerLayer inp barDia)%Z eqn:Ep.
  - apply Z.leb_le in Ep. rewrite Hv, placeBars_fits by assumption.
    rewrite Hn, andb_true_r. split; [reflexivity |].
    intros Hval. apply andb_prop in Hval. destruct Hval as [_ Hfit].
    apply Z.leb_le in Hfit. rewrite Hl.
    apply placeBars_layers_fit; [assumption | lia | constructor].
  - apply Z.leb_gt in Ep. rewrite Hv.
    rewrite placeBars_too_narrow by lia.
    rewrite andb_false_r. split; [reflexivity | discriminate].
Qed.


(** *** Steel areas *)

(** The minimum ratio of table 17.3 never decreases with the concrete
    grade and stays between 0.150 % and 0.208 %. *)
Theorem getRhoMin_is_monotone (fck fck' : R) :
  0.150 <= getRhoMin fck <= 0.208
  /\ (fck <= fck' -> getRhoMin fck <= getRhoMin fck').
Proof.
  unfold getRhoMin, leb.
  repeat match goal with
         | |- context [Rle_dec ?a ?b] => destruct (Rle_dec a b)
         end; lra.
Qed.

(** From C25 to C40 the ratio goes from 0.150 % to 0.179 %. *)
Lemma getRhoMin_is_monotone_witness : getRhoMin 25 <= getRhoMin 40.
Proof. apply (getRhoMin_is_monotone 25 40). lra. Defined.

(** The steel area a face asks for is the larger of the minimum area
    [rho_min / 100 * b * h] and the flexural area, and the flexural area
    counts for nothing when the design moment is under 0.5 kN.m or the
    section is insufficient.  With a bar diameter that is not zero, the
    bars provided cover the minimum area too. *)
Theorem required_steel_is_the_larger (inp : BeamInput) (log : Log) (M barDia : R)
        (face : Face) :
  let r := fst (calculateReinforcement inp log M barDia face) in
  as_req r
  = Rmax (getRhoMin (fck inp) / 100 * width inp * height inp)
         (if ltb M 0.5 || gtb (Kmd inp M barDia) 0.45 then 0
          else As_calc inp M barDia)
  /\ (barDia <> 0 ->
      getRhoMin (fck inp) / 100 * width inp * height inp <= as_provided r).
Proof.
  pose proof (calculateReinforcement_fields inp log M barDia face)
    as (Ha & Hc & Hp & _).
  cbv zeta in *.
  assert (Hreq : as_req (fst (calculateReinforcement inp log M barDia face))
                 = Rmax (As_min inp)
                        (if ltb M 0.5 || gtb (Kmd inp M barDia) 0.45 then 0
                         else As_calc inp M barDia)).
  { rewrite Ha. unfold adopted, isConstructive. fold KmdLimit.
    assert (Hf : fst (fst (flexure inp log M barDia face))
                 = if gtb (Kmd inp M barDia) KmdLimit then 0
                   else As_calc inp M barDia).
    { unfold flexure. destruct (gtb (Kmd inp M barDia) KmdLimit); reflexivity. }
    rewrite Hf.
    destruct (ltb M 0.5), (gtb (Kmd inp M barDia) KmdLimit); simpl;
      unfold ltb, Rmax; destruct (Rlt_dec _ _), (Rle_dec _ _); lra. }
  split; [exact Hreq |].
  intros Hd. apply Rle_trans with (as_req (fst (calculateReinforcement inp log M barDia face))).
  - rewrite Hreq. apply Rmax_l.
  - rewrite Hp, Hc, Ha. now apply numberOfBars_covers.
Qed.

(** 10 mm bars. *)
Lemma required_steel_is_the_larger_witness :
  getRhoMin (fck simplySupported) / 100 * width simplySupported * height simplySupported
  <= as_provided (fst (calculateReinforcement simplySupported (mkLog [] []) 70 10 bottom)).
Proof.
  apply (required_steel_is_the_larger simplySupported (mkLog [] []) 70 10 bottom). lra.
Defined.

(** *** The capacity of a section *)

(** With a positive width, effective depth and concrete strength, a face
    is insufficient exactly when its design moment (kN.m) exceeds
    [0.0045 * b * d^2 * fcd], with [b], [d] in cm and [fcd] in kN/cm2. *)
Theorem section_capacity (inp : BeamInput) (M barDia : R) :
  0 < width inp -> d_face inp barDia <> 0 -> 0 < fck inp ->
  (gtb (Kmd inp M barDia) 0.45 = true
   <-> 0.0045 * width inp * (d_face inp barDia * d_face inp barDia)
       * fcd_kN_cm2 inp < M).
Proof.
  intros Hw Hd Hf. rewrite gtb_true. unfold Kmd, sq.
  assert (Hd2 : 0 < d_face inp barDia * d_face inp barDia) by nra.
  assert (Hfc : 0 < fcd_kN_cm2 inp) by (unfold fcd_kN_cm2, GAMMA_C; lra).
  set (D := width inp * (d_face inp barDia * d_face inp barDia) * fcd_kN_cm2 inp).
  assert (HD : 0 < D) by (unfold D; apply Rmult_lt_0_compat; [nra | assumption]).
  replace (0.0045 * width inp * (d_face inp barDia * d_face inp barDia)
           * fcd_kN_cm2 inp) with (0.0045 * D) by (unfold D; ring).
  split; intros H.
  - apply (Rmult_lt_compat_r D) in H; [| assumption].
    replace (M * 100 / D * D) with (M * 100) in H by (field; lra). lra.
  - apply (Rmult_lt_reg_r D); [assumption |].
    replace (M * 100 / D * D) with (M * 100) by (field; lra). lra.
Qed.

(** The 20 x 40 beam with 10 mm bars ([d = 36.5] cm) carries about
    214 kN.m: 280 kN.m is too much. *)
Lemma section_capacity_witness : gtb (Kmd simplySupported 280 10) 0.45 = true.
Proof.
  apply (section_capacity simplySupported 280 10).
  - simpl. lra.
  - unfold d_face. simpl. lra.
  - simpl. lra.
  - unfold d_face, fcd_kN_cm2, GAMMA_C. simpl. lra.
Defined.

(** For [Kmd] up to one half, the neutral-axis ratio the code computes is
    the root of [Kmd = 0.8 * beta_x * (1 - 0.4 * beta_x)], the lever-arm
    ratio is [beta_z = 1 - 0.4 * beta_x], and 0 <= Kmd <= 0.45 keeps it
    above one half and at most one. *)
Theorem beta_x_solves_the_block (K : R) :
  K <= 0.5 ->
  0.8 * beta_x K * beta_z K = K
  /\ (0 <= K <= 0.45 -> 0 <= beta_x K /\ 0.5 < beta_z K <= 1).
Proof.
  intros HK. unfold beta_z, beta_x.
  assert (Hs : sqrt (1 - 2 * K) * sqrt (1 - 2 * K) = 1 - 2 * K)
    by (apply sqrt_sqrt; lra).
  pose proof (sqrt_pos (1 - 2 * K)) as Hp.
  split; [nra |].
  intros [H0 H1].
  assert (Hle : sqrt (1 - 2 * K) <= 1).
  { rewrite <- sqrt_1 at 2. apply sqrt_le_1_alt. lra. }
  assert (Hgt : 0 < sqrt (1 - 2 * K)) by (apply sqrt_lt_R0; lra).
  split; [lra | split; lra].
Qed.

Lemma beta_x_solves_the_block_witness : 0.8 * beta_x 0.375 * beta_z 0.375 = 0.375.
Proof. apply (beta_x_solves_the_block 0.375). lra. Defined.


(** *** Alternatives *)

Lemma soundAlternative_more (inp : BeamInput) (ds : list R) (d : R)
      (a : ReinforcementOption) :
  soundAlternative inp ds a -> soundAlternative inp (ds ++ [d]) a.
Proof.
  unfold soundAlternative. intros (H & Hrest). split; [| exact Hrest].
  apply in_or_app. now left.
Qed.

Lemma alternativeFor_sound (inp : BeamInput) (Mc : R) (ds : list R) (dia : R)
      (alternatives : list ReinforcementOption) :
  Forall (soundAlternative inp ds) alternatives ->
  (List.length alternatives <= List.length ds)%nat ->
  Forall (soundAlternative inp (ds ++ [dia])) (alternativeFor inp Mc alternatives dia)
  /\ (List.length (alternativeFor inp Mc alternatives dia)
      <= List.length (ds ++ [dia]))%nat.
Proof.
  intros Hall Hlen.
  assert (Hold : Forall (soundAlternative inp (ds ++ [dia])) alternatives).
  { eapply Forall_impl; [| exact Hall]. intros a. apply soundAlternative_more. }
  assert (Hlen' : (List.length alternatives <= List.length (ds ++ [dia]))%nat)
    by (rewrite length_app; simpl; lia).
  unfold alternativeFor.
  destruct (ltb dia 6.3) eqn:Ed; [split; assumption |].
  apply ltb_false in Ed.
  fold (maxBarsPerLayer inp dia). fold (As_min inp). fold (barArea dia).
  set (target := Rmax _ (As_min inp)).
  set (c0 := ceil (target / barArea dia)).
  set (c := if (c0 <? 2)%Z then 2%Z else c0).
  assert (Hc2 : (2 <= c)%Z).
  { unfold c. destruct (c0 <? 2)%Z eqn:E; [lia | now apply Z.ltb_ge in E]. }
  assert (Hc0 : (c0 <= c)%Z).
  { unfold c. destruct (c0 <? 2)%Z eqn:E; [apply Z.ltb_lt in E; lia | lia]. }
  assert (Hpos : 0 < barArea dia) by (apply barArea_pos; lra).
  assert (Harea : As_min inp <= IZR c * barArea dia).
  { apply Rle_trans with target; [apply Rmax_r |].
    now apply at_least_ceil. }
  assert (Hnew : forall l, (c <=? 16)%Z = true -> (1 <= l <= 3)%Z ->
                           (c <= maxBarsPerLayer inp dia * l)%Z ->
                           soundAlternative inp (ds ++ [dia])
                             (mkOption dia c (IZR c * barArea dia) l true)).
  { intros l H16 Hl Hfit. apply Z.leb_le in H16.
    unfold soundAlternative. simpl.
    repeat split; try assumption; try lia.
    apply in_or_app. right. now left. }
  destruct (c <=? maxBarsPerLayer inp dia)%Z eqn:E1;
    [| destruct (c <=? maxBarsPerLayer inp dia * 2)%Z eqn:E2;
       [| destruct (c <=? maxBarsPerLayer inp dia * 3)%Z eqn:E3]];
    cbn [andb]; try (split; assumption);
    destruct (c <=? 16)%Z eqn:E16; try (split; assumption).
  - split.
    + unfold push. apply Forall_app. split; [assumption |].
      constructor; [| constructor]. apply Hnew; [reflexivity | lia |].
      apply Z.leb_le in E1. lia.
    + unfold push. rewrite !length_app. simpl. lia.
  - split.
    + unfold push. apply Forall_app. split; [assumption |].
      constructor; [| constructor]. apply Hnew; [reflexivity | lia |].
      apply Z.leb_le in E2. lia.
    + unfold push. rewrite !length_app. simpl. lia.
  - split.
    + unfold push. apply Forall_app. split; [assumption |].
      constructor; [| constructor]. apply Hnew; [reflexivity | lia |].
      apply Z.leb_le in E3. lia.
    + unfold push. rewrite !length_app. simpl. lia.
Qed.

Lemma alternatives_sound (inp : BeamInput) (Mc : R) (ds done : list R)
      (alternatives : list ReinforcementOption) :
  Forall (soundAlternative inp done) alternatives ->
  (List.length alternatives <= List.length done)%nat ->
  Forall (soundAlternative inp (done ++ ds))
         (fold_left (alternativeFor inp Mc) ds alternatives)
  /\ (List.length (fold_left (alternativeFor inp Mc) ds alternatives)
      <= List.length (done ++ ds))%nat.
Proof.
  revert done alternatives.
  induction ds as [| d t IH]; intros done alternatives Hall Hlen; simpl.
  - rewrite app_nil_r. split; assumption.
  - destruct (alternativeFor_sound inp Mc done d alternatives Hall Hlen) as [H1 H2].
    specialize (IH (done ++ [d]) _ H1 H2).
    now rewrite <- app_assoc in IH.
Qed.

Lemma designBeam_alternatives (inp : BeamInput) (sr : SolverResult) :
  alternativeReinforcement (designBeam inp sr)
  = Some (fold_left (alternativeFor inp (Rmax (M_d_pos sr) (M_d_neg sr)))
                    BAR_DIAMETERS []).
Proof.
  unfold designBeam.
  destruct (calculateReinforcement inp _ (M_d_pos sr) _ bottom) as [b l1].
  destruct (calculateReinforcement inp l1 (M_d_neg sr) (topBarDia inp) top) as [t l2].
  destruct (ltb (rho_sw_provided inp) (rho_sw_min inp)); reflexivity.
Qed.

(** The alternatives offered for a beam are at most seven, one per
    commercial diameter from 6.3 mm up; each has between 2 and 16 bars in
    1 to 3 layers that can hold them, an area equal to its count times
    the area of one bar, and covers the minimum steel area. *)
Theorem alternatives_are_sound (inp : BeamInput) (sr : SolverResult) :
  exists alternatives : list ReinforcementOption,
    alternativeReinforcement (designBeam inp sr) = Some alternatives
    /\ Forall (soundAlternative inp BAR_DIAMETERS) alternatives
    /\ (List.length alternatives <= 7)%nat.
Proof.
  eexists. split; [apply designBeam_alternatives |].
  apply (alternatives_sound inp _ BAR_DIAMETERS [] []); [constructor | simpl; lia].
Qed.


(** *** Messages and validity *)

Lemma placeBars_messages inp face perLayer free remaining layerCounts v msgs :
  let out := placeBars inp face perLayer free remaining layerCounts v msgs in
  (snd (fst out) = true -> snd out = msgs)
  /\ (v = true -> snd (fst out) = false -> In (fitMessage inp face) (snd out))
  /\ (snd out = msgs \/ snd out = push msgs (fitMessage inp face)).
Proof.
  revert remaining layerCounts.
  induction free as [| free IH]; intros remaining layerCounts; cbn [placeBars];
    destruct (0 <? remaining)%Z; cbn [fst snd].
  - split; [discriminate |]. split; [intros _ _; apply push_In | now right].
  - split; [reflexivity |]. split; [congruence | now left].
  - apply IH.
  - split; [reflexivity |]. split; [congruence | now left].
Qed.

Lemma calculateReinforcement_messages inp log M barDia face :
  let out := calculateReinforcement inp log M barDia face in
  (valid (fst out) = true -> lg_messages (snd out) = lg_messages log)
  /\ (valid (fst out) = false ->
      In (sectionMessage face) (lg_messages (snd out))
      \/ In (fitMessage inp face) (lg_messages (snd out))).
Proof.
  cbv zeta. unfold calculateReinforcement.
  assert (Hf : (snd (fst (flexure inp log M barDia face)) = true
                /\ lg_messages (snd (flexure inp log M barDia face)) = lg_messages log)
               \/ (snd (fst (flexure inp log M barDia face)) = false
                   /\ In (sectionMessage face)
                         (lg_messages (snd (flexure inp log M barDia face))))).
  { unfold flexure. destruct (gtb (Kmd inp M barDia) KmdLimit); cbn [fst snd lg_messages].
    - right. split; [reflexivity | apply push_In].
    - left. split; reflexivity. }
  destruct (flexure inp log M barDia face) as [[a v] l]. cbn [fst snd] in Hf.
  destruct (adoptedSteel inp (lg_memory l) M a) as [a' memory].
  pose proof (placeBars_messages inp face (maxBarsPerLayer inp barDia)
                (Z.to_nat (layers inp)) (numberOfBars inp M a' barDia) [] v
                (lg_messages l)) as (Hok & Hbad & _).
  pose proof (placeBars_keeps_messages inp face (maxBarsPerLayer inp barDia)
                (Z.to_nat (layers inp)) (numberOfBars inp M a' barDia) [] v
                (lg_messages l)) as Hkeep.
  pose proof (placeBars_keeps_invalid inp face (maxBarsPerLayer inp barDia)
                (Z.to_nat (layers inp)) (numberOfBars inp M a' barDia) []
                (lg_messages l)) as Hinv.
  cbv zeta in Hok, Hbad.
  destruct (placeBars inp face (maxBarsPerLayer inp barDia) (Z.to_nat (layers inp))
              (numberOfBars inp M a' barDia) [] v (lg_messages l))
    as [[lc v'] ms] eqn:Ep.
  cbn [fst snd valid lg_messages] in *.
  destruct Hf as [[-> Hl] | [-> Hin]].
  - split.
    + intros Hv. rewrite (Hok Hv). exact Hl.
    + intros Hv. right. now apply Hbad.
  - rewrite Ep in Hinv. cbn [fst snd] in Hinv. subst v'.
    split; [discriminate |]. intros _. left. now apply Hkeep.
Qed.

(** A beam result is invalid only with an error message that says why
    (insufficient section, bars that do not fit, stirrup ratio), and a
    valid result carries no message but the deflection warning, if any. *)
Theorem invalid_beam_says_why (inp : BeamInput) (sr : SolverResult) :
  (isValid (designBeam inp sr) = false ->
   exists m, In m (messages (designBeam inp sr)) /\ beamError inp m)
  /\ (isValid (designBeam inp sr) = true ->
      messages (designBeam inp sr) = firstMessages inp sr
      /\ (List.length (messages (designBeam inp sr)) <= 1)%nat).
Proof.
  unfold designBeam. fold (firstMessages inp sr).
  pose proof (calculateReinforcement_messages
                inp (mkLog (memoryHeader inp) (firstMessages inp sr))
                (M_d_pos sr) (longitudinalBarDiameter inp) bottom) as [Hb1 Hb0].
  cbv zeta in Hb1, Hb0.
  destruct (calculateReinforcement inp (mkLog (memoryHeader inp) (firstMessages inp sr))
              (M_d_pos sr) (longitudinalBarDiameter inp) bottom) as [b l1].
  pose proof (calculateReinforcement_messages inp l1 (M_d_neg sr) (topBarDia inp) top)
    as [Ht1 Ht0].
  pose proof (calculateReinforcement_keeps_messages inp l1 (M_d_neg sr) (topBarDia inp)
                top) as Hkeep.
  cbv zeta in Ht1, Ht0.
  destruct (calculateReinforcement inp l1 (M_d_neg sr) (topBarDia inp) top) as [t l2].
  cbn [fst snd lg_messages] in *.
  assert (Hlen : (List.length (firstMessages inp sr) <= 1)%nat).
  { unfold firstMessages. destruct (gtb _ _); simpl; lia. }
  destruct (ltb (rho_sw_provided inp) (rho_sw_min inp));
    cbn [isValid messages].
  - split; [| discriminate]. intros _. exists stirrupMessage.
    split; [apply push_In | unfold beamError; tauto].
  - destruct (valid b) eqn:Eb, (valid t) eqn:Et; cbn [negb orb].
    + split; [discriminate |]. intros _.
      rewrite (Ht1 eq_refl), (Hb1 eq_refl). cbn [lg_messages]. split; [reflexivity | assumption].
    + split; [| discriminate]. intros _.
      destruct (Ht0 eq_refl) as [H | H];
        [exists (sectionMessage top) | exists (fitMessage inp top)];
        (split; [assumption | unfold beamError; tauto]).
    + split; [| discriminate]. intros _.
      destruct (Hb0 eq_refl) as [H | H];
        [exists (sectionMessage bottom) | exists (fitMessage inp bottom)];
        (split; [now apply Hkeep | unfold beamError; tauto]).
    + split; [| discriminate]. intros _.
      destruct (Ht0 eq_refl) as [H | H];
        [exists (sectionMessage top) | exists (fitMessage inp top)];
        (split; [assumption | unfold beamError; tauto]).
Qed.

End DesignInvariants.

(** ** Invariants of the column design *)

Module ColumnInvariants.

Import Calculations Samples JsFacts ColumnProperties.

(** *** Validity *)

Lemma sectionChecks_spec (inp : ColumnInput) :
  fst (sectionChecks inp)
  = negb (gtb (nu inp) 1.0) && negb (gtb (As_final inp) (As_max inp))
  /\ (fst (sectionChecks inp) = false ->
      In crushingMessage (snd (sectionChecks inp))
      \/ In (overReinforcedMessage inp) (snd (sectionChecks inp)))
  /\ (fst (sectionChecks inp) = true -> snd (sectionChecks inp) = []).
Proof.
  unfold sectionChecks.
  destruct (gtb (nu inp) 1.0), (gtb (As_final inp) (As_max inp)); cbn [fst snd negb andb].
  - split; [reflexivity |]. split; [| discriminate]. intros _. right. apply push_In.
  - split; [reflexivity |]. split; [| discriminate]. intros _. left. apply push_In.
  - split; [reflexivity |]. split; [| discriminate]. intros _. right. apply push_In.
  - split; [reflexivity |]. split; [discriminate | reflexivity].
Qed.

Lemma stirrupChecks_keeps (inp : ColumnInput) (msgs : list text) (m : text) :
  In m msgs -> In m (snd (stirrupChecks inp msgs)).
Proof.
  intros H. unfold stirrupChecks.
  destruct (ltb (c_stirrupDiameter inp) (minStirrupDiaRule inp)),
    (gtb (c_stirrupSpacing inp) (maxSpacingRule inp)); cbn [snd];
    repeat apply push_keeps; assumption.
Qed.

Lemma stirrupChecks_only_warns (inp : ColumnInput) (m : text) :
  In m (snd (stirrupChecks inp [])) ->
  m = stirrupDiaWarning inp \/ m = stirrupSpacingWarning inp.
Proof.
  unfold stirrupChecks, push.
  destruct (ltb (c_stirrupDiameter inp) (minStirrupDiaRule inp)),
    (gtb (c_stirrupSpacing inp) (maxSpacingRule inp)); cbn [snd app];
    simpl; intuition.
Qed.

(** A column result is valid exactly when the slenderness is at most 140,
    the reduced axial force at most 1 and the steel area at most 4 % of
    the section.  An invalid result carries the message that says why; a
    valid one carries stirrup warnings only, and its steel area lies
    between 0.4 % and 4 % of the section. *)
Theorem column_is_valid_when (inp : ColumnInput) :
  (isValid (calculateColumn inp) = true
   <-> maxLambda inp <= 140 /\ nu inp <= 1 /\ As_final inp <= As_max inp)
  /\ (isValid (calculateColumn inp) = false ->
      exists m, In m (messages (calculateColumn inp)) /\ columnError inp m)
  /\ (isValid (calculateColumn inp) = true ->
      (forall m, In m (messages (calculateColumn inp)) ->
                 m = stirrupDiaWarning inp \/ m = stirrupSpacingWarning inp)
      /\ 0.004 * (c_widthX inp * c_widthY inp) <= As_final inp
         <= 0.04 * (c_widthX inp * c_widthY inp)).
Proof.
  destruct (sectionChecks_spec inp) as (Hv & Hbad & Hok).
  destruct (Rle_dec (maxLambda inp) 140) as [Hl | Hl].
  - rewrite (calculateColumn_isValid inp Hl), (calculateColumn_messages inp Hl).
    assert (Hiff : fst (sectionChecks inp) = true
                   <-> nu inp <= 1 /\ As_final inp <= As_max inp).
    { rewrite Hv. rewrite andb_true_iff, !negb_true_iff, !gtb_false.
      split; intros [H1 H2]; split; lra. }
    split; [| split].
    + rewrite Hiff. tauto.
    + intros H. destruct (Hbad H) as [Hm | Hm].
      * exists crushingMessage. split; [now apply stirrupChecks_keeps |].
        unfold columnError. tauto.
      * exists (overReinforcedMessage inp). split; [now apply stirrupChecks_keeps |].
        unfold columnError. tauto.
    + intros H. split.
      * rewrite (Hok H). apply stirrupChecks_only_warns.
      * apply Hiff in H. destruct H as [_ Hmax]. split.
        -- unfold As_final, c_As_min.
           apply Rle_trans with (0.004 * Ac inp * 10000).
           ++ unfold Ac, hx, hy. lra.
           ++ eapply Rle_trans; [apply Rmax_r | apply Rmax_r].
        -- unfold As_max, Ac, hx, hy in Hmax. lra.
  - assert (Hs : 140 < maxLambda inp) by lra.
    rewrite (calculateColumn_slender inp Hs). cbn [isValid messages slenderResult].
    split; [| split].
    + split; [discriminate | lra].
    + intros _. exists (slendernessMessage inp). split; [now left |].
      unfold columnError. tauto.
    + discriminate.
Qed.

(** *** Second-order moments *)

(** Under a compressive load and with positive sides, the second-order
    eccentricity is never negative, so the total moment of an axis is
    never below its first-order minimum, and the minimum eccentricity is
    at least 1.5 cm. *)
Theorem second_order_never_reduces (inp : ColumnInput) :
  0 <= c_axialLoad inp -> 0 < c_widthX inp -> 0 < c_widthY inp ->
  0.015 <= e_min_x inp /\ 0.015 <= e_min_y inp
  /\ 0 <= e2 (secondOrderX inp) /\ M1d_min_x inp <= M_tot_x inp
  /\ 0 <= e2 (secondOrderY inp) /\ M1d_min_y inp <= M_tot_y inp.
Proof.
  intros HN Hx Hy.
  assert (HNd : 0 <= Nd inp) by (unfold Nd, GAMMA_F; lra).
  assert (Hhx : 0 < hx inp) by (unfold hx; lra).
  assert (Hhy : 0 < hy inp) by (unfold hy; lra).
  assert (Hcurv : forall h c : R, 0 < h ->
             0 <= (le inp * le inp / 10)
                  * (if ltb c (0.005 / h) then 0.005 / h else c)).
  { intros h c Hh.
    assert (H1 : 0 < 0.005 / h) by (apply Rdiv_lt_0_compat; lra).
    assert (H2 : 0 <= le inp * le inp / 10) by nra.
    apply Rmult_le_pos; [assumption |].
    unfold ltb. destruct (Rlt_dec c (0.005 / h)); lra. }
  split; [unfold e_min_x; lra |]. split; [unfold e_min_y; lra |].
  unfold M_tot_x, M_tot_y, secondOrderX, secondOrderY, calcSecondOrder.
  destruct (gtb (lambdaX inp) lambda_1), (leb (lambdaX inp) lambda_1),
    (gtb (lambdaY inp) lambda_1), (leb (lambdaY inp) lambda_1);
    cbn [Mtot e2];
    repeat split; try lra;
    try (apply Hcurv; assumption);
    match goal with
    | |- ?m <= ?m + Nd inp * ?e =>
        assert (0 <= Nd inp * e) by (apply Rmult_le_pos; [assumption | now apply Hcurv]);
        lra
    end.
Qed.

Lemma second_order_never_reduces_witness :
  M1d_min_x column20x40 <= M_tot_x column20x40.
Proof.
  apply (second_order_never_reduces column20x40); simpl; lra.
Defined.


(** *** Bars of a column *)

Lemma round_between (x : R) (n : Z) :
  0 <= x -> x <= IZR n -> (0 <= round x <= n)%Z.
Proof.
  intros H0 Hn. unfold round.
  destruct (Zfloor_bound (x + / 2)) as [Hlo Hhi].
  split.
  - apply Zfloor_lub. simpl. lra.
  - assert (H : IZR (Zfloor (x + / 2)) < IZR (n + 1)) by (rewrite plus_IZR; lra).
    apply lt_IZR in H. lia.
Qed.

Lemma even_or_odd (n : Z) :
  (Z.odd n = true /\ exists k, n = 2 * k + 1)%Z
  \/ (Z.odd n = false /\ exists k, n = 2 * k)%Z.
Proof.
  destruct (Z.odd n) eqn:E.
  - left. split; [reflexivity |]. apply Z.odd_spec in E. exact E.
  - right. split; [reflexivity |].
    rewrite <- Z.negb_even in E. apply negb_false_iff in E.
    apply Z.even_spec in E. exact E.
Qed.

(** A column always gets an even number of bars, at least four: the four
    corners plus the bars of the two pairs of faces, which is the count
    the result reports.  With a bar diameter that is not zero the bars
    cover the steel area asked for, and with positive sides no face gets
    a negative number of bars. *)
Theorem column_bars_are_symmetric (inp : ColumnInput) :
  let l := barLayout inp in
  (4 <= numBars l)%Z
  /\ Z.even (numBars l) = true
  /\ IZR (numBars l) = 4 + 2 * sideBarsVert l + 2 * sideBarsHoriz l
  /\ (c_longitudinalBarDiameter inp <> 0 ->
      As_final inp <= IZR (numBars l) * c_barArea inp)
  /\ (0 < c_widthX inp -> 0 < c_widthY inp ->
      0 <= sideBarsVert l /\ 0 <= sideBarsHoriz l).
Proof.
  cbv zeta. unfold barLayout.
  set (c0 := ceil (As_final inp / c_barArea inp)).
  set (n0 := if (c0 <? 4)%Z then 4%Z else c0).
  assert (Hn0 : (4 <= n0)%Z).
  { unfold n0. destruct (c0 <? 4)%Z eqn:E; [lia | now apply Z.ltb_ge in E]. }
  assert (Hc0 : (c0 <= n0)%Z).
  { unfold n0. destruct (c0 <? 4)%Z eqn:E; [apply Z.ltb_lt in E; lia | lia]. }
  assert (Hcover : forall n, (n0 <= n)%Z -> c_longitudinalBarDiameter inp <> 0 ->
                             As_final inp <= IZR n * c_barArea inp).
  { intros n Hn Hd. apply BeamProperties.at_least_ceil.
    - apply (BeamProperties.barArea_pos _ Hd).
    - fold c0. lia. }
  destruct (0 <? n0 - 4)%Z eqn:Erem; cbn [numBars sideBarsVert sideBarsHoriz].
  - apply Z.ltb_lt in Erem.
    set (x := IZR (n0 - 4) * (c_widthY inp / (c_widthX inp + c_widthY inp))).
    set (v0 := round x).
    set (v1 := if Z.odd v0 then (v0 - 1)%Z else v0).
    set (v := if (v1 <? 0)%Z then 0%Z else v1).
    assert (Hv1 : exists k, v1 = (2 * k)%Z).
    { unfold v1. destruct (even_or_odd v0) as [[-> (k & Hk)] | [-> (k & Hk)]];
        exists k; lia. }
    assert (Hv : (0 <= v)%Z /\ exists k, v = (2 * k)%Z).
    { unfold v. destruct (v1 <? 0)%Z eqn:E.
      - split; [lia | exists 0%Z; lia].
      - apply Z.ltb_ge in E. split; assumption. }
    destruct Hv as [Hv0 (kv & Hkv)].
    set (h0 := (n0 - 4 - v)%Z).
    destruct (even_or_odd h0) as [[Eo (k & Hk)] | [Eo (k & Hk)]]; rewrite Eo;
      cbn [numBars sideBarsVert sideBarsHoriz].
    + split; [lia |]. split.
      * replace (n0 + 1)%Z with (2 * (2 + kv + k + 1))%Z by lia.
        now rewrite Z.even_mul.
      * split.
        -- replace (n0 + 1)%Z with (4 + v + (h0 + 1))%Z by (unfold h0; lia).
           rewrite !plus_IZR. field.
        -- split; [intros Hd; apply Hcover; [lia | assumption] |].
           intros Hx Hy.
           assert (Hx0 : 0 <= x /\ x <= IZR (n0 - 4)).
           { unfold x.
             assert (Hr : 0 < c_widthY inp / (c_widthX inp + c_widthY inp) < 1).
             { split.
               - apply Rdiv_lt_0_compat; lra.
               - apply (Rmult_lt_reg_r (c_widthX inp + c_widthY inp)); [lra |].
                 unfold Rdiv. rewrite Rmult_assoc, Rinv_l by lra. lra. }
             assert (Hrem : 0 < IZR (n0 - 4)) by (apply IZR_lt; lia).
             split; nra. }
           destruct (round_between x (n0 - 4) (proj1 Hx0) (proj2 Hx0)) as [Hr0 Hr1].
           fold v0 in Hr0, Hr1.
           assert (Hvle : (v <= n0 - 4)%Z).
           { unfold v, v1. destruct (Z.odd v0);
               match goal with |- context [(?a <? 0)%Z] => destruct (a <? 0)%Z end; lia. }
           split.
           ++ apply Rmult_le_pos; [apply IZR_le; lia | lra].
           ++ apply Rmult_le_pos; [apply IZR_le; unfold h0; lia | lra].
    + split; [lia |]. split.
      * replace n0 with (2 * (2 + kv + k))%Z by (unfold h0 in Hk; lia).
        now rewrite Z.even_mul.
      * split.
        -- replace n0 with (4 + v + h0)%Z at 1 by (unfold h0; lia).
           rewrite !plus_IZR. field.
        -- split; [intros Hd; apply Hcover; [lia | assumption] |].
           intros Hx Hy.
           assert (Hx0 : 0 <= x /\ x <= IZR (n0 - 4)).
           { unfold x.
             assert (Hr : 0 < c_widthY inp / (c_widthX inp + c_widthY inp) < 1).
             { split.
               - apply Rdiv_lt_0_compat; lra.
               - apply (Rmult_lt_reg_r (c_widthX inp + c_widthY inp)); [lra |].
                 unfold Rdiv. rewrite Rmult_assoc, Rinv_l by lra. lra. }
             assert (Hrem : 0 < IZR (n0 - 4)) by (apply IZR_lt; lia).
             split; nra. }
           destruct (round_between x (n0 - 4) (proj1 Hx0) (proj2 Hx0)) as [Hr0 Hr1].
           fold v0 in Hr0, Hr1.
           assert (Hvle : (v <= n0 - 4)%Z).
           { unfold v, v1. destruct (Z.odd v0);
               match goal with |- context [(?a <? 0)%Z] => destruct (a <? 0)%Z end; lia. }
           split.
           ++ apply Rmult_le_pos; [apply IZR_le; lia | lra].
           ++ apply Rmult_le_pos; [apply IZR_le; unfold h0; lia | lra].
  - apply Z.ltb_ge in Erem. assert (n0 = 4%Z) by lia.
    split; [lia |]. split; [now replace n0 with 4%Z |].
    split; [replace n0 with 4%Z; lra |].
    split; [intros Hd; apply Hcover; [lia | assumption] | intros _ _; lra].
Qed.

Lemma column_bars_are_symmetric_witness :
  As_final column20x40
  <= IZR (numBars (barLayout column20x40)) * c_barArea column20x40.
Proof.
  apply (column_bars_are_symmetric column20x40). simpl. lra.
Defined.

(** *** The buckled shape *)

(** The shape drawn for the buckled column is zero at the base for every
    end-restraint case, zero at the top for all of them but the
    cantilever, whose free top has the full amplitude, and stays between
    0 and 1 over the height. *)
Theorem buckled_shape_respects_the_ends (c : SupportCondition) (xi : R) :
  shapeFactor c 0 = 0
  /\ (c <> FIXED_FREE -> shapeFactor c 1 = 0)
  /\ shapeFactor FIXED_FREE 1 = 1
  /\ (0 <= xi <= 1 -> 0 <= shapeFactor c xi <= 1).
Proof.
  pose proof PI_RGT_0 as Hpi.
  split; [| split; [| split]].
  - destruct c; simpl.
    + rewrite Rmult_0_r. apply sin_0.
    + replace (PI * 0 / 2) with 0 by lra. rewrite cos_0. lra.
    + lra.
    + replace (2 * PI * 0) with 0 by lra. rewrite cos_0. lra.
  - intros Hc. destruct c; simpl; try congruence.
    + rewrite Rmult_1_r. apply sin_PI.
    + lra.
    + rewrite Rmult_1_r. rewrite cos_2PI. lra.
  - simpl. replace (PI * 1 / 2) with (PI / 2) by lra. rewrite cos_PI2. lra.
  - intros [H0 H1]. destruct c; simpl.
    + split; [apply sin_ge_0; nra | apply SIN_bound].
    + assert (Hc : 0 <= cos (PI * xi / 2)) by (apply cos_ge_0; nra).
      pose proof (COS_bound (PI * xi / 2)). lra.
    + assert (H2 : 0 <= xi * xi) by nra.
      assert (H3 : 0 <= 1 - xi) by lra.
      assert (H4 : 0 <= xi * xi * (1 - xi)) by (apply Rmult_le_pos; assumption).
      assert (H5 : xi * xi * (1 - xi) <= xi * (1 - xi)).
      { apply Rmult_le_compat_r; [assumption |].
        rewrite <- (Rmult_1_r xi) at 3. now apply Rmult_le_compat_l. }
      assert (H6 : xi * (1 - xi) <= 1 / 4).
      { pose proof (Rle_0_sqr (xi - 1 / 2)) as Hs. unfold Rsqr in Hs. nra. }
      lra.
    + pose proof (COS_bound (2 * PI * xi)). lra.
Qed.

Lemma buckled_shape_respects_the_ends_witness :
  0 <= shapeFactor PINNED_PINNED 0.5 <= 1.
Proof.
  apply (buckled_shape_respects_the_ends PINNED_PINNED 0.5). lra.
Defined.

End ColumnInvariants.

Module LinearSolver.

Import BeamSolver Samples JsFacts SolverInvariants.

(** *** Sums *)

Lemma sum_from (f : nat -> R) (l : list nat) (a : R) :
  fold_left (fun sum j => sum + f j) l a = a + sumOver f l.
Proof.
  unfold sumOver. revert a. induction l as [| j t IH]; intros a; simpl.
  - lra.
  - rewrite (IH (a + f j)), (IH (0 + f j)). lra.
Qed.

Lemma sumOver_cons (f : nat -> R) (j : nat) (l : list nat) :
  sumOver f (j :: l) = f j + sumOver f l.
Proof.
  unfold sumOver at 1. simpl. rewrite sum_from. lra.
Qed.

Lemma sumOver_app (f : nat -> R) (l1 l2 : list nat) :
  sumOver f (l1 ++ l2) = sumOver f l1 + sumOver f l2.
Proof.
  induction l1 as [| j t IH]; simpl.
  - unfold sumOver at 2. simpl. lra.
  - rewrite !sumOver_cons, IH. lra.
Qed.

Lemma sumOver_ext (f g : nat -> R) (l : list nat) :
  (forall j, In j l -> f j = g j) -> sumOver f l = sumOver g l.
Proof.
  induction l as [| j t IH]; intros H.
  - reflexivity.
  - rewrite !sumOver_cons, IH, (H j); [reflexivity | now left |].
    intros j' Hj'. apply H. now right.
Qed.

Lemma sumOver_zero (f : nat -> R) (l : list nat) :
  (forall j, In j l -> f j = 0) -> sumOver f l = 0.
Proof.
  induction l as [| j t IH]; intros H.
  - reflexivity.
  - rewrite sumOver_cons, IH, (H j); [lra | now left |].
    intros j' Hj'. apply H. now right.
Qed.

Lemma sumOver_combine (f g : nat -> R) (a : R) (l : list nat) :
  sumOver (fun j => f j - a * g j) l = sumOver f l - a * sumOver g l.
Proof.
  induction l as [| j t IH].
  - unfold sumOver. simpl. lra.
  - rewrite !sumOver_cons, IH. lra.
Qed.

Lemma seq_split_at (n s : nat) :
  (s < n)%nat -> seq 0 n = seq 0 s ++ s :: seq (S s) (n - S s).
Proof.
  intros H. replace n with (s + S (n - S s))%nat at 1 by lia.
  rewrite seq_app. reflexivity.
Qed.

(** *** Rows exchanged and rows updated *)

Lemma swap_length {A : Type} (d : A) (l : list A) (i j : nat) :
  List.length (swap d l i j) = List.length l.
Proof.
  unfold swap. now rewrite !upd_length.
Qed.

Lemma nth_swap {A : Type} (d : A) (l : list A) (i j k : nat) :
  (i < List.length l)%nat -> (j < List.length l)%nat ->
  nth k (swap d l i j) d = nth (exchange i j k) l d.
Proof.
  intros Hi Hj. unfold swap, exchange.
  destruct (Nat.eq_dec k j) as [-> | Hkj].
  - rewrite nth_upd_same by (now rewrite upd_length). reflexivity.
  - rewrite nth_upd_other by congruence.
    destruct (Nat.eq_dec k i) as [-> | Hki].
    + rewrite nth_upd_same by assumption. reflexivity.
    + rewrite nth_upd_other by congruence. reflexivity.
Qed.

Lemma row_length_upd (M : list (list R)) (k c r : nat) (f : R -> R) :
  List.length (nth r (upd M k (fun row => upd row c f)) [])
  = List.length (nth r M []).
Proof.
  revert k r. induction M as [| a t IH]; intros [| k] [| r]; simpl; auto.
  apply upd_length.
Qed.

Lemma mget_msub_same (M : list (list R)) (r c : nat) (x : R) :
  (r < List.length M)%nat -> (c < List.length (nth r M []))%nat ->
  mget (msub M r c x) r c = mget M r c - x.
Proof.
  intros Hr Hc. unfold mget, msub, get, vsub.
  rewrite (nth_upd_same [] M r _ Hr). now rewrite (nth_upd_same 0 _ c _ Hc).
Qed.

Lemma upd_beyond {A : Type} (v : list A) (i : nat) (f : A -> A) :
  (List.length v <= i)%nat -> upd v i f = v.
Proof.
  revert i. induction v as [| a t IH]; intros [| i] H; simpl in *;
    try reflexivity; try lia.
  f_equal. apply IH. lia.
Qed.

Lemma mget_msub_other (M : list (list R)) (r c r' c' : nat) (x : R) :
  r <> r' \/ c <> c' -> mget (msub M r c x) r' c' = mget M r' c'.
Proof.
  intros H. unfold mget, msub, get, vsub.
  destruct (Nat.eq_dec r r') as [<- | Hr].
  - destruct (Nat.lt_ge_cases r (List.length M)) as [Hlt | Hge].
    + rewrite (nth_upd_same [] M r _ Hlt). apply nth_upd_other.
      destruct H as [H | H]; [congruence | assumption].
    + now rewrite upd_beyond.
  - now rewrite (nth_upd_other [] M r r').
Qed.

Lemma get_vsub_same (v : list R) (i : nat) (x : R) :
  (i < List.length v)%nat -> get (vsub v i x) i = get v i - x.
Proof.
  intros H. unfold get, vsub. now rewrite nth_upd_same.
Qed.

Lemma get_vsub_other (v : list R) (i j : nat) (x : R) :
  i <> j -> get (vsub v i x) j = get v j.
Proof.
  intros H. unfold get, vsub. now rewrite nth_upd_other.
Qed.

(** *** The pivot search *)

Lemma pivotRow_range (M : list (list R)) (n i : nat) :
  (i < n)%nat -> (i <= pivotRow M n i < n)%nat.
Proof.
  intros Hi. unfold pivotRow.
  assert (G : forall l m, (forall k, In k l -> (i <= k < n)%nat) ->
                          (i <= m < n)%nat ->
    (i <= fold_left
            (fun maxRow k =>
               if gtb (Rabs (mget M k i)) (Rabs (mget M maxRow i))
               then k else maxRow) l m < n)%nat).
  { induction l as [| k t IH]; intros m Hl Hm; simpl.
    - exact Hm.
    - apply IH.
      + intros k' Hk'. apply Hl. now right.
      + destruct (gtb _ _); [apply Hl; now left | exact Hm]. }
  apply G.
  - intros k Hk. apply in_seq in Hk. lia.
  - lia.
Qed.

(** *** One row reduced *)

Lemma reduce_row (M : list (list R)) (k s : nat) (f : R) (l : list nat) :
  k <> s -> NoDup l -> (k < List.length M)%nat ->
  (forall j, In j l -> (j < List.length (nth k M []))%nat) ->
  let M' := fold_left (fun M j => msub M k j (f * mget M s j)) l M in
  List.length M' = List.length M
  /\ (forall r, List.length (nth r M' []) = List.length (nth r M []))
  /\ (forall r c, r <> k \/ ~ In c l -> mget M' r c = mget M r c)
  /\ (forall c, In c l -> mget M' k c = mget M k c - f * mget M s c).
Proof.
  intros Hks. revert M. induction l as [| j t IH]; intros M Hnd Hk Hl; cbv zeta.
  - simpl. repeat split; auto. intros c [].
  - simpl. apply NoDup_cons_iff in Hnd as [Hj Hnd'].
    set (M1 := msub M k j (f * mget M s j)).
    assert (HL1 : List.length M1 = List.length M) by apply upd_length.
    assert (HR1 : forall r, List.length (nth r M1 []) = List.length (nth r M []))
      by (intros r; apply row_length_upd).
    destruct (IH M1 Hnd') as (HL & HR & Hother & Hsame).
    { now rewrite HL1. }
    { intros j' Hj'. rewrite HR1. apply Hl. now right. }
    split; [congruence |].
    split; [intros r; now rewrite HR, HR1 |].
    split.
    + intros r c Hrc. rewrite Hother.
      * apply mget_msub_other. destruct Hrc as [Hr | Hc]; [left; congruence |].
        right. intros ->. apply Hc. now left.
      * destruct Hrc as [Hr | Hc]; [now left | right].
        intros Hin. apply Hc. now right.
    + intros c [<- | Hc].
      * rewrite Hother by (now right).
        apply mget_msub_same; [assumption | apply Hl; now left].
      * rewrite Hsame by assumption.
        unfold M1. rewrite !mget_msub_other; [reflexivity | now left |].
        right. intros ->. contradiction.
Qed.

(** *** One column eliminated *)

Lemma eliminate_rows (n s : nat) (ks : list nat) (M : list (list R)) (x : list R)
  (body : list (list R) * list R -> nat -> list (list R) * list R) :
  body
  = (fun (st : list (list R) * list R) k =>
       let (M, x) := st in
       let factor := mget M k s / mget M s s in
       let x := vsub x k (factor * get x s) in
       let M :=
         fold_left (fun M j => msub M k j (factor * mget M s j))
                   (seq s (n - s)) M in
       (M, x)) ->
  (s < n)%nat -> NoDup ks -> (forall k, In k ks -> k <> s /\ (k < n)%nat) ->
  isSquare n M -> List.length x = n ->
  let st := fold_left body ks (M, x) in
  isSquare n (fst st) /\ List.length (snd st) = n
  /\ (forall r, ~ In r ks ->
        (forall c, mget (fst st) r c = mget M r c) /\ get (snd st) r = get x r)
  /\ (forall k, In k ks ->
        (forall c, (s <= c < n)%nat ->
           mget (fst st) k c = mget M k c - mget M k s / mget M s s * mget M s c)
        /\ (forall c, (c < s)%nat -> mget (fst st) k c = mget M k c)
        /\ get (snd st) k = get x k - mget M k s / mget M s s * get x s).
Proof.
  intros Hbody Hs. revert M x.
  induction ks as [| k t IH]; intros M x Hnd Hks [HL HR] Hx; cbv zeta.
  - simpl. split; [split; assumption |]. split; [assumption |].
    split; [intros r _; split; reflexivity | intros k' []].
  - simpl. apply NoDup_cons_iff in Hnd as [Hk Hnd'].
    destruct (Hks k (or_introl eq_refl)) as [Hne Hlt].
    set (f := mget M k s / mget M s s).
    set (x1 := vsub x k (f * get x s)).
    set (M1 := fold_left (fun M j => msub M k j (f * mget M s j)) (seq s (n - s)) M).
    destruct (reduce_row M k s f (seq s (n - s)) Hne (seq_NoDup _ _))
      as (HL1 & HR1 & Hother & Hsame).
    { now rewrite HL. }
    { intros j Hj. apply in_seq in Hj. rewrite HR by assumption. lia. }
    fold M1 in HL1, HR1, Hother, Hsame.
    replace (body (M, x) k) with (M1, x1) by (now rewrite Hbody).
    destruct (IH M1 x1 Hnd') as (Hsq & Hlen & Hout & Hin).
    { intros k' Hk'. apply Hks. now right. }
    { split; [congruence |]. intros r Hr. rewrite HR1. now apply HR. }
    { unfold x1, vsub. now rewrite upd_length. }
    assert (Hrow : forall r c, r <> k -> mget M1 r c = mget M r c).
    { intros r c Hr. apply Hother. now left. }
    assert (Hxs : forall r, r <> k -> get x1 r = get x r).
    { intros r Hr. unfold x1. apply get_vsub_other. congruence. }
    split; [exact Hsq |]. split; [exact Hlen |]. split.
    + intros r Hr.
      assert (Hrk : r <> k) by (intros ->; apply Hr; now left).
      destruct (Hout r) as [Ha Hb]; [intros Hin'; apply Hr; now right |].
      split.
      * intros c. now rewrite Ha, Hrow.
      * now rewrite Hb, Hxs.
    + intros k' [<- | Hk'].
      * destruct (Hout k Hk) as [Ha Hb].
        split; [| split].
        -- intros c Hc. rewrite Ha. apply Hsame. apply in_seq. lia.
        -- intros c Hc. rewrite Ha. apply Hother. right.
           intros Hin'. apply in_seq in Hin'. lia.
        -- rewrite Hb. unfold x1. apply get_vsub_same. lia.
      * assert (Hk'k : k' <> k) by (intros ->; contradiction).
        destruct (Hin k' Hk') as (Ha & Hb & Hc).
        split; [| split].
        -- intros c Hcr. rewrite Ha by assumption.
           rewrite !Hrow by congruence. reflexivity.
        -- intros c Hcr. rewrite Hb by assumption. now apply Hrow.
        -- rewrite Hc. rewrite !Hrow by congruence.
           rewrite !Hxs by congruence. reflexivity.
Qed.

(** *** One stage of the elimination *)

Lemma exchange_twice (i j k : nat) : exchange i j (exchange i j k) = k.
Proof.
  unfold exchange.
  repeat (destruct (Nat.eq_dec _ _)); congruence.
Qed.

Lemma exchange_lt (n i j k : nat) :
  (i < n)%nat -> (j < n)%nat -> (k < n)%nat -> (exchange i j k < n)%nat.
Proof.
  intros. unfold exchange. repeat (destruct (Nat.eq_dec _ _)); assumption.
Qed.

Lemma exchange_below (s m r : nat) :
  (s <= m)%nat -> (r < s)%nat -> exchange s m r = r.
Proof.
  intros. unfold exchange. repeat (destruct (Nat.eq_dec _ _)); lia.
Qed.

Lemma exchange_above (s m r : nat) :
  (s <= m)%nat -> (s <= r)%nat -> (s <= exchange s m r)%nat.
Proof.
  intros. unfold exchange. repeat (destruct (Nat.eq_dec _ _)); lia.
Qed.

Lemma swap_rows (n s m : nat) (M : list (list R)) (x : list R) :
  (s < n)%nat -> (m < n)%nat -> isSquare n M -> List.length x = n ->
  isSquare n (swap [] M s m) /\ List.length (swap 0 x s m) = n
  /\ (forall r c, mget (swap [] M s m) r c = mget M (exchange s m r) c)
  /\ (forall r, get (swap 0 x s m) r = get x (exchange s m r)).
Proof.
  intros Hs Hm [HL HR] Hx.
  assert (Hrow : forall r, nth r (swap [] M s m) [] = nth (exchange s m r) M []).
  { intros r. apply nth_swap; lia. }
  split; [split |]; [| | split; [| split]].
  - now rewrite swap_length.
  - intros r Hr. rewrite Hrow. apply HR. now apply exchange_lt.
  - now rewrite swap_length.
  - intros r c. unfold mget. now rewrite Hrow.
  - intros r. unfold get. apply nth_swap; lia.
Qed.

Lemma forwardStep_rows (n s : nat) (M : list (list R)) (x : list R) :
  (s < n)%nat -> isSquare n M -> List.length x = n ->
  let st := forwardStep n (M, x) s in
  let p := mget (swap [] M s (pivotRow M n s)) s s in
  isSquare n (fst st) /\ List.length (snd st) = n
  /\ (forall r, (r < s)%nat ->
        (forall c, mget (fst st) r c = mget M r c) /\ get (snd st) r = get x r)
  /\ mget (fst st) s s = p
  /\ (1e-10 < Rabs p -> zeroBelow n s M ->
      zeroBelow n (S s) (fst st)
      /\ forall v, solves n (fst st) (snd st) v -> solves n M x v).
Proof.
  intros Hs Hsq Hx. cbv zeta. unfold forwardStep.
  destruct (pivotRow_range M n s Hs) as [Hm1 Hm2].
  set (m := pivotRow M n s) in *.
  destruct (swap_rows n s m M x Hs Hm2 Hsq Hx) as (Hsq' & Hx' & HM' & Hxx').
  set (M' := swap [] M s m) in *. set (x' := swap 0 x s m) in *.
  assert (Hback : forall v, solves n M' x' v -> solves n M x v).
  { intros v Hv k Hk.
    pose proof (Hv (exchange s m k) (exchange_lt n s m k Hs Hm2 Hk)) as E.
    rewrite Hxx', exchange_twice in E. rewrite <- E.
    unfold rowTimes. apply sumOver_ext. intros j _.
    now rewrite HM', exchange_twice. }
  assert (Hzero : zeroBelow n s M -> zeroBelow n s M').
  { intros Hz c r Hc Hr. rewrite HM'.
    destruct (Nat.lt_ge_cases r s) as [Hlt | Hge].
    - rewrite exchange_below by assumption. now apply Hz.
    - apply Hz; [assumption |].
      pose proof (exchange_above s m r Hm1 Hge).
      pose proof (exchange_lt n s m r Hs Hm2 (proj2 Hr)). lia. }
  destruct (ltb (Rabs (mget M' s s)) 1e-10) eqn:Eskip.
  - cbn [fst snd].
    split; [exact Hsq' |]. split; [exact Hx' |]. split; [| split].
    + intros r Hr. split.
      * intros c. now rewrite HM', exchange_below.
      * now rewrite Hxx', exchange_below.
    + reflexivity.
    + intros Hp. apply ltb_true in Eskip. lra.
  - apply ltb_false in Eskip. unfold eliminate.
    destruct (eliminate_rows n s (seq (S s) (n - S s)) M' x' _ eq_refl Hs
                (seq_NoDup _ _)) as (Hsq2 & Hx2 & Hout & Hin); try assumption.
    { intros k Hk. apply in_seq in Hk. lia. }
    match goal with
    | |- context [fold_left ?f ?l (M', x')] => set (st := fold_left f l (M', x')) in *
    end.
    assert (Hlow : forall r, (r <= s)%nat ->
              (forall c, mget (fst st) r c = mget M' r c)
              /\ get (snd st) r = get x' r).
    { intros r Hr. apply Hout. intros Hk. apply in_seq in Hk. lia. }
    assert (Hhigh : forall k, (s < k < n)%nat ->
        (forall c, (s <= c < n)%nat ->
           mget (fst st) k c
           = mget M' k c - mget M' k s / mget M' s s * mget M' s c)
        /\ (forall c, (c < s)%nat -> mget (fst st) k c = mget M' k c)
        /\ get (snd st) k = get x' k - mget M' k s / mget M' s s * get x' s).
    { intros k Hk. apply Hin. apply in_seq. lia. }
    split; [exact Hsq2 |]. split; [exact Hx2 |]. split; [| split].
    + intros r Hr. destruct (Hlow r) as [Ha Hb]; [lia |]. split.
      * intros c. now rewrite Ha, HM', exchange_below.
      * now rewrite Hb, Hxx', exchange_below.
    + apply (Hlow s). lia.
    + intros Hp Hz. specialize (Hzero Hz).
      assert (Hp0 : mget M' s s <> 0).
      { intros E. rewrite E, Rabs_R0 in Hp. lra. }
      split.
      * intros c r Hc Hr.
        destruct (Nat.le_gt_cases r s) as [Hle | Hgt].
        -- destruct (Hlow r Hle) as [Ha _]. rewrite Ha. apply Hzero; lia.
        -- destruct (Hhigh r) as (Ha & Hb & _); [lia |].
           destruct (Nat.eq_dec c s) as [-> | Hcs].
           ++ rewrite Ha by lia. field. exact Hp0.
           ++ rewrite Hb by lia. apply Hzero; lia.
      * intros v Hv. apply Hback. intros k Hk.
        assert (Hrow_s : rowTimes n M' s v = get x' s).
        { destruct (Hlow s) as [Ha Hb]; [lia |]. rewrite <- Hb, <- (Hv s Hs).
          unfold rowTimes. apply sumOver_ext. intros j _. now rewrite Ha. }
        destruct (Nat.le_gt_cases k s) as [Hle | Hgt].
        -- destruct (Hlow k Hle) as [Ha Hb]. rewrite <- Hb, <- (Hv k Hk).
           unfold rowTimes. apply sumOver_ext. intros j _. now rewrite Ha.
        -- destruct (Hhigh k) as (Ha & Hb & Hc); [lia |].
           pose proof (Hv k Hk) as E. rewrite Hc in E.
           set (f := mget M' k s / mget M' s s) in *.
           assert (E2 : rowTimes n (fst st) k v
                        = rowTimes n M' k v - f * rowTimes n M' s v).
           { unfold rowTimes. rewrite <- sumOver_combine.
             apply sumOver_ext. intros j Hj. apply in_seq in Hj.
             destruct (Nat.lt_ge_cases j s) as [Hlt | Hge].
             - rewrite Hb by assumption.
               rewrite (Hzero j s Hlt) by lia. ring.
             - rewrite Ha by lia. ring. }
           rewrite E2, Hrow_s in E. lra.
Qed.

(** *** The elimination pass *)

Lemma forward_keeps_rows (n m : nat) :
  forall (s : nat) (M : list (list R)) (x : list R),
  (s + m = n)%nat -> isSquare n M -> List.length x = n ->
  let st := fold_left (forwardStep n) (seq s m) (M, x) in
  isSquare n (fst st) /\ List.length (snd st) = n
  /\ forall r, (r < s)%nat ->
       (forall c, mget (fst st) r c = mget M r c) /\ get (snd st) r = get x r.
Proof.
  induction m as [| m IH]; intros s M x Hn Hsq Hx; cbv zeta.
  - simpl. split; [assumption |]. split; [assumption |].
    intros r _. split; reflexivity.
  - cbn [seq fold_left].
    destruct (forwardStep_rows n s M x) as (Hsq1 & Hx1 & Hrows & _);
      try assumption; try lia.
    destruct (forwardStep n (M, x) s) as [M1 x1]. cbn [fst snd] in *.
    destruct (IH (S s) M1 x1) as (Hsq2 & Hx2 & Hrows2); try assumption; try lia.
    split; [assumption |]. split; [assumption |].
    intros r Hr. destruct (Hrows2 r) as [Ha Hb]; [lia |].
    destruct (Hrows r Hr) as [Hc Hd]. split.
    + intros c. now rewrite Ha, Hc.
    + now rewrite Hb, Hd.
Qed.

Lemma forward_pass (n m : nat) :
  forall (s : nat) (M : list (list R)) (x : list R),
  (s + m = n)%nat -> isSquare n M -> List.length x = n -> zeroBelow n s M ->
  let st := fold_left (forwardStep n) (seq s m) (M, x) in
  (forall i, (s <= i < n)%nat -> 1e-10 < Rabs (mget (fst st) i i)) ->
  zeroBelow n n (fst st)
  /\ forall v, solves n (fst st) (snd st) v -> solves n M x v.
Proof.
  induction m as [| m IH]; intros s M x Hn Hsq Hx Hz; cbv zeta.
  - simpl. intros _. assert (s = n) by lia. subst s. split; [assumption | auto].
  - cbn [seq fold_left]. intros Hpiv.
    destruct (forwardStep_rows n s M x) as (Hsq1 & Hx1 & _ & Hp & Hstep);
      try assumption; try lia.
    destruct (forwardStep n (M, x) s) as [M1 x1]. cbn [fst snd] in *.
    destruct (forward_keeps_rows n m (S s) M1 x1) as (_ & _ & Hfix);
      try assumption; try lia.
    destruct (Hfix s) as [Hdiag _]; [lia |].
    destruct Hstep as [Hz1 Hsol1].
    { rewrite <- Hp, <- Hdiag. apply Hpiv. lia. }
    { assumption. }
    destruct (IH (S s) M1 x1) as [Hz2 Hsol2]; try assumption; try lia.
    { intros i Hi. apply Hpiv. lia. }
    split; [assumption |]. intros v Hv. apply Hsol1, Hsol2, Hv.
Qed.

(** *** Back substitution *)

Lemma back_pass (n : nat) (M : list (list R)) (x : list R) (m : nat) :
  forall s, (s + m = n)%nat ->
  let res :=
    fold_left
      (fun res i =>
         let sum :=
           fold_left (fun sum j => sum + mget M i j * get res j)
                     (seq (S i) (n - S i)) 0 in
         if gtb (Rabs (mget M i i)) 1e-10
         then upd res i (fun _ => (get x i - sum) / mget M i i)
         else res)
      (rev (seq s m)) (createVector n) in
  List.length res = n
  /\ (forall i, (i < s)%nat -> get res i = 0)
  /\ forall i, (s <= i < n)%nat ->
       (1e-10 < Rabs (mget M i i) ->
        mget M i i * get res i
        + sumOver (fun j => mget M i j * get res j) (seq (S i) (n - S i))
        = get x i)
       /\ (Rabs (mget M i i) <= 1e-10 -> get res i = 0).
Proof.
  induction m as [| m IH]; intros s Hn; cbv zeta.
  - simpl. unfold createVector. split; [apply repeat_length |].
    split; [| intros i Hi; lia].
    intros i _. unfold get. apply nth_repeat.
  - cbn [seq rev]. rewrite fold_left_app. cbn [fold_left].
    destruct (IH (S s)) as (Hlen & Hzero & Hrows); [lia |].
    match goal with
    | |- context [fold_left ?f (rev (seq (S s) m)) ?a] =>
        set (res0 := fold_left f (rev (seq (S s) m)) a) in *
    end.
    change (fold_left (fun sum j => sum + mget M s j * get res0 j)
                      (seq (S s) (n - S s)) 0)
      with (sumOver (fun j => mget M s j * get res0 j) (seq (S s) (n - S s))).
    destruct (gtb (Rabs (mget M s s)) 1e-10) eqn:Eg.
    + apply gtb_true in Eg.
      set (val := (get x s
                   - sumOver (fun j => mget M s j * get res0 j)
                             (seq (S s) (n - S s))) / mget M s s).
      assert (Hsame : get (upd res0 s (fun _ => val)) s = val).
      { unfold get. apply (nth_upd_same 0 res0 s (fun _ => val)). lia. }
      assert (Hother : forall j, j <> s ->
                get (upd res0 s (fun _ => val)) j = get res0 j).
      { intros j Hj. unfold get. apply nth_upd_other. congruence. }
      assert (Hsum : forall i, (s <= i)%nat ->
                sumOver (fun j => mget M i j * get (upd res0 s (fun _ => val)) j)
                        (seq (S i) (n - S i))
                = sumOver (fun j => mget M i j * get res0 j)
                          (seq (S i) (n - S i))).
      { intros i Hi. apply sumOver_ext. intros j Hj. apply in_seq in Hj.
        rewrite Hother by lia. reflexivity. }
      split; [now rewrite upd_length |]. split.
      * intros i Hi. rewrite Hother by lia. apply Hzero. lia.
      * intros i Hi. destruct (Nat.eq_dec i s) as [-> | His].
        -- split; [| intros; lra].
           intros _. rewrite Hsum by lia. rewrite Hsame. unfold val. field.
           intros E. rewrite E, Rabs_R0 in Eg. lra.
        -- rewrite Hsum by lia. rewrite Hother by assumption.
           apply Hrows. lia.
    + apply gtb_false in Eg.
      split; [assumption |]. split.
      * intros i Hi. apply Hzero. lia.
      * intros i Hi. destruct (Nat.eq_dec i s) as [-> | His].
        -- split; [intros; lra | intros _; apply Hzero; lia].
        -- apply Hrows. lia.
Qed.

(** *** The linear solver *)

(** When every pivot the elimination leaves on the diagonal is above the
    tolerance of 1e-10, the vector returned for a square system solves
    it: each row of the matrix times the result gives the matching
    right-hand side (in exact arithmetic). *)
Theorem solveLinear_solves_the_system (A : list (list R)) (b : list R) :
  let n := List.length A in
  isSquare n A -> List.length b = n ->
  (forall i, (i < n)%nat -> 1e-10 < Rabs (mget (fst (eliminated A b)) i i)) ->
  List.length (solveLinear A b) = n
  /\ forall i, (i < n)%nat -> rowTimes n A i (solveLinear A b) = get b i.
Proof.
  cbv zeta. intros Hsq Hb Hpiv.
  unfold solveLinear. unfold eliminated in Hpiv.
  set (n := List.length A) in *.
  destruct (forward_pass n n 0 A b) as [Hz Hsol]; try assumption; try lia.
  { intros c r Hc. lia. }
  { intros i Hi. apply Hpiv. lia. }
  destruct (fold_left (forwardStep n) (seq 0 n) (A, b)) as [M x].
  cbn [fst snd] in *.
  destruct (back_pass n M x n 0) as (Hlen & _ & Hrows); [lia |].
  unfold backSubstitute.
  match goal with
  | |- context [fold_left ?f (rev (seq 0 n)) ?a] =>
      set (res := fold_left f (rev (seq 0 n)) a) in *
  end.
  split; [exact Hlen |].
  apply Hsol. intros k Hk.
  destruct (Hrows k) as [Hrow _]; [lia |].
  rewrite <- Hrow by (apply Hpiv; exact Hk).
  unfold rowTimes. rewrite (seq_split_at n k Hk), sumOver_app, sumOver_cons.
  rewrite sumOver_zero; [lra |].
  intros j Hj. apply in_seq in Hj. rewrite (Hz j k) by lia. ring.
Qed.

(** An unknown whose pivot is not above the tolerance is never divided
    for: it keeps the zero the result vector starts with. *)
Theorem small_pivot_leaves_zero (A : list (list R)) (b : list R) (i : nat) :
  (i < List.length A)%nat ->
  Rabs (mget (fst (eliminated A b)) i i) <= 1e-10 ->
  get (solveLinear A b) i = 0.
Proof.
  intros Hi Hp. unfold solveLinear. unfold eliminated in Hp.
  set (n := List.length A) in *.
  destruct (fold_left (forwardStep n) (seq 0 n) (A, b)) as [M x].
  cbn [fst snd] in *.
  destruct (back_pass n M x n 0) as (_ & _ & Hrows); [lia |].
  unfold backSubstitute. apply (Hrows i); [lia | exact Hp].
Qed.

(** Running the solver on concrete numbers. *)
Ltac abs_numbers :=
  repeat match goal with
         | |- context [Rabs ?a] =>
             first [ rewrite (Rabs_right a) by lra
                   | rewrite (Rabs_left a) by lra ]
         end.

Ltac run_solver :=
  repeat (progress (simpl;
                    unfold forwardStep, pivotRow, eliminate, swap, msub, mget;
                    unfold_js; abs_numbers; settle_numbers)).

Lemma solveLinear_solves_the_system_witness :
  rowTimes 2 twoByTwo 0 (solveLinear twoByTwo rhs) = get rhs 0.
Proof.
  refine (proj2 (solveLinear_solves_the_system twoByTwo rhs _ _ _) 0%nat _).
  - split; [reflexivity |].
    intros [| [| r]] Hr; simpl in *; try reflexivity; lia.
  - reflexivity.
  - intros i Hi. unfold eliminated, twoByTwo, rhs. run_solver.
    destruct i as [| [| i]]; simpl in *; try lia; abs_numbers; lra.
  - simpl. lia.
Defined.

Lemma small_pivot_leaves_zero_witness :
  get (solveLinear singular rhs) 1 = 0.
Proof.
  apply (small_pivot_leaves_zero singular rhs 1).
  - simpl. lia.
  - unfold eliminated, singular, rhs. run_solver. lra.
Defined.

End LinearSolver.

(** ** Properties of the beam editor *)

Module EditorProperties.

Import Samples JsFacts.

Lemma snap_nonneg (pos : R) : 0 <= pos -> 0 <= BeamEditor.snap pos.
Proof.
  intros H. unfold BeamEditor.snap, round.
  assert (Hz : (0 <= Zfloor (pos * 10 + / 2))%Z) by (apply Zfloor_lub; simpl; lra).
  apply IZR_le in Hz. lra.
Qed.

Lemma pxToMeter_nonneg (span px : R) : 0 <= BeamEditor.pxToMeter span px.
Proof.
  unfold BeamEditor.pxToMeter. apply Rmax_l.
Qed.

(** The scale of the drawing puts the beam between the two paddings, and
    going from metres to pixels and back gives the position again; a
    pixel abscissa always comes back as a position on the beam. *)
Theorem scale_round_trip (span : R) :
  0 < span ->
  BeamEditor.meterToPx span 0 = 40
  /\ BeamEditor.meterToPx span span = 560
  /\ (forall m, 0 <= m <= span ->
        BeamEditor.pxToMeter span (BeamEditor.meterToPx span m) = m)
  /\ (forall px, 0 <= BeamEditor.pxToMeter span px <= span).
Proof.
  intros Hspan.
  unfold BeamEditor.pxToMeter, BeamEditor.meterToPx, BeamEditor.pxPerMeter,
    BeamEditor.width, BeamEditor.paddingX.
  split; [lra |]. split; [field; lra |]. split.
  - intros m Hm.
    replace ((40 + m * ((600 - 2 * 40) / span) - 40) / ((600 - 2 * 40) / span))
      with m by (field; lra).
    rewrite Rmin_right by lra. apply Rmax_right. lra.
  - intros px. split; [apply Rmax_l |].
    apply Rmax_lub; [lra | apply Rmin_l].
Qed.

Lemma scale_round_trip_witness :
  BeamEditor.pxToMeter 5 (BeamEditor.meterToPx 5 2) = 2.
Proof.
  apply (scale_round_trip 5); lra.
Defined.

(** A distributed load no longer than the beam, dragged anywhere, keeps
    its length and stays on the beam. *)
Theorem dragged_load_keeps_its_length
  (span mouseX dragOffset : R) (target : DistributedLoad) :
  0 <= dl_end target - dl_start target <= span ->
  let moved :=
    BeamEditor.dragDistributed span target
      (BeamEditor.snappedPos span mouseX dragOffset) in
  0 <= fst moved /\ snd moved <= span
  /\ snd moved - fst moved = dl_end target - dl_start target.
Proof.
  intros Hlen. cbv zeta.
  assert (Hp : 0 <= BeamEditor.snappedPos span mouseX dragOffset).
  { apply snap_nonneg, pxToMeter_nonneg. }
  unfold BeamEditor.dragDistributed.
  set (p := BeamEditor.snappedPos span mouseX dragOffset) in *.
  destruct (gtb (p + (dl_end target - dl_start target)) span) eqn:E.
  - destruct (ltb (span - (dl_end target - dl_start target)) 0) eqn:E0.
    + apply ltb_true in E0. lra.
    + cbn [fst snd]. lra.
  - apply gtb_false in E.
    destruct (ltb p 0) eqn:E0.
    + apply ltb_true in E0. lra.
    + cbn [fst snd]. lra.
Qed.

Lemma dragged_load_keeps_its_length_witness :
  snd (BeamEditor.dragDistributed 5 (mkDistributedLoad "d" 1 3 10 10 10)
         (BeamEditor.snappedPos 5 700 0)) <= 5.
Proof.
  apply (dragged_load_keeps_its_length 5 700 0 (mkDistributedLoad "d" 1 3 10 10 10)).
  simpl. lra.
Defined.

End EditorProperties.

(** ** The system of equations of a beam *)

Module StiffnessProperties.

Import BeamSolver Samples JsFacts SolverInvariants.

Lemma rows_of_madd (M : list (list R)) (r c k : nat) (x : R) :
  List.length (nth k (madd M r c x) []) = List.length (nth k M []).
Proof.
  unfold madd, vadd. revert r k.
  induction M as [| a t IH]; intros [| r] [| k]; simpl; auto.
  apply upd_length.
Qed.

Lemma madd_isSquare (n : nat) (M : list (list R)) (r c : nat) (x : R) :
  isSquare n M -> isSquare n (madd M r c x).
Proof.
  intros [HL HR]. split.
  - unfold madd. now rewrite upd_length.
  - intros k Hk. rewrite rows_of_madd. now apply HR.
Qed.

Lemma mget_madd (n : nat) (M : list (list R)) (r c a b : nat) (x : R) :
  isSquare n M -> (r < n)%nat -> (c < n)%nat ->
  mget (madd M r c x) a b
  = mget M a b + (if (r =? a)%nat && (c =? b)%nat then x else 0).
Proof.
  intros [HL HR] Hr Hc.
  destruct (Nat.eqb_spec r a) as [<- | Hra];
    [destruct (Nat.eqb_spec c b) as [<- | Hcb] |]; cbn [andb].
  - apply mget_madd_same; [lia | rewrite HR; lia].
  - rewrite mget_madd_other by (now right). lra.
  - rewrite mget_madd_other by (now left). lra.
Qed.

Lemma accumulate_adds (n : nat) (ops : list (nat * nat * R)) :
  forall K, isSquare n K ->
  (forall op, In op ops -> (fst (fst op) < n)%nat /\ (snd (fst op) < n)%nat) ->
  isSquare n (accumulate ops K)
  /\ forall a b, mget (accumulate ops K) a b = mget K a b + added ops a b.
Proof.
  induction ops as [| op t IH]; intros K Hsq Hops.
  - split; [assumption |]. intros a b. simpl. lra.
  - destruct (Hops op (or_introl eq_refl)) as [Hr Hc].
    destruct (IH (madd K (fst (fst op)) (snd (fst op)) (snd op))) as [Hsq' Hget].
    { now apply madd_isSquare. }
    { intros op' Hop'. apply Hops. now right. }
    split; [exact Hsq' |].
    intros a b. cbn [accumulate fold_left] in *. rewrite Hget.
    rewrite (mget_madd n) by assumption. unfold added. cbn [fold_right]. lra.
Qed.

(** One element added to a symmetric matrix leaves it symmetric. *)
Lemma element_keeps_symmetry (n i : nat) (K : list (list R)) (k11 k12 k22 k22_far : R) :
  isSquare n K -> symmetric K -> ((i + 1) * 2 + 1 < n)%nat ->
  let idx := [i * 2; i * 2 + 1; (i + 1) * 2; (i + 1) * 2 + 1]%nat in
  let Ke := [ [k11; k12; - k11; k12];
              [k12; k22; - k12; k22_far];
              [- k11; - k12; k11; - k12];
              [k12; k22_far; - k12; k22] ] in
  let K' :=
    fold_left
      (fun K r =>
         fold_left
           (fun K c => madd K (nth r idx O) (nth c idx O) (mget Ke r c))
           (seq 0 4) K)
      (seq 0 4) K in
  isSquare n K' /\ symmetric K'.
Proof.
  intros Hsq Hsym Hi idx Ke K'.
  set (i0 := (i * 2)%nat) in *. set (i1 := (i * 2 + 1)%nat) in *.
  set (i2 := ((i + 1) * 2)%nat) in *. set (i3 := ((i + 1) * 2 + 1)%nat) in *.
  assert (Hb : (i0 < n /\ i1 < n /\ i2 < n /\ i3 < n)%nat)
    by (unfold i0, i1, i2, i3; lia).
  destruct Hb as (H0 & H1 & H2 & H3).
  assert (E : K' = accumulate
    [ (i0, i0, k11); (i0, i1, k12); (i0, i2, - k11); (i0, i3, k12);
      (i1, i0, k12); (i1, i1, k22); (i1, i2, - k12); (i1, i3, k22_far);
      (i2, i0, - k11); (i2, i1, - k12); (i2, i2, k11); (i2, i3, - k12);
      (i3, i0, k12); (i3, i1, k22_far); (i3, i2, - k12); (i3, i3, k22) ] K)
    by reflexivity.
  rewrite E.
  match goal with
  | |- context [accumulate ?ops K] =>
      destruct (accumulate_adds n ops K Hsq) as [Hsq' Hget]
  end.
  { intros op Hop. cbn [In] in Hop.
    repeat (destruct Hop as [<- | Hop]; [cbn [fst snd]; split; assumption |]).
    destruct Hop. }
  split; [exact Hsq' |].
  intros a b. rewrite !Hget, (Hsym a b). f_equal.
  unfold added. cbn [fold_right fst snd].
  destruct (i0 =? a)%nat, (i1 =? a)%nat, (i2 =? a)%nat, (i3 =? a)%nat,
    (i0 =? b)%nat, (i1 =? b)%nat, (i2 =? b)%nat, (i3 =? b)%nat;
    cbn [andb]; lra.
Qed.

Lemma assembleStiffness_symmetric (EI : R) (nodes : list R) (K : list (list R)) :
  isSquare (List.length nodes * 2) K -> symmetric K ->
  isSquare (List.length nodes * 2) (assembleStiffness EI nodes K)
  /\ symmetric (assembleStiffness EI nodes K).
Proof.
  unfold assembleStiffness.
  set (n := (List.length nodes * 2)%nat).
  assert (G : forall l K, (forall i, In i l -> (i < List.length nodes - 1)%nat) ->
    isSquare n K -> symmetric K ->
    let K' :=
      fold_left
        (fun K i =>
           let x1 := get nodes i in
           let x2 := get nodes (i + 1) in
           let L := x2 - x1 in
           if ltb L 1e-5 then K else
           let k := EI / (L * L * L) in
           let k11 := 12 * k in
           let k12 := 6 * L * k in
           let k22 := 4 * L * L * k in
           let k22_far := 2 * L * L * k in
           let idx := [i * 2; i * 2 + 1; (i + 1) * 2; (i + 1) * 2 + 1]%nat in
           let Ke := [ [k11; k12; - k11; k12];
                       [k12; k22; - k12; k22_far];
                       [- k11; - k12; k11; - k12];
                       [k12; k22_far; - k12; k22] ] in
           fold_left
             (fun K r =>
                fold_left
                  (fun K c => madd K (nth r idx O) (nth c idx O) (mget Ke r c))
                  (seq 0 4) K)
             (seq 0 4) K)
        l K in
    isSquare n K' /\ symmetric K').
  { induction l as [| i t IH]; intros K0 Hl Hsq Hsym; cbv zeta.
    - simpl. split; assumption.
    - cbn [fold_left].
      destruct (ltb (get nodes (i + 1) - get nodes i) 1e-5).
      + apply IH; [intros j Hj; apply Hl; now right | assumption | assumption].
      + pose proof (Hl i (or_introl eq_refl)) as Hi.
        match goal with
        | |- context [fold_left _ t ?K1] =>
            assert (H1 : isSquare n K1 /\ symmetric K1)
        end.
        { apply element_keeps_symmetry; [assumption | assumption |].
          unfold n. lia. }
        destruct H1 as [Hsq1 Hsym1].
        apply IH; [intros j Hj; apply Hl; now right | assumption | assumption]. }
  intros Hsq Hsym. apply G; [| assumption | assumption].
  intros i Hi. apply in_seq in Hi. lia.
Qed.

Lemma findIndexFrom_bound {A : Type} (p : A -> bool) (l : list A) (k j : nat) :
  findIndexFrom p l k = Some j -> (k <= j < k + List.length l)%nat.
Proof.
  revert k. induction l as [| a t IH]; intros k H; simpl in *; [discriminate |].
  destruct (p a).
  - injection H as <-. lia.
  - apply IH in H. lia.
Qed.

Lemma applySupport_symmetric (nodes : list R) (K : list (list R)) (s : Support) :
  isSquare (List.length nodes * 2) K -> symmetric K ->
  isSquare (List.length nodes * 2) (applySupport nodes K s)
  /\ symmetric (applySupport nodes K s).
Proof.
  intros Hsq Hsym. unfold applySupport, findIndex.
  destruct (findIndexFrom _ nodes 0) as [idx |] eqn:E; [| split; assumption].
  apply findIndexFrom_bound in E.
  set (n := (List.length nodes * 2)%nat) in *.
  assert (Hsq1 : isSquare n (madd K (idx * 2) (idx * 2) penalty))
    by (now apply madd_isSquare).
  assert (Hsym1 : symmetric (madd K (idx * 2) (idx * 2) penalty)).
  { intros a b. rewrite !(mget_madd n) by (try assumption; unfold n; lia).
    rewrite (Hsym a b), andb_comm. reflexivity. }
  destruct (isFixed (sup_type s)); [| split; assumption].
  split; [now apply madd_isSquare |].
  intros a b.
  rewrite (mget_madd n _ _ _ a b), (mget_madd n _ _ _ b a)
    by (try assumption; unfold n; lia).
  rewrite (Hsym1 a b), andb_comm. reflexivity.
Qed.

Lemma createMatrix_zero (n a b : nat) : mget (createMatrix n n) a b = 0.
Proof.
  unfold mget, createMatrix, get.
  destruct (Nat.lt_ge_cases a n) as [Hlt | Hge].
  - rewrite nth_repeat_lt by assumption. apply nth_repeat.
  - rewrite (nth_overflow (repeat (repeat 0 n) n) [])
      by (now rewrite repeat_length).
    now destruct b.
Qed.

Lemma createMatrix_isSquare (n : nat) : isSquare n (createMatrix n n).
Proof.
  unfold createMatrix. split; [apply repeat_length |].
  intros r Hr. rewrite nth_repeat_lt by assumption. apply repeat_length.
Qed.

Lemma assembleDistributed_length (nodes F : list R) (d : DistributedLoad) :
  List.length (assembleDistributed nodes F d) = List.length F.
Proof.
  unfold assembleDistributed.
  generalize (seq 0 (List.length nodes - 1)). intros l. revert F.
  induction l as [| i t IH]; intros F; [reflexivity |].
  cbn [fold_left]. cbv zeta.
  destruct (gtb _ _); [| apply IH].
  rewrite IH. cbn [seq fold_left]. unfold vsub. now rewrite !upd_length.
Qed.

Lemma assemblePoint_length (nodes F : list R) (p : PointLoad) :
  List.length (assemblePoint nodes F p) = List.length F.
Proof.
  unfold assemblePoint.
  generalize (seq 0 (List.length nodes - 1)). intros l.
  induction l as [| i t IH]; [reflexivity |].
  cbn [assemblePointFrom]. cbv zeta.
  destruct (_ && _); [| exact IH].
  destruct (ltb _ _); [exact IH |].
  unfold vsub. now rewrite !upd_length.
Qed.

(** The system the beam solver hands to the linear solver is well
    formed: the stiffness matrix, penalties included, is square with two
    rows per node and symmetric, and the load vector has one entry per
    row. *)
Theorem beam_system_is_well_formed (inp : BeamInput) :
  let nDof := (List.length (buildNodes (span inp) (supports inp)) * 2)%nat in
  isSquare nDof (stiffness inp)
  /\ symmetric (stiffness inp)
  /\ List.length (loadVector inp) = nDof.
Proof.
  cbv zeta. unfold stiffness, loadVector.
  set (nodes := buildNodes (span inp) (supports inp)).
  set (n := (List.length nodes * 2)%nat).
  assert (H0 : isSquare n (assembleStiffness (stiffnessEI inp) nodes (createMatrix n n))
               /\ symmetric (assembleStiffness (stiffnessEI inp) nodes (createMatrix n n))).
  { apply assembleStiffness_symmetric; [apply createMatrix_isSquare |].
    intros a b. now rewrite !createMatrix_zero. }
  revert H0. generalize (assembleStiffness (stiffnessEI inp) nodes (createMatrix n n)).
  assert (G : forall l K, isSquare n K /\ symmetric K ->
                isSquare n (fold_left (applySupport nodes) l K)
                /\ symmetric (fold_left (applySupport nodes) l K)).
  { induction l as [| s t IH]; intros K [Hsq Hsym]; [split; assumption |].
    cbn [fold_left]. apply IH. now apply applySupport_symmetric. }
  intros K HK. destruct (G (supports inp) K HK) as [Hsq Hsym].
  split; [exact Hsq |]. split; [exact Hsym |].
  unfold assembleLoads.
  assert (GP : forall l F, List.length (fold_left (assemblePoint nodes) l F)
                           = List.length F).
  { induction l as [| p t IH]; intros F; [reflexivity |].
    cbn [fold_left]. now rewrite IH, assemblePoint_length. }
  assert (GD : forall l F, List.length (fold_left (assembleDistributed nodes) l F)
                           = List.length F).
  { induction l as [| d t IH]; intros F; [reflexivity |].
    cbn [fold_left]. now rewrite IH, assembleDistributed_length. }
  rewrite GP, GD. apply repeat_length.
Qed.

End StiffnessProperties.

(** ** The load met along the walk *)

Module WalkProperties.

Import BeamSolver Samples JsFacts.

Lemma shear_step_splits (a b c : R) (d : DistributedLoad) (v1 v2 v3 : R) :
  a <= b <= c -> v1 = v2 + v3 ->
  (let s := Rmax a (dl_start d) in
   let e := Rmin c (dl_end d) in
   if gtb e s then
     let len := e - s in
     let slope := (dl_endMagnitude d - dl_startMagnitude d)
                  / (dl_end d - dl_start d) in
     let q_s := dl_startMagnitude d + slope * (s - dl_start d) in
     let q_e := dl_startMagnitude d + slope * (e - dl_start d) in
     let force := len * (q_s + q_e) / 2 in
     v1 + force
   else v1)
  = (let s := Rmax a (dl_start d) in
     let e := Rmin b (dl_end d) in
     if gtb e s then
       let len := e - s in
       let slope := (dl_endMagnitude d - dl_startMagnitude d)
                    / (dl_end d - dl_start d) in
       let q_s := dl_startMagnitude d + slope * (s - dl_start d) in
       let q_e := dl_startMagnitude d + slope * (e - dl_start d) in
       let force := len * (q_s + q_e) / 2 in
       v2 + force
     else v2)
    + (let s := Rmax b (dl_start d) in
       let e := Rmin c (dl_end d) in
       if gtb e s then
         let len := e - s in
         let slope := (dl_endMagnitude d - dl_startMagnitude d)
                      / (dl_end d - dl_start d) in
         let q_s := dl_startMagnitude d + slope * (s - dl_start d) in
         let q_e := dl_startMagnitude d + slope * (e - dl_start d) in
         let force := len * (q_s + q_e) / 2 in
         v3 + force
       else v3).
Proof.
  intros Habc ->. cbv zeta.
  set (m := (dl_endMagnitude d - dl_startMagnitude d) / (dl_end d - dl_start d)).
  generalize m (dl_start d) (dl_end d) (dl_startMagnitude d). clear m.
  intros m st en q0.
  unfold gtb, ltb, Rmax, Rmin.
  repeat (match goal with
          | |- context [Rle_dec ?x ?y] => destruct (Rle_dec x y)
          | |- context [Rlt_dec ?x ?y] => destruct (Rlt_dec x y)
          end; try lra).
  all: try (assert (st = b) by lra; subst st; lra).
  all: try (assert (en = b) by lra; subst en; lra).
  all: try (assert (c = b) by lra; subst c; lra).
  all: try (assert (a = b) by lra; subst a; lra).
Qed.

(** The distributed load met between two abscissas does not depend on
    where the stretch is cut: over [a, c] it is what is met over [a, b]
    plus what is met over [b, c]. *)
Theorem distributed_shear_adds_up (a b c : R) (dls : list DistributedLoad) :
  a <= b <= c ->
  distributedShear a c dls = distributedShear a b dls + distributedShear b c dls.
Proof.
  intros Habc. unfold distributedShear.
  match goal with
  | |- fold_left ?f1 dls 0 = fold_left ?f2 dls 0 + fold_left ?f3 dls 0 =>
      assert (G : forall l v1 v2 v3, v1 = v2 + v3 ->
                fold_left f1 l v1 = fold_left f2 l v2 + fold_left f3 l v3)
  end.
  { induction l as [| d t IH]; intros v1 v2 v3 Hv.
    - simpl. exact Hv.
    - cbn [fold_left]. apply IH. now apply shear_step_splits. }
  apply G. lra.
Qed.

Lemma distributed_shear_adds_up_witness :
  distributedShear 0 2 [mkDistributedLoad "d" 1 3 10 10 20]
  = distributedShear 0 1.5 [mkDistributedLoad "d" 1 3 10 10 20]
    + distributedShear 1.5 2 [mkDistributedLoad "d" 1 3 10 10 20].
Proof.
  apply (distributed_shear_adds_up 0 1.5 2). lra.
Defined.

End WalkProperties.
